(** * aerograph: the stable-fluids solver (utils/fluidSolver.ts), the
    canvas of App.tsx (pointer handlers, render loop, "Clear Canvas") and
    the analysis service (services/geminiService.ts)

    Numbers.  A TypeScript [number] is modelled by the type [number] below:
    a finite value is an exact rational, and the three special values of
    IEEE arithmetic (+Infinity, -Infinity, NaN) are kept with their IEEE
    rules (0 * Infinity = NaN, 1 / 0 = Infinity, comparisons with NaN are
    false, ...).  Rounding (of doubles, and of the stores into a
    [Float32Array]), overflow of finite values and the sign of zero are not
    modelled: arithmetic on finite values is exact.

    Arrays.  A [Float32Array] is a [list number] of fixed length.  Reading
    outside the array yields [undefined], which every use in the solver
    turns into NaN; writing outside the array is ignored.

    Integers.  The grid resolution [size], the coordinates given to [IX],
    the boundary kind [b], the iteration count and the loop counters are
    integers ([Z]).

    State.  The methods of the class mutate the buffers they are given.
    Here each method takes the buffers it reads and writes and returns the
    ones it wrote; [step] threads the six buffers of the solver through the
    pipeline in the order of the source.  Wherever the source passes one
    buffer under two names, both names are only read.

    Canvas.  The component keeps its state in refs and React state; here
    it is a record ([App.t]) and each handler is a function on it.  A
    pointer event is reduced to its client coordinates, the canvas to its
    bounding rectangle ([None] when the ref is not attached), and the
    animation loop to its body, one frame per [AnimationFrame] event.  The
    pixel buffer of the [ImageData] is a list of bytes, stored with the
    conversion of a [Uint8ClampedArray].

    Analysis.  The service reads an API key, calls the model and parses the
    answer; these three are parameters of the model of the service, a
    promise being represented by the way it settles.

    The file has two parts: the definitions (the embedding, then the
    vocabulary of the properties), and the properties with their proofs. *)

From Stdlib Require Import ZArith QArith Qround Qcanon Lia Lqa Bool.
From stdpp Require Import base list list_numbers strings.

Local Open Scope Z_scope.

(** ** Numbers *)

Inductive number : Type :=
| Fin (q : Q)
| PInf
| NInf
| NaN.

Declare Scope num_scope.
Delimit Scope num_scope with num.
Bind Scope num_scope with number.

Module Num.

(** Finite results are kept in lowest terms, so that equal values are
    equal terms. *)
Definition fin (q : Q) : number := Fin (Qred q).

Definition of_Z (z : Z) : number := Fin (inject_Z z).

Definition zero : number := Fin 0.
Definition one : number := Fin 1.
Definition half : number := Fin (1 # 2).

Definition neg (x : number) : number :=
  match x with
  | Fin a => fin (- a)
  | PInf => NInf
  | NInf => PInf
  | NaN => NaN
  end.

Definition add (x y : number) : number :=
  match x, y with
  | NaN, _ | _, NaN => NaN
  | Fin a, Fin b => fin (a + b)
  | PInf, NInf | NInf, PInf => NaN
  | PInf, _ | _, PInf => PInf
  | NInf, _ | _, NInf => NInf
  end.

Definition sub (x y : number) : number :=
  match x, y with
  | NaN, _ | _, NaN => NaN
  | Fin a, Fin b => fin (a - b)
  | PInf, PInf | NInf, NInf => NaN
  | PInf, _ | _, NInf => PInf
  | NInf, _ | _, PInf => NInf
  end.

(** Sign of a number: -1, 0 or 1 ([None] for NaN). *)
Definition sign (x : number) : option Z :=
  match x with
  | Fin a => Some (Z.sgn (Qnum a))
  | PInf => Some 1
  | NInf => Some (-1)
  | NaN => None
  end.

Definition inf_of_sign (z : Z) : number :=
  match z with
  | Z0 => NaN
  | Zpos _ => PInf
  | Zneg _ => NInf
  end.

Definition mul (x y : number) : number :=
  match x, y with
  | Fin a, Fin b => fin (a * b)
  | _, _ =>
      match sign x, sign y with
      | Some sx, Some sy => inf_of_sign (sx * sy)
      | _, _ => NaN
      end
  end.

Definition div (x y : number) : number :=
  match x, y with
  | NaN, _ | _, NaN => NaN
  | Fin a, Fin b =>
      if Qeq_bool b 0 then inf_of_sign (Z.sgn (Qnum a)) else fin (a / b)
  | Fin _, _ => zero
  | PInf, Fin b => if Z.ltb (Qnum b) 0 then NInf else PInf
  | NInf, Fin b => if Z.ltb (Qnum b) 0 then PInf else NInf
  | _, _ => NaN
  end.

(** [x < y]; false as soon as one side is NaN. *)
Definition ltb (x y : number) : bool :=
  match x, y with
  | NaN, _ | _, NaN => false
  | Fin a, Fin b => match (a ?= b)%Q with Lt => true | _ => false end
  | _, NInf | PInf, _ => false
  | _, PInf | NInf, _ => true
  end.

(** [Math.max]. *)
Definition max (x y : number) : number :=
  match x, y with
  | NaN, _ | _, NaN => NaN
  | _, _ => if ltb x y then y else x
  end.

(** [Math.floor] of a finite number; [None] when the argument is not
    finite, in which case JavaScript returns the argument itself. *)
Definition floor (x : number) : option Z :=
  match x with
  | Fin a => Some (Qfloor a)
  | _ => None
  end.

End Num.

Notation "x + y" := (Num.add x y) : num_scope.
Notation "x - y" := (Num.sub x y) : num_scope.
Notation "x * y" := (Num.mul x y) : num_scope.
Notation "x / y" := (Num.div x y) : num_scope.
Notation "- x" := (Num.neg x) : num_scope.

(** ** Loops and typed arrays *)

(** [for (let i = lo; i <= hi; i++) acc = body(i, acc)]. *)
Definition for_range {A} (lo hi : Z) (body : Z → A → A) (a : A) : A :=
  foldl (λ acc i, body i acc) a (seqZ lo (hi - lo + 1)).

Abbreviation Float32Array := (list number).

(** [new Float32Array(n)]: [n] zeros. *)
Definition new_array (n : Z) : Float32Array := replicate (Z.to_nat n) Num.zero.

(** [a.fill(0)]. *)
Definition fill_zero (a : Float32Array) : Float32Array :=
  replicate (length a) Num.zero.

(** [a[k]], used as a number. *)
Definition get (a : Float32Array) (k : Z) : number :=
  if k <? 0 then NaN else default NaN (a !! Z.to_nat k).

(** [a[k] = v]. *)
Definition set (a : Float32Array) (k : Z) (v : number) : Float32Array :=
  if k <? 0 then a else <[Z.to_nat k := v]> a.

(** ** The solver *)

Module FluidSolver.

Record t : Type := mk {
  size : Z;
  dt : number;
  diff : number;
  visc : number;
  s : Float32Array;
  density : Float32Array;
  Vx : Float32Array;
  Vy : Float32Array;
  Vx0 : Float32Array;
  Vy0 : Float32Array
}.

(** The constructor stores its arguments and allocates six zero-filled
    buffers; its body has no [throw]. *)
Definition constructor (size : Z) (diffusion viscosity dt : number) : t :=
  let N := size in
  let arraySize := (N + 2) * (N + 2) in
  {| size := size; dt := dt; diff := diffusion; visc := viscosity;
     s := new_array arraySize;
     density := new_array arraySize;
     Vx := new_array arraySize;
     Vy := new_array arraySize;
     Vx0 := new_array arraySize;
     Vy0 := new_array arraySize |}.

(** Coordinate flattening, on integer coordinates. *)
Definition IX (N x y : Z) : Z :=
  let x := Z.max 0 (Z.min x (N + 1)) in
  let y := Z.max 0 (Z.min y (N + 1)) in
  x + (N + 2) * y.

Definition addDensity (fs : t) (x y : Z) (amount : number) : t :=
  let N := size fs in
  let index := IX N x y in
  {| size := size fs; dt := dt fs; diff := diff fs; visc := visc fs;
     s := s fs;
     density := set (density fs) index (get (density fs) index + amount)%num;
     Vx := Vx fs; Vy := Vy fs; Vx0 := Vx0 fs; Vy0 := Vy0 fs |}.

Definition addVelocity (fs : t) (x y : Z) (amountX amountY : number) : t :=
  let index := IX (size fs) x y in
  {| size := size fs; dt := dt fs; diff := diff fs; visc := visc fs;
     s := s fs; density := density fs;
     Vx := set (Vx fs) index (get (Vx fs) index + amountX)%num;
     Vy := set (Vy fs) index (get (Vy fs) index + amountY)%num;
     Vx0 := Vx0 fs; Vy0 := Vy0 fs |}.

(** [b === k ? -v : v] *)
Definition flip_if (b k : Z) (v : number) : number :=
  if b =? k then (- v)%num else v.

Definition set_bnd (N b : Z) (x : Float32Array) : Float32Array :=
  let x := for_range 1 N (λ i x,
    let x := set x (IX N i 0) (flip_if b 2 (get x (IX N i 1))) in
    set x (IX N i (N + 1)) (flip_if b 2 (get x (IX N i N)))) x in
  let x := for_range 1 N (λ j x,
    let x := set x (IX N 0 j) (flip_if b 1 (get x (IX N 1 j))) in
    set x (IX N (N + 1) j) (flip_if b 1 (get x (IX N N j)))) x in
  let x := set x (IX N 0 0)
    (Num.half * (get x (IX N 1 0) + get x (IX N 0 1)))%num in
  let x := set x (IX N 0 (N + 1))
    (Num.half * (get x (IX N 1 (N + 1)) + get x (IX N 0 N)))%num in
  let x := set x (IX N (N + 1) 0)
    (Num.half * (get x (IX N N 0) + get x (IX N (N + 1) 1)))%num in
  set x (IX N (N + 1) (N + 1))
    (Num.half * (get x (IX N N (N + 1)) + get x (IX N (N + 1) N)))%num.

(** One Gauss-Seidel sweep over the interior, in place in [x]: the [j] and
    [i] loops of [lin_solve]. *)
Definition relax (N : Z) (x0 : Float32Array) (a cRecip : number)
    (x : Float32Array) : Float32Array :=
  for_range 1 N (λ j x,
    for_range 1 N (λ i x,
      set x (IX N i j)
        ((get x0 (IX N i j) +
          a * (get x (IX N (i + 1) j) + get x (IX N (i - 1) j) +
               get x (IX N i (j + 1)) + get x (IX N i (j - 1)))) *
         cRecip)%num) x) x.

(** The [k] loop: [iter] sweeps, each followed by the boundary handler.
    [x] and [x0] are distinct buffers at every call site. *)
Definition lin_solve (N b : Z) (x x0 : Float32Array) (a c : number)
    (iter : Z) : Float32Array :=
  let cRecip := (Num.one / c)%num in
  for_range 0 (iter - 1) (λ _ x, set_bnd N b (relax N x0 a cRecip x)) x.

Definition diffuse (N b : Z) (x x0 : Float32Array) (diff dt : number)
    (iter : Z) : Float32Array :=
  let a := (dt * diff * Num.of_Z (N - 2) * Num.of_Z (N - 2))%num in
  lin_solve N b x x0 a (Num.one + Num.of_Z 6 * a)%num iter.

(** Returns the four buffers in argument order: velocX, velocY, p, div.
    The four are distinct buffers at both call sites. *)
Definition project (N : Z) (velocX velocY p div : Float32Array) (iter : Z)
    : Float32Array * Float32Array * Float32Array * Float32Array :=
  let '(div, p) :=
    for_range 1 N (λ j st,
      for_range 1 N (λ i '(div, p),
        let div := set div (IX N i j)
          (Fin (-1 # 2) *
             (get velocX (IX N (i + 1) j) - get velocX (IX N (i - 1) j) +
              get velocY (IX N i (j + 1)) - get velocY (IX N i (j - 1))) /
           Num.of_Z N)%num in
        let p := set p (IX N i j) Num.zero in
        (div, p)) st) (div, p) in
  let div := set_bnd N 0 div in
  let p := set_bnd N 0 p in
  let p := lin_solve N 0 p div Num.one (Num.of_Z 6) iter in
  let '(velocX, velocY) :=
    for_range 1 N (λ j st,
      for_range 1 N (λ i '(velocX, velocY),
        let velocX := set velocX (IX N i j)
          (get velocX (IX N i j) -
           Num.half * Num.of_Z N *
             (get p (IX N (i + 1) j) - get p (IX N (i - 1) j)))%num in
        let velocY := set velocY (IX N i j)
          (get velocY (IX N i j) -
           Num.half * Num.of_Z N *
             (get p (IX N i (j + 1)) - get p (IX N i (j - 1))))%num in
        (velocX, velocY)) st) (velocX, velocY) in
  let velocX := set_bnd N 1 velocX in
  let velocY := set_bnd N 2 velocY in
  (velocX, velocY, p, div).

(** [if (x < 0.5) x = 0.5; if (x > N + 0.5) x = N + 0.5;] *)
Definition clamp_pos (N : Z) (x : number) : number :=
  let x := if Num.ltb x Num.half then Num.half else x in
  if Num.ltb (Num.of_Z N + Num.half)%num x
  then (Num.of_Z N + Num.half)%num else x.

(** The value written to [d[IX(i, j)]].  After the two clamps [x] and [y]
    are finite or NaN.  When one of them is NaN its floor is NaN, [IX]
    of it is NaN, the reads of [d0] at that offset are [undefined] and
    the weighted sum is NaN. *)
Definition advect_cell (N : Z) (d0 velocX velocY : Float32Array)
    (dt0 : number) (i j : Z) : number :=
  let x := clamp_pos N (Num.of_Z i - dt0 * get velocX (IX N i j))%num in
  let y := clamp_pos N (Num.of_Z j - dt0 * get velocY (IX N i j))%num in
  match Num.floor x, Num.floor y with
  | Some i0, Some j0 =>
      let i1 := i0 + 1 in
      let j1 := j0 + 1 in
      let s1 := (x - Num.of_Z i0)%num in
      let s0 := (Num.one - s1)%num in
      let t1 := (y - Num.of_Z j0)%num in
      let t0 := (Num.one - t1)%num in
      (s0 * (t0 * get d0 (IX N i0 j0) + t1 * get d0 (IX N i0 j1)) +
       s1 * (t0 * get d0 (IX N i1 j0) + t1 * get d0 (IX N i1 j1)))%num
  | _, _ => NaN
  end.

(** [d] is distinct from [d0], [velocX] and [velocY] at every call site
    ([d0] and [velocX] may be one buffer: both are only read). *)
Definition advect (N b : Z) (d d0 velocX velocY : Float32Array)
    (dt : number) : Float32Array :=
  let dt0 := (dt * Num.of_Z (N - 2))%num in
  let d :=
    for_range 1 N (λ j d,
      for_range 1 N (λ i d,
        set d (IX N i j) (advect_cell N d0 velocX velocY dt0 i j)) d) d in
  set_bnd N b d.

(** Natural dissipation: the last statement of [step]. *)
Definition fade (fadeRate : number) (density : Float32Array)
    : Float32Array :=
  if Num.ltb Num.zero fadeRate then
    for_range 0 (Z.of_nat (length density) - 1) (λ i density,
      set density i
        (Num.max Num.zero (get density i * (Num.one - fadeRate))%num))
      density
  else density.

Definition step (fs : t) (iter : Z) (fadeRate : number) : t :=
  let N := size fs in
  let visc := visc fs in
  let diff := diff fs in
  let dt := dt fs in
  let Vx := Vx fs in
  let Vy := Vy fs in
  let Vx0 := Vx0 fs in
  let Vy0 := Vy0 fs in
  let s := s fs in
  let density := density fs in
  let Vx0 := diffuse N 1 Vx0 Vx visc dt iter in
  let Vy0 := diffuse N 2 Vy0 Vy visc dt iter in
  let '(Vx0, Vy0, Vx, Vy) := project N Vx0 Vy0 Vx Vy iter in
  let Vx := advect N 1 Vx Vx0 Vx0 Vy0 dt in
  let Vy := advect N 2 Vy Vy0 Vx0 Vy0 dt in
  let '(Vx, Vy, Vx0, Vy0) := project N Vx Vy Vx0 Vy0 iter in
  let s := diffuse N 0 s density diff dt iter in
  let density := advect N 0 density s Vx Vy dt in
  let density := fade fadeRate density in
  {| size := N; dt := dt; diff := diff; visc := visc;
     s := s; density := density;
     Vx := Vx; Vy := Vy; Vx0 := Vx0; Vy0 := Vy0 |}.

End FluidSolver.

(** ** App.tsx: the "Clear Canvas" action *)

Definition handleReset (fs : FluidSolver.t) : FluidSolver.t :=
  {| FluidSolver.size := FluidSolver.size fs;
     FluidSolver.dt := FluidSolver.dt fs;
     FluidSolver.diff := FluidSolver.diff fs;
     FluidSolver.visc := FluidSolver.visc fs;
     FluidSolver.s := FluidSolver.s fs;
     FluidSolver.density := fill_zero (FluidSolver.density fs);
     FluidSolver.Vx := fill_zero (FluidSolver.Vx fs);
     FluidSolver.Vy := fill_zero (FluidSolver.Vy fs);
     FluidSolver.Vx0 := fill_zero (FluidSolver.Vx0 fs);
     FluidSolver.Vy0 := fill_zero (FluidSolver.Vy0 fs) |}.

(** ** Construction, as an expression that may fail *)

(** The error the specification names.  The source defines no error of its
    own. *)
Inductive exception : Type :=
| InvalidConfiguration.

Inductive outcome (A : Type) : Type :=
| Returned (a : A)
| Thrown (e : exception).
Arguments Returned {A} a.
Arguments Thrown {A} e.

(** A [new FluidSolver(...)] expression either returns an instance or
    throws.  The constructor body has no [throw], and [(N + 2) * (N + 2)] is
    a valid array length for every integer [N], so the expression always
    returns. *)
Definition new_FluidSolver (size : Z) (diffusion viscosity dt : number)
    : outcome FluidSolver.t :=
  Returned (FluidSolver.constructor size diffusion viscosity dt).

(** ** types.ts and constants.ts *)

Inductive ToolMode : Type :=
| SMOKE
| WIND
| ERASER.

Module SimulationConfig.

Record t : Type := mk {
  resolution : Z;
  viscosity : number;
  diffusion : number;
  fadeRate : number;
  iterations : Z;
  dyeRes : Z
}.

End SimulationConfig.

Definition DEFAULT_CONFIG : SimulationConfig.t :=
  {| SimulationConfig.resolution := 128;
     SimulationConfig.viscosity := Fin (1 # 100000);
     SimulationConfig.diffusion := Num.zero;
     SimulationConfig.fadeRate := Num.zero;
     SimulationConfig.iterations := 10;
     SimulationConfig.dyeRes := 256 |}.

(** [SMOKE_COLOR]: red, green, blue. *)
Definition SMOKE_COLOR : Z * Z * Z := (255, 255, 255).

(** ** App.tsx: the pointer handlers and the render loop *)

Module Math.

(** [Math.floor]: an infinity and NaN are returned as they are. *)
Definition floor (x : number) : number :=
  match Num.floor x with
  | Some z => Num.of_Z z
  | None => x
  end.

(** [Math.min]. *)
Definition min (x y : number) : number :=
  match x, y with
  | NaN, _ | _, NaN => NaN
  | _, _ => if Num.ltb y x then y else x
  end.

(** [Math.max]. *)
Definition max (x y : number) : number := Num.max x y.

(** [x <= y]; false as soon as one side is NaN. *)
Definition leb (x y : number) : bool :=
  match x, y with
  | NaN, _ | _, NaN => false
  | _, _ => negb (Num.ltb y x)
  end.

End Math.

(** A [Uint8ClampedArray] is a list of bytes of fixed length; a write
    outside the array is ignored. *)
Abbreviation Uint8ClampedArray := (list Z).

(** The conversion a [Uint8ClampedArray] applies to a number stored in it:
    NaN becomes 0, the value is clamped to [0, 255] and rounded to the
    nearest integer, a tie going to the even one. *)
Definition ToUint8Clamp (x : number) : Z :=
  match x with
  | NaN => 0
  | NInf => 0
  | PInf => 255
  | Fin q =>
      if Qle_bool q 0 then 0
      else if Qle_bool 255 q then 255
      else
        let f := Qfloor q in
        match (q - inject_Z f ?= 1 # 2)%Q with
        | Lt => f
        | Gt => f + 1
        | Eq => if Z.even f then f else f + 1
        end
  end.

(** [data[k] = v], on a byte that is already in range. *)
Definition set_byte (data : Uint8ClampedArray) (k : Z) (v : Z)
    : Uint8ClampedArray :=
  if k <? 0 then data else <[Z.to_nat k := v]> data.

(** The result of [getBoundingClientRect], as far as [getPointerPos] reads
    it. *)
Module DOMRect.

Record t : Type := mk {
  left : number;
  top : number;
  width : number;
  height : number
}.

End DOMRect.

Module App.

(** The state of the component the handlers below read and write: the
    [useState] cells [solver], [mode], [brushSize] and [isPaused], the refs
    [isDragging] and [lastPos], and the pixel buffer [data] of the
    [ImageData] that the render effect allocates once and reuses from frame
    to frame.  The brush size is the integer the range input delivers. *)
Record t : Type := mk {
  solver : option FluidSolver.t;
  mode : ToolMode;
  brushSize : Z;
  isPaused : bool;
  isDragging : bool;
  lastPos : option (number * number);
  data : Uint8ClampedArray
}.

(** The state at the first render. *)
Definition initial : t :=
  {| solver := None; mode := SMOKE; brushSize := 4; isPaused := false;
     isDragging := false; lastPos := None; data := [] |}.

(** The effects that run after the first render: the solver is built from
    the default configuration with a time step of 0.1, and the render
    effect allocates the [ImageData] of the padded grid, four zero bytes
    per cell. *)
Definition mount (st : t) : t :=
  let s :=
    FluidSolver.constructor
      (SimulationConfig.resolution DEFAULT_CONFIG)
      (SimulationConfig.diffusion DEFAULT_CONFIG)
      (SimulationConfig.viscosity DEFAULT_CONFIG)
      (Fin (1 # 10)) in
  let paddedSize := FluidSolver.size s + 2 in
  {| solver := Some s;
     mode := mode st; brushSize := brushSize st; isPaused := isPaused st;
     isDragging := isDragging st; lastPos := lastPos st;
     data := replicate (Z.to_nat (paddedSize * paddedSize * 4)) 0 |}.

(** A mouse or touch event is given by the client coordinates that
    [getPointerPos] reads: those of the mouse, or of the first touch.
    [canvas] is the bounding rectangle of the canvas, [None] when
    [canvasRef.current] is null. *)
Definition getPointerPos (canvas : option DOMRect.t) (clientX clientY : number)
    : number * number :=
  match canvas with
  | None => (Num.zero, Num.zero)
  | Some rect =>
      let x := ((clientX - DOMRect.left rect) / DOMRect.width rect *
                Num.of_Z (SimulationConfig.resolution DEFAULT_CONFIG + 2))%num
      in
      let y := ((clientY - DOMRect.top rect) / DOMRect.height rect *
                Num.of_Z (SimulationConfig.resolution DEFAULT_CONFIG + 2))%num
      in
      (x, y)
  end.

Definition handleStart (st : t) (canvas : option DOMRect.t)
    (clientX clientY : number) : t :=
  {| solver := solver st; mode := mode st; brushSize := brushSize st;
     isPaused := isPaused st;
     isDragging := true;
     lastPos := Some (getPointerPos canvas clientX clientY);
     data := data st |}.

Definition handleEnd (st : t) : t :=
  {| solver := solver st; mode := mode st; brushSize := brushSize st;
     isPaused := isPaused st;
     isDragging := false;
     lastPos := None;
     data := data st |}.

(** [solver.density[solver.IX(x, y)] = 0] *)
Definition erase (fs : FluidSolver.t) (x y : Z) : FluidSolver.t :=
  {| FluidSolver.size := FluidSolver.size fs;
     FluidSolver.dt := FluidSolver.dt fs;
     FluidSolver.diff := FluidSolver.diff fs;
     FluidSolver.visc := FluidSolver.visc fs;
     FluidSolver.s := FluidSolver.s fs;
     FluidSolver.density :=
       set (FluidSolver.density fs)
         (FluidSolver.IX (FluidSolver.size fs) x y) Num.zero;
     FluidSolver.Vx := FluidSolver.Vx fs;
     FluidSolver.Vy := FluidSolver.Vy fs;
     FluidSolver.Vx0 := FluidSolver.Vx0 fs;
     FluidSolver.Vy0 := FluidSolver.Vy0 fs |}.

(** What [handleMove] does for the offset [(x, y)] of the brush.  [mx] and
    [my] are integers or NaN (a floor clamped between the integers 1 and
    N), so a target that passes the second test is an integer, the one
    [Num.floor] returns. *)
Definition dab (mode : ToolMode) (N : Z) (mx my clampedDx clampedDy : number)
    (r2 : Z) (x y : Z) (fs : FluidSolver.t) : FluidSolver.t :=
  if x * x + y * y <=? r2 then
    let targetX := (mx + Num.of_Z x)%num in
    let targetY := (my + Num.of_Z y)%num in
    if Num.ltb Num.zero targetX && Math.leb targetX (Num.of_Z N) &&
       Num.ltb Num.zero targetY && Math.leb targetY (Num.of_Z N)
    then
      match Num.floor targetX, Num.floor targetY with
      | Some targetX, Some targetY =>
          let fs :=
            FluidSolver.addVelocity fs targetX targetY clampedDx clampedDy in
          match mode with
          | SMOKE => FluidSolver.addDensity fs targetX targetY (Num.of_Z 150)
          | ERASER => erase fs targetX targetY
          | WIND => fs
          end
      | _, _ => fs
      end
    else fs
  else fs.

(** The two nested loops of [handleMove]. *)
Definition paint (mode : ToolMode) (N : Z) (mx my clampedDx clampedDy : number)
    (radius : Z) (fs : FluidSolver.t) : FluidSolver.t :=
  let r2 := radius * radius in
  for_range (- radius) radius (λ y fs,
    for_range (- radius) radius (λ x fs,
      dab mode N mx my clampedDx clampedDy r2 x y fs) fs) fs.

(** The force applied for a displacement [d] of the pointer along one
    axis: [Math.max(-50, Math.min(50, d * forceMult))]. *)
Definition clamped (d : number) : number :=
  let forceMult := Num.of_Z 5 in
  Math.max (Num.of_Z (-50)) (Math.min (Num.of_Z 50) (d * forceMult)%num).

Definition handleMove (st : t) (canvas : option DOMRect.t)
    (clientX clientY : number) : t :=
  match isDragging st, solver st, lastPos st with
  | true, Some fs, Some last =>
      let currentPos := getPointerPos canvas clientX clientY in
      let N := FluidSolver.size fs in
      let mx :=
        Math.max (Num.of_Z 1)
          (Math.min (Math.floor currentPos.1) (Num.of_Z N)) in
      let my :=
        Math.max (Num.of_Z 1)
          (Math.min (Math.floor currentPos.2) (Num.of_Z N)) in
      let dx := (currentPos.1 - last.1)%num in
      let dy := (currentPos.2 - last.2)%num in
      let clampedDx := clamped dx in
      let clampedDy := clamped dy in
      let radius := brushSize st in
      let fs := paint (mode st) N mx my clampedDx clampedDy radius fs in
      {| solver := Some fs; mode := mode st; brushSize := brushSize st;
         isPaused := isPaused st; isDragging := isDragging st;
         lastPos := Some currentPos; data := data st |}
  | _, _, _ => st
  end.

(** [handleReset], on the state of the component. *)
Definition handleReset (st : t) : t :=
  match solver st with
  | None => st
  | Some fs =>
      {| solver := Some (handleReset fs); mode := mode st;
         brushSize := brushSize st; isPaused := isPaused st;
         isDragging := isDragging st; lastPos := lastPos st;
         data := data st |}
  end.

(** The loop of [render] that maps the density to pixel data: red, green,
    blue and alpha of pixel [i] are the bytes [4 i .. 4 i + 3]. *)
Definition pixels (density : Float32Array) (data : Uint8ClampedArray)
    : Uint8ClampedArray :=
  for_range 0 (Z.of_nat (length density) - 1) (λ i data,
    let d := get density i in
    let pixelIndex := i * 4 in
    let data := set_byte data pixelIndex SMOKE_COLOR.1.1 in
    let data := set_byte data (pixelIndex + 1) SMOKE_COLOR.1.2 in
    let data := set_byte data (pixelIndex + 2) SMOKE_COLOR.2 in
    set_byte data (pixelIndex + 3) (ToUint8Clamp d)) data.

(** One animation frame: the tick of the solver unless the simulation is
    paused, then the pixel data handed to the canvas.  Without a solver the
    render loop is not started. *)
Definition render (st : t) : t :=
  match solver st with
  | None => st
  | Some fs =>
      let fs :=
        if isPaused st then fs
        else FluidSolver.step fs (SimulationConfig.iterations DEFAULT_CONFIG)
               (SimulationConfig.fadeRate DEFAULT_CONFIG) in
      {| solver := Some fs; mode := mode st; brushSize := brushSize st;
         isPaused := isPaused st; isDragging := isDragging st;
         lastPos := lastPos st;
         data := pixels (FluidSolver.density fs) (data st) |}
  end.

(** The events the component reacts to, as the JSX wires them: an animation
    frame, mouse down or touch start, mouse or touch move, mouse up, mouse
    leave or touch end, the three tool buttons, the brush slider and the
    "Clear Canvas" button. *)
Inductive event : Type :=
| AnimationFrame
| PointerDown (canvas : option DOMRect.t) (clientX clientY : number)
| PointerMove (canvas : option DOMRect.t) (clientX clientY : number)
| PointerUp
| SelectTool (m : ToolMode)
| SetBrushSize (n : Z)
| ClearCanvas.

Definition dispatch (st : t) (e : event) : t :=
  match e with
  | AnimationFrame => render st
  | PointerDown canvas clientX clientY => handleStart st canvas clientX clientY
  | PointerMove canvas clientX clientY => handleMove st canvas clientX clientY
  | PointerUp => handleEnd st
  | SelectTool m =>
      {| solver := solver st; mode := m; brushSize := brushSize st;
         isPaused := isPaused st; isDragging := isDragging st;
         lastPos := lastPos st; data := data st |}
  | SetBrushSize n =>
      {| solver := solver st; mode := mode st; brushSize := n;
         isPaused := isPaused st; isDragging := isDragging st;
         lastPos := lastPos st; data := data st |}
  | ClearCanvas => handleReset st
  end.

Definition run (st : t) (events : list event) : t := foldl dispatch st events.

End App.

(** ** services/geminiService.ts *)

Module GeminiAnalysisResult.

Record t : Type := mk {
  title : string;
  description : string;
  mood : string
}.

End GeminiAnalysisResult.

(** How a promise settles: with a value, or with an [Error] of the given
    message. *)
Inductive settled (A : Type) : Type :=
| Resolved (a : A)
| Rejected (message : string).
Arguments Resolved {A} a.
Arguments Rejected {A} message.

Module GeminiService.

(** [\w]: a letter, a digit or the underscore. *)
Definition is_word (c : Ascii.ascii) : bool :=
  let n := N.to_nat (Ascii.N_of_ascii c) in
  ((48 <=? n) && (n <=? 57) || (65 <=? n) && (n <=? 90) ||
   (97 <=? n) && (n <=? 122) || (n =? 95))%nat.

(** The string without the longest run of word characters it starts
    with. *)
Fixpoint skip_word (s : string) : string :=
  match s with
  | String c s' => if is_word c then skip_word s' else s
  | EmptyString => s
  end.

(** The string without the prefix [p], if it starts with [p]. *)
Fixpoint strip_prefix (p s : string) : option string :=
  match p with
  | EmptyString => Some s
  | String c p' =>
      match s with
      | String d s' => if Ascii.eqb c d then strip_prefix p' s' else None
      | EmptyString => None
      end
  end.

(** [base64Image.replace(/^data:image\/\w+;base64,/, "")].  The pattern is
    anchored at the start and [\w+] is followed by a character that is not
    a word character, so the only candidate for [\w+] is the longest run
    of word characters after "data:image/": the match is removed if that
    run is not empty and ";base64," follows it, and the string is returned
    as it is otherwise. *)
Definition strip_data_url (base64Image : string) : string :=
  match strip_prefix "data:image/" base64Image with
  | Some rest =>
      let rest' := skip_word rest in
      if (String.length rest' <? String.length rest)%nat
      then
        match strip_prefix ";base64," rest' with
        | Some base64Data => base64Data
        | None => base64Image
        end
      else base64Image
  | None => base64Image
  end.

Section Service.

(** The environment of the service: the API key read at load time (the
    empty string when the variable is not set); the call to the model
    (building the client included), given the image data, which settles
    with the text of the response ([None] for [undefined]) or fails; and
    [JSON.parse], which returns the analysis or throws (the value parsed is
    taken to have the type it is cast to). *)
Variable apiKey : string.
Variable generateContent : string → settled (option string).
Variable JSON_parse : string → settled GeminiAnalysisResult.t.

Definition analyzeSmokeArt (base64Image : string)
    : settled GeminiAnalysisResult.t :=
  if decide (apiKey = "") then Rejected "API Key is missing"
  else
    let base64Data := strip_data_url base64Image in
    match generateContent base64Data with
    | Rejected message => Rejected message
    | Resolved None => Rejected "No response from Gemini"
    | Resolved (Some text) =>
        if decide (text = "") then Rejected "No response from Gemini"
        else JSON_parse text
    end.

End Service.

End GeminiService.

(** ** App.tsx: the analysis panel *)

Module Analysis.

(** The three [useState] cells of the analysis panel. *)
Record t : Type := mk {
  showAnalysis : bool;
  isAnalyzing : bool;
  analysisResult : option GeminiAnalysisResult.t
}.

(** The state when [handleGeminiAnalysis] has settled, for a run with no
    other event in between.  [canvas] is the outcome of
    [canvasRef.current.toDataURL('image/png')], [None] when
    [canvasRef.current] is null; [service] is [analyzeSmokeArt]. *)
Definition handleGeminiAnalysis (st : t) (canvas : option (settled string))
    (service : string → settled GeminiAnalysisResult.t) : t :=
  match canvas with
  | None => st
  | Some toDataURL =>
      let attempt :=
        match toDataURL with
        | Resolved dataUrl => service dataUrl
        | Rejected message => Rejected message
        end in
      {| showAnalysis := true;
         isAnalyzing := false;
         analysisResult :=
           match attempt with
           | Resolved result => Some result
           | Rejected _ =>
               Some {| GeminiAnalysisResult.title := "Connection Error";
                       GeminiAnalysisResult.description :=
                         "Could not reach the oracle. Please try again.";
                       GeminiAnalysisResult.mood := "Disconnected" |}
           end |}
  end.

End Analysis.

(** ** Vocabulary of the properties *)

Definition finite (x : number) : Prop :=
  match x with Fin _ => True | _ => False end.

(** Finite and at least zero. *)
Definition nonneg (x : number) : Prop :=
  match x with Fin q => (0 <= q)%Q | _ => False end.

(** Finite, at least zero and at most [M]. *)
Definition within (M : Q) (x : number) : Prop :=
  match x with Fin q => (0 <= q <= M)%Q | _ => False end.

(** The configurations the specification calls valid: a positive resolution;
    a diffusion rate, a viscosity and a time step that are finite and not
    negative. *)
Definition valid_config (size : Z) (diffusion viscosity dt : number) : Prop :=
  0 < size ∧ nonneg diffusion ∧ nonneg viscosity ∧ nonneg dt.

(** [clamp lo hi v]: the point of [[lo, hi]] nearest to [v]. *)
Definition clamp (lo hi v : Z) : Z :=
  if v <? lo then lo else if hi <? v then hi else v.

(** Every buffer has the length the constructor gave it. *)
Definition sized (N : Z) (a : Float32Array) : Prop :=
  length a = Z.to_nat ((N + 2) * (N + 2)).

Record wf (fs : FluidSolver.t) : Prop := {
  wf_s : sized (FluidSolver.size fs) (FluidSolver.s fs);
  wf_density : sized (FluidSolver.size fs) (FluidSolver.density fs);
  wf_Vx : sized (FluidSolver.size fs) (FluidSolver.Vx fs);
  wf_Vy : sized (FluidSolver.size fs) (FluidSolver.Vy fs);
  wf_Vx0 : sized (FluidSolver.size fs) (FluidSolver.Vx0 fs);
  wf_Vy0 : sized (FluidSolver.size fs) (FluidSolver.Vy0 fs)
}.

(** The six buffers of a solver. *)
Definition buffers (fs : FluidSolver.t) : list Float32Array :=
  [FluidSolver.density fs; FluidSolver.s fs; FluidSolver.Vx fs;
   FluidSolver.Vy fs; FluidSolver.Vx0 fs; FluidSolver.Vy0 fs].

Definition all_zero (a : Float32Array) : Prop := Forall (λ v, v = Num.zero) a.

(** The coefficient [a] that [diffuse] passes to the relaxation solver. *)
Definition coefficient (N : Z) (dt k : number) : number :=
  (dt * k * Num.of_Z (N - 2) * Num.of_Z (N - 2))%num.

(** The relaxation for rate [k] stays among finite numbers: its coefficient
    [a] and the reciprocal of [1 + 6 a] are finite. *)
Definition relaxable (N : Z) (dt k : number) : Prop :=
  finite (coefficient N dt k) ∧
  finite (Num.one / (Num.one + Num.of_Z 6 * coefficient N dt k))%num.

(** A buffer of the size of the grid, all of whose cells satisfy [P]. *)
Definition field (N : Z) (P : number → Prop) (a : Float32Array) : Prop :=
  sized N a ∧ Forall P a.

(** Powers of a rational. *)
Fixpoint qpow (q : Q) (n : nat) : Q :=
  match n with
  | O => 1
  | S n => q * qpow q n
  end.

(** The factor by which one tick with fade rate [r] and at least one
    relaxation sweep shrinks the bound on the density: [(1 - r + 4 a) /
    (1 + 6 a)] for the diffusion coefficient [a] of the solver. *)
Definition contraction (fs : FluidSolver.t) (r : Q) : Q :=
  match coefficient (FluidSolver.size fs) (FluidSolver.dt fs)
          (FluidSolver.diff fs) with
  | Fin A => (1 - r + 4 * A) / (1 + 6 * A)
  | _ => 0
  end.

(** [n] ticks in a row with fade rate [r], the k-th with [iters !! k]
    relaxation sweeps, and no injection in between. *)
Definition ticks (fs : FluidSolver.t) (iters : list Z) (r : number)
    : FluidSolver.t :=
  foldl (λ fs iter, FluidSolver.step fs iter r) fs iters.

(** A solver in the regime the bounds on the density are proved for: buffers
    of the constructor's length, at least one interior cell per axis, a time
    step and a diffusion rate that are finite and at least 0, a viscosity
    whose relaxation stays among finite numbers, finite velocities. *)
Record regular (fs : FluidSolver.t) : Prop := {
  regular_wf : wf fs;
  regular_size : 1 ≤ FluidSolver.size fs;
  regular_dt : nonneg (FluidSolver.dt fs);
  regular_diff : nonneg (FluidSolver.diff fs);
  regular_visc :
    relaxable (FluidSolver.size fs) (FluidSolver.dt fs) (FluidSolver.visc fs);
  regular_Vx : Forall finite (FluidSolver.Vx fs);
  regular_Vy : Forall finite (FluidSolver.Vy fs);
  regular_Vx0 : Forall finite (FluidSolver.Vx0 fs);
  regular_Vy0 : Forall finite (FluidSolver.Vy0 fs)
}.

(** ** Loop shapes used in the proofs *)

(** The body of a loop that, at round [i], copies (through [f]) the cell at
    offset [r1 i] into [w1 i], then the cell at [r2 i] into [w2 i]. *)
Definition edge_body (w1 r1 w2 r2 : Z → Z) (f : number → number)
    (i : Z) (x : Float32Array) : Float32Array :=
  let x := set x (w1 i) (f (get x (r1 i))) in
  set x (w2 i) (f (get x (r2 i))).

(** What holds of the array [acc] of such a loop over [x] when rounds
    [lo .. n - 1] are done. *)
Definition edge_inv (lo : Z) (w1 r1 w2 r2 : Z → Z) (f : number → number)
    (x : Float32Array) (n : Z) (acc : Float32Array) : Prop :=
  length acc = length x ∧
  (∀ i, lo ≤ i < n →
     get acc (w1 i) = f (get x (r1 i)) ∧ get acc (w2 i) = f (get x (r2 i))) ∧
  (∀ k, (∀ i, lo ≤ i < n → k ≠ w1 i ∧ k ≠ w2 i) → get acc k = get x k).

(** The three stages of [set_bnd]: top and bottom rows, left and right
    columns, corners. *)
Definition bnd_rows (N b : Z) (x : Float32Array) : Float32Array :=
  for_range 1 N
    (edge_body (λ i, FluidSolver.IX N i 0) (λ i, FluidSolver.IX N i 1)
               (λ i, FluidSolver.IX N i (N + 1)) (λ i, FluidSolver.IX N i N)
               (FluidSolver.flip_if b 2)) x.

Definition bnd_cols (N b : Z) (x : Float32Array) : Float32Array :=
  for_range 1 N
    (edge_body (λ j, FluidSolver.IX N 0 j) (λ j, FluidSolver.IX N 1 j)
               (λ j, FluidSolver.IX N (N + 1) j) (λ j, FluidSolver.IX N N j)
               (FluidSolver.flip_if b 1)) x.

(** [x[IX(cx, cy)] = 0.5 * (x[IX(ax, ay)] + x[IX(bx, by)])] *)
Definition bnd_corner (N cx cy ax ay bx by_ : Z) (x : Float32Array)
    : Float32Array :=
  set x (FluidSolver.IX N cx cy)
    (Num.half * (get x (FluidSolver.IX N ax ay) +
                 get x (FluidSolver.IX N bx by_)))%num.

Definition bnd_corners (N : Z) (x : Float32Array) : Float32Array :=
  let x := bnd_corner N 0 0 1 0 0 1 x in
  let x := bnd_corner N 0 (N + 1) 1 (N + 1) 0 N x in
  let x := bnd_corner N (N + 1) 0 N 0 (N + 1) 1 x in
  bnd_corner N (N + 1) (N + 1) N (N + 1) (N + 1) N x.

Definition is_corner (N cx cy : Z) : Prop :=
  (cx = 0 ∨ cx = N + 1) ∧ (cy = 0 ∨ cy = N + 1).

(** The boundary policy, as the specification words it: each edge cell is
    set from its single interior neighbour, negated when the kind of the
    field ([1]: velocity along x, [2]: velocity along y, [0]: scalar) matches
    the normal axis of the edge (x for the left and right edges, y for the
    top and bottom edges), copied otherwise; each corner is the average of
    its two adjacent edge cells. *)
Definition wall (b axis : Z) (v : number) : number :=
  if decide (b = axis) then (- v)%num else v.

Definition boundary_policy (N b : Z) (x : Float32Array) : Prop :=
  let at_ cx cy := get x (FluidSolver.IX N cx cy) in
  (∀ j, 1 ≤ j ≤ N →
     at_ 0 j = wall b 1 (at_ 1 j) ∧ at_ (N + 1) j = wall b 1 (at_ N j)) ∧
  (∀ i, 1 ≤ i ≤ N →
     at_ i 0 = wall b 2 (at_ i 1) ∧ at_ i (N + 1) = wall b 2 (at_ i N)) ∧
  at_ 0 0 = (Num.half * (at_ 1 0 + at_ 0 1))%num ∧
  at_ 0 (N + 1) = (Num.half * (at_ 1 (N + 1)%Z + at_ 0 N))%num ∧
  at_ (N + 1) 0 = (Num.half * (at_ N 0 + at_ (N + 1)%Z 1))%num ∧
  at_ (N + 1) (N + 1) =
    (Num.half * (at_ N (N + 1)%Z + at_ (N + 1)%Z N))%num.

(** A sweep over the interior that rewrites each cell from its own old
    value. *)
Definition map_interior (N : Z) (f : Z → Z → number → number)
    (x : Float32Array) : Float32Array :=
  for_range 1 N (λ j x,
    for_range 1 N (λ i x,
      set x (FluidSolver.IX N i j) (f i j (get x (FluidSolver.IX N i j)))) x) x.

(** The discrete divergence and the pressure-gradient corrections, as the
    specification writes them. *)
Definition discrete_divergence (N : Z) (velocX velocY : Float32Array)
    (i j : Z) : number :=
  (Fin (-1 # 2) *
     ((get velocX (FluidSolver.IX N (i + 1) j) -
       get velocX (FluidSolver.IX N (i - 1) j)) +
      (get velocY (FluidSolver.IX N i (j + 1)) -
       get velocY (FluidSolver.IX N i (j - 1)))) /
   Num.of_Z N)%num.

Definition gradient_x (N : Z) (p : Float32Array) (i j : Z) : number :=
  (Num.half * Num.of_Z N *
     (get p (FluidSolver.IX N (i + 1) j) -
      get p (FluidSolver.IX N (i - 1) j)))%num.

Definition gradient_y (N : Z) (p : Float32Array) (i j : Z) : number :=
  (Num.half * Num.of_Z N *
     (get p (FluidSolver.IX N i (j + 1)) -
      get p (FluidSolver.IX N i (j - 1))))%num.

(** ** Scenarios *)

(** A fresh solver on a 4 x 4 interior, without diffusion or viscosity. *)
Definition fresh4 (dt : number) : FluidSolver.t :=
  FluidSolver.constructor 4 Num.zero Num.zero dt.

(** One blob of smoke, then one tick: the state the canvas is in when the
    user presses "Clear Canvas". *)
Definition painted : FluidSolver.t :=
  FluidSolver.step
    (FluidSolver.addDensity (fresh4 (Fin (1 # 10))) 2 2 (Fin 100))
    1 Num.zero.

(** A 2 x 2 interior (padded 4 x 4) holding sixteen different values. *)
Definition sample4x4 : Float32Array :=
  (λ k, Num.of_Z (k + 1)) <$> seqZ 0 16.

(** The painted canvas, with an impulse of velocity at the blob. *)
Definition stirred : FluidSolver.t :=
  FluidSolver.addVelocity painted 2 2 (Fin 3) (Fin (-2)).

(** One blob of smoke on a grid with diffusion: [a = dt * diff * (N - 2)^2]
    is 1/2 and the reciprocal of [1 + 6 a] is 1/4. *)
Definition diffusing : FluidSolver.t :=
  FluidSolver.addDensity
    (FluidSolver.constructor 4 (Fin (1 # 8)) Num.zero Num.one) 2 2 (Fin 100).

(** The tick [N = 4], [addDensity(2, 2, 100)], [step(1, 0)] of the concrete
    scenario, for a time step [dt]. *)
Definition scenario (dt : number) : FluidSolver.t :=
  FluidSolver.step (FluidSolver.addDensity (fresh4 dt) 2 2 (Fin 100))
    1 Num.zero.

(** The interior cells of a grid of resolution [N], as coordinate pairs. *)
Definition interior (N : Z) : list (Z * Z) :=
  j ← seqZ 1 N; i ← seqZ 1 N; [(i, j)].

(** ** Vocabulary of the further properties of the solver *)

(** Two numbers with the same value: a finite value has more than one
    representation as a fraction. *)
Definition same (x y : number) : Prop :=
  match x, y with
  | Fin a, Fin b => (a == b)%Q
  | PInf, PInf | NInf, NInf | NaN, NaN => True
  | _, _ => False
  end.

(** Finite, at least [lo] and at most [hi]. *)
Definition between (lo hi : Q) (x : number) : Prop :=
  match x with Fin q => (lo <= q <= hi)%Q | _ => False end.

(** A cell of the ring of boundary cells around the interior. *)
Definition on_border (N x y : Z) : Prop :=
  x ≤ 0 ∨ N + 1 ≤ x ∨ y ≤ 0 ∨ N + 1 ≤ y.

(** One round of the [k] loop of [lin_solve]. *)
Definition sweep (N b : Z) (x0 : Float32Array) (a c : number)
    (x : Float32Array) : Float32Array :=
  FluidSolver.set_bnd N b (FluidSolver.relax N x0 a (Num.one / c)%num x).

(** ** Vocabulary of the properties of the canvas *)

(** The interior cells within the disc of radius [radius] around the cell
    [(cx, cy)]: the cells a stroke of the brush reaches. *)
Definition brushed (N cx cy radius kx ky : Z) : Prop :=
  1 ≤ kx ≤ N ∧ 1 ≤ ky ≤ N ∧
  (kx - cx) * (kx - cx) + (ky - cy) * (ky - cy) ≤ radius * radius.

(** The cell under the pointer, clamped into the interior: what
    [Math.max(1, Math.min(Math.floor(v), N))] is for a finite [v]. *)
Definition centre (N : Z) (q : Q) : Z := Z.max 1 (Z.min (Qfloor q) N).

(** A pointer event from which [getPointerPos] computes a finite position:
    finite client coordinates, and a canvas (if any) whose rectangle has a
    finite origin and finite sides that are not zero. *)
Definition measurable (v : number) : Prop :=
  match v with Fin q => ¬ (q == 0)%Q | _ => False end.

Definition on_screen (canvas : option DOMRect.t) (clientX clientY : number)
    : Prop :=
  match canvas with
  | None => True
  | Some rect =>
      finite clientX ∧ finite clientY ∧
      finite (DOMRect.left rect) ∧ finite (DOMRect.top rect) ∧
      measurable (DOMRect.width rect) ∧ measurable (DOMRect.height rect)
  end.

Definition event_ok (e : App.event) : Prop :=
  match e with
  | App.PointerDown canvas clientX clientY
  | App.PointerMove canvas clientX clientY => on_screen canvas clientX clientY
  | _ => True
  end.

(** ** Loop shapes used in the proofs about the brush *)

(** The test [handleMove] applies to the offset [(x, y)] of a brush centred
    on the cell [(cx, cy)]. *)
Definition reach (N cx cy r2 x y : Z) : bool :=
  (x * x + y * y <=? r2) &&
  ((0 <? cx + x) && (cx + x <=? N) && (0 <? cy + y) && (cy + y <=? N)).

(** A sweep over the offsets [lo .. hi] along both axes that rewrites,
    through [f], the cell at each offset that passes the test [g]. *)
Definition stamp (N cx cy lo hi : Z) (g : Z → Z → bool) (f : number → number)
    (a : Float32Array) : Float32Array :=
  for_range lo hi (λ y a,
    for_range lo hi (λ x a,
      if g x y
      then set a (FluidSolver.IX N (cx + x) (cy + y))
             (f (get a (FluidSolver.IX N (cx + x) (cy + y))))
      else a) a) a.

(** A solver with three of its buffers replaced. *)
Definition rebuild (fs : FluidSolver.t) (density Vx Vy : Float32Array)
    : FluidSolver.t :=
  {| FluidSolver.size := FluidSolver.size fs;
     FluidSolver.dt := FluidSolver.dt fs;
     FluidSolver.diff := FluidSolver.diff fs;
     FluidSolver.visc := FluidSolver.visc fs;
     FluidSolver.s := FluidSolver.s fs;
     FluidSolver.density := density;
     FluidSolver.Vx := Vx;
     FluidSolver.Vy := Vy;
     FluidSolver.Vx0 := FluidSolver.Vx0 fs;
     FluidSolver.Vy0 := FluidSolver.Vy0 fs |}.

(** What a tool does to the density of a cell it reaches. *)
Definition tool (mode : ToolMode) (v : number) : number :=
  match mode with
  | SMOKE => (v + Num.of_Z 150)%num
  | ERASER => Num.zero
  | WIND => v
  end.

(** A solver as the application keeps it: buffers of the constructor's
    length, a valid configuration, a density and a work buffer that are
    nowhere negative, finite velocities. *)
Record clean (fs : FluidSolver.t) : Prop := {
  clean_wf : wf fs;
  clean_config :
    valid_config (FluidSolver.size fs) (FluidSolver.diff fs)
      (FluidSolver.visc fs) (FluidSolver.dt fs);
  clean_density : Forall nonneg (FluidSolver.density fs);
  clean_s : Forall nonneg (FluidSolver.s fs);
  clean_Vx : Forall finite (FluidSolver.Vx fs);
  clean_Vy : Forall finite (FluidSolver.Vy fs);
  clean_Vx0 : Forall finite (FluidSolver.Vx0 fs);
  clean_Vy0 : Forall finite (FluidSolver.Vy0 fs)
}.

(** A state of the component with a clean solver and, while a stroke is in
    progress, a finite last position. *)
Definition steady (st : App.t) : Prop :=
  (∃ fs, App.solver st = Some fs ∧ clean fs) ∧
  match App.lastPos st with
  | Some p => finite p.1 ∧ finite p.2
  | None => True
  end.

(** A string made of word characters only. *)
Fixpoint all_word (s : string) : Prop :=
  match s with
  | EmptyString => True
  | String c s' => GeminiService.is_word c = true ∧ all_word s'
  end.

(** ** Scenarios on the canvas *)

(** A canvas of 130 x 130 pixels at the origin of the page: one pixel per
    cell of the padded grid of the default configuration. *)
Definition canvas130 : option DOMRect.t :=
  Some {| DOMRect.left := Num.zero; DOMRect.top := Num.zero;
          DOMRect.width := Num.of_Z 130; DOMRect.height := Num.of_Z 130 |}.

(** A stroke in progress over a fresh 4 x 4 grid, started at (1, 1), with
    the tool [m] and a brush of radius 1. *)
Definition stroke (m : ToolMode) : App.t :=
  {| App.solver := Some (fresh4 (Fin (1 # 10)));
     App.mode := m; App.brushSize := 1; App.isPaused := false;
     App.isDragging := true;
     App.lastPos := Some (Num.one, Num.one);
     App.data := replicate 144 0 |}.

(** * Properties *)

(** ** Loops *)

Lemma for_range_empty {A} lo hi (body : Z → A → A) a :
  hi < lo → for_range lo hi body a = a.
Proof. intros H. unfold for_range. by rewrite seqZ_nil by lia. Qed.

Lemma for_range_first {A} lo hi (body : Z → A → A) a :
  lo ≤ hi → for_range lo hi body a = for_range (lo + 1) hi body (body lo a).
Proof.
  intros H. unfold for_range. rewrite seqZ_cons by lia. simpl.
  do 2 f_equal; lia.
Qed.

Lemma for_range_last {A} lo hi (body : Z → A → A) a :
  lo ≤ hi → for_range lo hi body a = body hi (for_range lo (hi - 1) body a).
Proof.
  intros H. unfold for_range.
  replace (hi - lo + 1) with ((hi - 1 - lo + 1) + 1) by lia.
  rewrite seqZ_app by lia. rewrite foldl_app.
  rewrite (seqZ_cons _ 1) by lia. rewrite (seqZ_nil _ (Z.pred 1)) by lia. simpl.
  f_equal. lia.
Qed.

(** Invariant indexed by the loop counter. *)
Lemma for_range_ind {A} (P : Z → A → Prop) lo hi (body : Z → A → A) a :
  lo ≤ hi + 1 →
  P lo a →
  (∀ i acc, lo ≤ i ≤ hi → P i acc → P (i + 1) (body i acc)) →
  P (hi + 1) (for_range lo hi body a).
Proof.
  intros Hle H0 Hstep.
  assert (∀ n : nat, Z.of_nat n ≤ hi + 1 - lo →
            P (lo + Z.of_nat n) (for_range lo (lo + Z.of_nat n - 1) body a))
    as Hn.
  { induction n as [|n IH]; intros Hb.
    - rewrite for_range_empty by lia. by rewrite Z.add_0_r.
    - rewrite for_range_last by lia.
      replace (lo + Z.of_nat (S n) - 1) with (lo + Z.of_nat n) by lia.
      replace (lo + Z.of_nat (S n)) with (lo + Z.of_nat n + 1) by lia.
      apply Hstep; [lia|]. apply IH. lia. }
  specialize (Hn (Z.to_nat (hi + 1 - lo))).
  rewrite Z2Nat.id in Hn by lia.
  replace (lo + (hi + 1 - lo)) with (hi + 1) in Hn by lia.
  replace (hi + 1 - 1) with hi in Hn by lia.
  apply Hn. lia.
Qed.

(** Invariant that does not mention the loop counter. *)
Lemma for_range_inv {A} (I : A → Prop) lo hi (body : Z → A → A) a :
  I a →
  (∀ i acc, lo ≤ i ≤ hi → I acc → I (body i acc)) →
  I (for_range lo hi body a).
Proof.
  intros H0 Hstep.
  destruct (Z_lt_le_dec hi lo) as [Hlt|Hle].
  - by rewrite for_range_empty.
  - apply (for_range_ind (λ _, I)); [lia|done|done].
Qed.

Lemma for_range_ext {A} lo hi (f g : Z → A → A) a :
  (∀ i acc, lo ≤ i ≤ hi → f i acc = g i acc) →
  for_range lo hi f a = for_range lo hi g a.
Proof.
  intros Hfg.
  destruct (Z_lt_le_dec hi lo) as [Hlt|Hle].
  - by rewrite !for_range_empty.
  - pose proof (for_range_ind (λ i acc, acc = for_range lo (i - 1) g a)
                  lo hi f a) as H. simpl in H.
    replace (hi + 1 - 1) with hi in H by lia. apply H; [lia| |].
    + by rewrite for_range_empty by lia.
    + intros i acc Hi ->. replace (i + 1 - 1) with i by lia.
      rewrite (for_range_last lo i) by lia. by apply Hfg.
Qed.

(** ** Typed arrays *)

Lemma length_set a k v : length (set a k v) = length a.
Proof. unfold set. destruct (k <? 0); [done|]. apply length_insert. Qed.

Lemma get_set_same a k v :
  0 ≤ k < Z.of_nat (length a) → get (set a k v) k = v.
Proof.
  intros [H0 H1]. unfold get, set.
  destruct (Z.ltb_spec k 0) as [?|_]; [lia|].
  rewrite list_lookup_insert_eq by lia. done.
Qed.

Lemma get_set_other a k k' v : k ≠ k' → get (set a k v) k' = get a k'.
Proof.
  intros Hne. unfold get, set.
  destruct (Z.ltb_spec k' 0) as [?|?]; [done|].
  destruct (Z.ltb_spec k 0) as [?|?]; [done|].
  rewrite list_lookup_insert_ne by lia. done.
Qed.

(** Writing back the value a cell already holds changes nothing. *)
Lemma set_same_value a k v :
  (0 ≤ k < Z.of_nat (length a) → get a k = v) → set a k v = a.
Proof.
  intros H. unfold set, get in *.
  destruct (Z.ltb_spec k 0) as [?|?]; [done|].
  destruct (decide (Z.to_nat k < length a)%nat) as [Hlt|Hge].
  - apply list_insert_id.
    destruct (lookup_lt_is_Some_2 a (Z.to_nat k) Hlt) as [w Hw].
    rewrite Hw in H |- *. simpl in H. f_equal. apply H. lia.
  - apply list_insert_ge. lia.
Qed.

Lemma Forall_set (P : number → Prop) a k v :
  Forall P a → P v → Forall P (set a k v).
Proof.
  intros Ha Hv. unfold set. destruct (k <? 0); [done|].
  by apply Forall_insert.
Qed.

Lemma Forall_get (P : number → Prop) a k :
  Forall P a → 0 ≤ k < Z.of_nat (length a) → P (get a k).
Proof.
  intros Ha [H0 H1]. unfold get.
  destruct (Z.ltb_spec k 0) as [?|_]; [lia|].
  destruct (lookup_lt_is_Some_2 a (Z.to_nat k)) as [w Hw]; [lia|].
  rewrite Hw. simpl. by eapply Forall_lookup_1.
Qed.

Lemma length_new_array n : length (new_array n) = Z.to_nat n.
Proof. apply length_replicate. Qed.

Lemma all_zero_fill_zero a : all_zero (fill_zero a).
Proof. apply Forall_replicate. done. Qed.

Lemma all_zero_new_array n : all_zero (new_array n).
Proof. apply Forall_replicate. done. Qed.

(** ** The coordinate map *)

Section Coordinates.
Variable N : Z.
Hypothesis HN : -1 ≤ N.

Lemma clamp_max_min lo hi v :
  lo ≤ hi → Z.max lo (Z.min v hi) = clamp lo hi v.
Proof.
  intros H. unfold clamp.
  destruct (Z.ltb_spec v lo), (Z.ltb_spec hi v); lia.
Qed.

Lemma clamp_range lo hi v : lo ≤ hi → lo ≤ clamp lo hi v ≤ hi.
Proof.
  intros H. unfold clamp.
  destruct (Z.ltb_spec v lo), (Z.ltb_spec hi v); lia.
Qed.

Lemma clamp_id lo hi v : lo ≤ v ≤ hi → clamp lo hi v = v.
Proof.
  intros H. unfold clamp.
  destruct (Z.ltb_spec v lo), (Z.ltb_spec hi v); lia.
Qed.

Lemma IX_clamp x y :
  FluidSolver.IX N x y = clamp 0 (N + 1) x + (N + 2) * clamp 0 (N + 1) y.
Proof. unfold FluidSolver.IX. rewrite !clamp_max_min by lia. done. Qed.

Lemma IX_range x y : 0 ≤ FluidSolver.IX N x y < (N + 2) * (N + 2).
Proof.
  rewrite IX_clamp.
  pose proof (clamp_range 0 (N + 1) x ltac:(lia)).
  pose proof (clamp_range 0 (N + 1) y ltac:(lia)).
  nia.
Qed.

Lemma IX_inside x y :
  0 ≤ x ≤ N + 1 → 0 ≤ y ≤ N + 1 → FluidSolver.IX N x y = x + (N + 2) * y.
Proof. intros Hx Hy. rewrite IX_clamp, !clamp_id by lia. done. Qed.

Lemma IX_inj x y x' y' :
  0 ≤ x ≤ N + 1 → 0 ≤ y ≤ N + 1 → 0 ≤ x' ≤ N + 1 → 0 ≤ y' ≤ N + 1 →
  FluidSolver.IX N x y = FluidSolver.IX N x' y' → x = x' ∧ y = y'.
Proof.
  intros Hx Hy Hx' Hy'. rewrite !IX_inside by lia. intros Heq.
  assert (y = y') by nia. subst. lia.
Qed.

Lemma IX_sized a x y :
  sized N a → 0 ≤ FluidSolver.IX N x y < Z.of_nat (length a).
Proof.
  intros Ha. red in Ha. rewrite Ha.
  pose proof (IX_range x y). rewrite Z2Nat.id by nia. done.
Qed.

End Coordinates.

(** ** Construction *)

Lemma wf_constructor size diffusion viscosity dt :
  wf (FluidSolver.constructor size diffusion viscosity dt).
Proof. split; apply length_new_array. Qed.



(** What the missing validation lets through: a solver built with an
    infinite time step, on which one tick turns the all-zero density into
    NaN (the diffusion coefficient is Infinity * 0). *)
Lemma unvalidated_time_step :
  ∃ fs, new_FluidSolver 4 Num.zero Num.zero PInf = Returned fs ∧
        Forall all_zero (buffers fs) ∧
        get (FluidSolver.density (FluidSolver.step fs 1 Num.zero))
            (FluidSolver.IX 4 2 2) = NaN.
Proof.
  eexists. split; [reflexivity|]. split; [|by vm_compute].
  unfold buffers. simpl. repeat constructor; apply all_zero_new_array.
Qed.

(** ** Reset *)

(** What the "Clear Canvas" action does on every solver: five buffers are
    zero-filled, the work buffer [s] is left as it was. *)
Lemma handleReset_effect fs :
  all_zero (FluidSolver.density (handleReset fs)) ∧
  all_zero (FluidSolver.Vx (handleReset fs)) ∧
  all_zero (FluidSolver.Vy (handleReset fs)) ∧
  all_zero (FluidSolver.Vx0 (handleReset fs)) ∧
  all_zero (FluidSolver.Vy0 (handleReset fs)) ∧
  FluidSolver.s (handleReset fs) = FluidSolver.s fs.
Proof. repeat split; apply all_zero_fill_zero. Qed.

(** C2 at a failing input: on the solver obtained from a fresh 4 x 4 grid by
    addDensity(2, 2, 100) and one step(1, 0), the reset leaves the value 100
    in cell (2, 2) of the work buffer [s]: not every cell of all six buffers
    is zero afterwards. *)
Theorem handleReset_leaves_s :
  get (FluidSolver.s painted) (FluidSolver.IX 4 2 2) = Fin 100 ∧
  get (FluidSolver.s (handleReset painted)) (FluidSolver.IX 4 2 2) = Fin 100 ∧
  ¬ Forall all_zero (buffers (handleReset painted)).
Proof.
  split; [by vm_compute|]. split; [by vm_compute|].
  intros H. unfold buffers in H.
  apply Forall_cons in H as [_ H]. apply Forall_cons in H as [H _].
  assert (get (FluidSolver.s (handleReset painted)) (FluidSolver.IX 4 2 2)
          = Num.zero) as Hz.
  { apply (Forall_get (λ v, v = Num.zero)); [exact H|]. by vm_compute. }
  vm_compute in Hz. discriminate.
Qed.

(** With a non-zero diffusion rate the stale work buffer brings cleared
    smoke back: after a tick, a reset and one more tick (no injection), the
    density of cell (2, 2) is 25/16 again. *)
Lemma smoke_returns_after_reset :
  let cleared := handleReset (FluidSolver.step diffusing 1 Num.zero) in
  all_zero (FluidSolver.density cleared) ∧
  get (FluidSolver.density (FluidSolver.step cleared 1 Num.zero))
      (FluidSolver.IX 4 2 2) = Fin (25 # 16).
Proof. split; [apply all_zero_fill_zero | by vm_compute]. Qed.

(** ** The coordinate map is total and in bounds *)

(** C3: on a grid of resolution N (at least -1, so in particular every
    positive resolution), for all integers x and y, negative and far out of
    range included, [IX] clamps x and y independently into [0, N + 1] and
    returns x + (N + 2) * y of the clamped values, an offset in
    [0, (N + 2)^2 - 1], which is inside each of the six buffers the
    constructor allocated. *)
Theorem IX_total_in_bounds (N x y : Z) (diffusion viscosity dt : number) :
  -1 ≤ N →
  FluidSolver.IX N x y = clamp 0 (N + 1) x + (N + 2) * clamp 0 (N + 1) y ∧
  0 ≤ clamp 0 (N + 1) x ≤ N + 1 ∧
  0 ≤ clamp 0 (N + 1) y ≤ N + 1 ∧
  0 ≤ FluidSolver.IX N x y ≤ (N + 2) * (N + 2) - 1 ∧
  Forall (λ a, FluidSolver.IX N x y < Z.of_nat (length a))
    (buffers (FluidSolver.constructor N diffusion viscosity dt)).
Proof.
  intros HN. split; [by apply IX_clamp|].
  split; [apply clamp_range; lia|]. split; [apply clamp_range; lia|].
  pose proof (IX_range N HN x y) as Hr. split; [lia|].
  unfold buffers. simpl.
  repeat (constructor; [rewrite length_new_array, Z2Nat.id by nia; lia|]).
  constructor.
Qed.

Lemma IX_total_in_bounds_witness :
  FluidSolver.IX 4 (-7) 100 = clamp 0 5 (-7) + 6 * clamp 0 5 100 ∧
  0 ≤ FluidSolver.IX 4 (-7) 100 ≤ 35.
Proof.
  pose proof (IX_total_in_bounds 4 (-7) 100 Num.zero Num.zero Num.zero
                ltac:(lia)) as (H1 & _ & _ & H2 & _).
  split; [exact H1 | exact H2].
Defined.

(** ** Injection *)



(** ** Boundary handler *)

(** A loop that, at each round [i], copies (through [f]) the cell at [r1 i]
    into [w1 i] and the cell at [r2 i] into [w2 i], when no cell is both
    read and written by the loop. *)
Section EdgeLoop.
Variables (lo hi : Z) (w1 r1 w2 r2 : Z → Z) (f : number → number).
Variable x : Float32Array.
Hypothesis w1_in : ∀ i, lo ≤ i ≤ hi → 0 ≤ w1 i < Z.of_nat (length x).
Hypothesis w2_in : ∀ i, lo ≤ i ≤ hi → 0 ≤ w2 i < Z.of_nat (length x).
Hypothesis w1_inj : ∀ i i', lo ≤ i ≤ hi → lo ≤ i' ≤ hi → w1 i = w1 i' → i = i'.
Hypothesis w2_inj : ∀ i i', lo ≤ i ≤ hi → lo ≤ i' ≤ hi → w2 i = w2 i' → i = i'.
Hypothesis w1_w2 : ∀ i i', lo ≤ i ≤ hi → lo ≤ i' ≤ hi → w1 i ≠ w2 i'.
Hypothesis w1_r1 : ∀ i i', lo ≤ i ≤ hi → lo ≤ i' ≤ hi → w1 i ≠ r1 i'.
Hypothesis w1_r2 : ∀ i i', lo ≤ i ≤ hi → lo ≤ i' ≤ hi → w1 i ≠ r2 i'.
Hypothesis w2_r1 : ∀ i i', lo ≤ i ≤ hi → lo ≤ i' ≤ hi → w2 i ≠ r1 i'.
Hypothesis w2_r2 : ∀ i i', lo ≤ i ≤ hi → lo ≤ i' ≤ hi → w2 i ≠ r2 i'.

Lemma edge_loop_inv :
  lo ≤ hi + 1 →
  edge_inv lo w1 r1 w2 r2 f x (hi + 1)
    (for_range lo hi (edge_body w1 r1 w2 r2 f) x).
Proof.
  intros Hle. apply for_range_ind; [done| |].
  - split; [done|]. split; [intros; lia|done].
  - intros i acc Hi (Hlen & Hdone & Hrest). unfold edge_body.
    assert (get acc (r1 i) = get x (r1 i)) as Hr1.
    { apply Hrest. intros i' Hi'. split; apply not_eq_sym; auto with lia. }
    assert (get acc (r2 i) = get x (r2 i)) as Hr2.
    { apply Hrest. intros i' Hi'. split; apply not_eq_sym; auto with lia. }
    split; [by rewrite !length_set|]. split.
    + intros i' Hi'. destruct (decide (i' = i)) as [->|Hne].
      * split.
        -- rewrite get_set_other by (apply not_eq_sym; auto with lia).
           rewrite get_set_same by (rewrite Hlen; auto with lia).
           by rewrite Hr1.
        -- rewrite get_set_same
             by (rewrite length_set, Hlen; auto with lia).
           rewrite get_set_other by auto with lia. by rewrite Hr2.
      * assert (w1 i ≠ w1 i') by (intros ?; apply Hne; symmetry;
                                  apply w1_inj; auto with lia).
        assert (w2 i ≠ w2 i') by (intros ?; apply Hne; symmetry;
                                  apply w2_inj; auto with lia).
        assert (w2 i ≠ w1 i') by (apply not_eq_sym; auto with lia).
        assert (w1 i ≠ w2 i') by auto with lia.
        rewrite !get_set_other by done. apply Hdone. lia.
    + intros k Hk.
      destruct (Hk i ltac:(lia)) as [Hk1 Hk2].
      rewrite !get_set_other by (by apply not_eq_sym).
      apply Hrest. intros i' Hi'. apply Hk. lia.
Qed.

End EdgeLoop.

Lemma set_bnd_stages N b x :
  FluidSolver.set_bnd N b x = bnd_corners N (bnd_cols N b (bnd_rows N b x)).
Proof. reflexivity. Qed.

Ltac ix_neq :=
  let H := fresh in
  intros H; apply IX_inj in H; lia.

Section SetBnd.
Variables N b : Z.
Hypothesis HN : 1 ≤ N.

Lemma bnd_rows_spec x :
  sized N x →
  sized N (bnd_rows N b x) ∧
  (∀ i, 1 ≤ i ≤ N →
     get (bnd_rows N b x) (FluidSolver.IX N i 0)
       = FluidSolver.flip_if b 2 (get x (FluidSolver.IX N i 1)) ∧
     get (bnd_rows N b x) (FluidSolver.IX N i (N + 1))
       = FluidSolver.flip_if b 2 (get x (FluidSolver.IX N i N))) ∧
  (∀ cx cy, 0 ≤ cx ≤ N + 1 → 0 ≤ cy ≤ N + 1 →
     cx = 0 ∨ cx = N + 1 ∨ 1 ≤ cy ≤ N →
     get (bnd_rows N b x) (FluidSolver.IX N cx cy)
       = get x (FluidSolver.IX N cx cy)).
Proof.
  intros Hx. unfold bnd_rows.
  match goal with |- context [for_range 1 N (edge_body ?w1 ?r1 ?w2 ?r2 ?f) x] =>
    assert (edge_inv 1 w1 r1 w2 r2 f x (N + 1)
              (for_range 1 N (edge_body w1 r1 w2 r2 f) x))
      as (Hlen & Hdone & Hrest)
  end.
  { apply edge_loop_inv; intros; try lia;
      try (apply IX_sized; [lia|done]); try ix_neq.
    - apply IX_inj in H1; lia.
    - apply IX_inj in H1; lia. }
  split; [|split].
  - red. rewrite Hlen. exact Hx.
  - intros i Hi. apply Hdone. lia.
  - intros cx cy Hcx Hcy Hc. apply Hrest. intros i Hi. split; ix_neq.
Qed.

Lemma bnd_cols_spec x :
  sized N x →
  sized N (bnd_cols N b x) ∧
  (∀ j, 1 ≤ j ≤ N →
     get (bnd_cols N b x) (FluidSolver.IX N 0 j)
       = FluidSolver.flip_if b 1 (get x (FluidSolver.IX N 1 j)) ∧
     get (bnd_cols N b x) (FluidSolver.IX N (N + 1) j)
       = FluidSolver.flip_if b 1 (get x (FluidSolver.IX N N j))) ∧
  (∀ cx cy, 0 ≤ cx ≤ N + 1 → 0 ≤ cy ≤ N + 1 →
     cy = 0 ∨ cy = N + 1 ∨ 1 ≤ cx ≤ N →
     get (bnd_cols N b x) (FluidSolver.IX N cx cy)
       = get x (FluidSolver.IX N cx cy)).
Proof.
  intros Hx. unfold bnd_cols.
  match goal with |- context [for_range 1 N (edge_body ?w1 ?r1 ?w2 ?r2 ?f) x] =>
    assert (edge_inv 1 w1 r1 w2 r2 f x (N + 1)
              (for_range 1 N (edge_body w1 r1 w2 r2 f) x))
      as (Hlen & Hdone & Hrest)
  end.
  { apply edge_loop_inv; intros; try lia;
      try (apply IX_sized; [lia|done]); try ix_neq.
    - apply IX_inj in H1; lia.
    - apply IX_inj in H1; lia. }
  split; [|split].
  - red. rewrite Hlen. exact Hx.
  - intros i Hi. apply Hdone. lia.
  - intros cx cy Hcx Hcy Hc. apply Hrest. intros i Hi. split; ix_neq.
Qed.

Lemma get_bnd_corner x cx cy ax ay bx by_ kx ky :
  sized N x →
  0 ≤ cx ≤ N + 1 → 0 ≤ cy ≤ N + 1 → 0 ≤ kx ≤ N + 1 → 0 ≤ ky ≤ N + 1 →
  get (bnd_corner N cx cy ax ay bx by_ x) (FluidSolver.IX N kx ky) =
    if decide (kx = cx ∧ ky = cy)
    then (Num.half * (get x (FluidSolver.IX N ax ay) +
                      get x (FluidSolver.IX N bx by_)))%num
    else get x (FluidSolver.IX N kx ky).
Proof.
  intros Hx Hcx Hcy Hkx Hky. unfold bnd_corner.
  destruct (decide (kx = cx ∧ ky = cy)) as [[-> ->]|Hne].
  - apply get_set_same. apply IX_sized; [lia|done].
  - apply get_set_other. intros H. apply IX_inj in H; lia.
Qed.

Lemma sized_bnd_corner x cx cy ax ay bx by_ :
  sized N x → sized N (bnd_corner N cx cy ax ay bx by_ x).
Proof. unfold sized, bnd_corner. by rewrite length_set. Qed.

Lemma bnd_corners_spec x :
  sized N x →
  sized N (bnd_corners N x) ∧
  (∀ cx cy, 0 ≤ cx ≤ N + 1 → 0 ≤ cy ≤ N + 1 → ¬ is_corner N cx cy →
     get (bnd_corners N x) (FluidSolver.IX N cx cy)
       = get x (FluidSolver.IX N cx cy)) ∧
  get (bnd_corners N x) (FluidSolver.IX N 0 0)
    = (Num.half * (get x (FluidSolver.IX N 1 0) +
                   get x (FluidSolver.IX N 0 1)))%num ∧
  get (bnd_corners N x) (FluidSolver.IX N 0 (N + 1))
    = (Num.half * (get x (FluidSolver.IX N 1 (N + 1)) +
                   get x (FluidSolver.IX N 0 N)))%num ∧
  get (bnd_corners N x) (FluidSolver.IX N (N + 1) 0)
    = (Num.half * (get x (FluidSolver.IX N N 0) +
                   get x (FluidSolver.IX N (N + 1) 1)))%num ∧
  get (bnd_corners N x) (FluidSolver.IX N (N + 1) (N + 1))
    = (Num.half * (get x (FluidSolver.IX N N (N + 1)) +
                   get x (FluidSolver.IX N (N + 1) N)))%num.
Proof.
  intros Hx. unfold bnd_corners.
  split; [by repeat apply sized_bnd_corner|].
  split; [|repeat split].
  - intros cx cy Hcx Hcy Hc. unfold is_corner in Hc.
    rewrite !get_bnd_corner by (repeat apply sized_bnd_corner; done || lia).
    repeat (case_decide; [lia|]). done.
  - rewrite !get_bnd_corner by (repeat apply sized_bnd_corner; done || lia).
    repeat (case_decide; try lia). done.
  - rewrite !get_bnd_corner by (repeat apply sized_bnd_corner; done || lia).
    repeat (case_decide; try lia). done.
  - rewrite !get_bnd_corner by (repeat apply sized_bnd_corner; done || lia).
    repeat (case_decide; try lia). done.
  - rewrite !get_bnd_corner by (repeat apply sized_bnd_corner; done || lia).
    repeat (case_decide; try lia). done.
Qed.

(** The value of every cell after [set_bnd], in terms of the array before. *)
Lemma set_bnd_cells x :
  sized N x →
  let x' := FluidSolver.set_bnd N b x in
  (∀ i j, 1 ≤ i ≤ N → 1 ≤ j ≤ N →
     get x' (FluidSolver.IX N i j) = get x (FluidSolver.IX N i j)) ∧
  (∀ i, 1 ≤ i ≤ N →
     get x' (FluidSolver.IX N i 0)
       = FluidSolver.flip_if b 2 (get x (FluidSolver.IX N i 1)) ∧
     get x' (FluidSolver.IX N i (N + 1))
       = FluidSolver.flip_if b 2 (get x (FluidSolver.IX N i N))) ∧
  (∀ j, 1 ≤ j ≤ N →
     get x' (FluidSolver.IX N 0 j)
       = FluidSolver.flip_if b 1 (get x (FluidSolver.IX N 1 j)) ∧
     get x' (FluidSolver.IX N (N + 1) j)
       = FluidSolver.flip_if b 1 (get x (FluidSolver.IX N N j))) ∧
  get x' (FluidSolver.IX N 0 0)
    = (Num.half * (get x' (FluidSolver.IX N 1 0) +
                   get x' (FluidSolver.IX N 0 1)))%num ∧
  get x' (FluidSolver.IX N 0 (N + 1))
    = (Num.half * (get x' (FluidSolver.IX N 1 (N + 1)) +
                   get x' (FluidSolver.IX N 0 N)))%num ∧
  get x' (FluidSolver.IX N (N + 1) 0)
    = (Num.half * (get x' (FluidSolver.IX N N 0) +
                   get x' (FluidSolver.IX N (N + 1) 1)))%num ∧
  get x' (FluidSolver.IX N (N + 1) (N + 1))
    = (Num.half * (get x' (FluidSolver.IX N N (N + 1)) +
                   get x' (FluidSolver.IX N (N + 1) N)))%num.
Proof.
  intros Hx x'. subst x'. rewrite set_bnd_stages.
  destruct (bnd_rows_spec x Hx) as (Hx1 & Hrow & Hrow').
  destruct (bnd_cols_spec _ Hx1) as (Hx2 & Hcol & Hcol').
  destruct (bnd_corners_spec _ Hx2) as (Hx3 & Hrest & H00 & H0N & HN0 & HNN).
  split; [|split; [|split; [|repeat split]]].
  - intros i j Hi Hj.
    rewrite Hrest, Hcol', Hrow' by (unfold is_corner; lia). done.
  - intros i Hi.
    rewrite !Hrest, !Hcol' by (unfold is_corner; lia). by apply Hrow.
  - intros j Hj.
    rewrite !Hrest by (unfold is_corner; lia).
    destruct (Hcol j Hj) as [-> ->].
    rewrite !Hrow' by lia. done.
  - rewrite H00, !Hrest by (unfold is_corner; lia). done.
  - rewrite H0N, !Hrest by (unfold is_corner; lia). done.
  - rewrite HN0, !Hrest by (unfold is_corner; lia). done.
  - rewrite HNN, !Hrest by (unfold is_corner; lia). done.
Qed.

End SetBnd.

(** C6: after the boundary handler, on a grid with at least one interior
    cell per axis: for the velocity-x kind (b = 1) the left and right
    boundary columns are the negation of the adjacent interior columns; for
    the velocity-y kind (b = 2) the top and bottom boundary rows are the
    negation of the adjacent interior rows; for the scalar kind (b = 0) every
    edge cell equals its interior neighbour; whatever the kind, each corner
    is 0.5 times the sum of its two adjacent edge cells, and the interior is
    left as it was. *)
Theorem set_bnd_policy (N b : Z) (x : Float32Array) :
  1 ≤ N →
  sized N x →
  let x' := FluidSolver.set_bnd N b x in
  let at_ cx cy := get x' (FluidSolver.IX N cx cy) in
  (b = 1 → ∀ j, 1 ≤ j ≤ N →
     at_ 0 j = (- at_ 1 j)%num ∧ at_ (N + 1) j = (- at_ N j)%num) ∧
  (b = 2 → ∀ i, 1 ≤ i ≤ N →
     at_ i 0 = (- at_ i 1)%num ∧ at_ i (N + 1) = (- at_ i N)%num) ∧
  (b = 0 → ∀ c, 1 ≤ c ≤ N →
     at_ 0 c = at_ 1 c ∧ at_ (N + 1) c = at_ N c ∧
     at_ c 0 = at_ c 1 ∧ at_ c (N + 1) = at_ c N) ∧
  at_ 0 0 = (Num.half * (at_ 1 0 + at_ 0 1))%num ∧
  at_ 0 (N + 1) = (Num.half * (at_ 1 (N + 1)%Z + at_ 0 N))%num ∧
  at_ (N + 1) 0 = (Num.half * (at_ N 0 + at_ (N + 1)%Z 1))%num ∧
  at_ (N + 1) (N + 1) =
    (Num.half * (at_ N (N + 1)%Z + at_ (N + 1)%Z N))%num ∧
  (∀ i j, 1 ≤ i ≤ N → 1 ≤ j ≤ N →
     at_ i j = get x (FluidSolver.IX N i j)).
Proof.
  intros HN Hx x' at_. subst at_ x'.
  destruct (set_bnd_cells N b HN x Hx)
    as (Hint & Hrow & Hcol & H00 & H0N & HN0 & HNN).
  split; [|split; [|split; [|repeat split]]]; try done.
  - intros -> j Hj. destruct (Hcol j Hj) as [-> ->].
    rewrite !Hint by lia. done.
  - intros -> i Hi. destruct (Hrow i Hi) as [-> ->].
    rewrite !Hint by lia. done.
  - intros -> c Hc. destruct (Hcol c Hc) as [-> ->].
    destruct (Hrow c Hc) as [-> ->]. rewrite !Hint by lia. done.
Qed.

Lemma set_bnd_policy_witness :
  get (FluidSolver.set_bnd 2 1 sample4x4) (FluidSolver.IX 2 0 1)
    = (- get (FluidSolver.set_bnd 2 1 sample4x4) (FluidSolver.IX 2 1 1))%num ∧
  get (FluidSolver.set_bnd 2 1 sample4x4) (FluidSolver.IX 2 0 0)
    = (Num.half * (get (FluidSolver.set_bnd 2 1 sample4x4)
                       (FluidSolver.IX 2 1 0) +
                   get (FluidSolver.set_bnd 2 1 sample4x4)
                       (FluidSolver.IX 2 0 1)))%num.
Proof.
  pose proof (set_bnd_policy 2 1 sample4x4 ltac:(lia) eq_refl)
    as (H1 & _ & _ & H00 & _).
  split; [apply (H1 eq_refl 1); lia | exact H00].
Defined.

(** ** Arithmetic of [number] *)

Lemma fin_eq (p q : Q) : (p == q)%Q → Num.fin p = Num.fin q.
Proof. intros H. unfold Num.fin. f_equal. by apply Qred_complete. Qed.

Lemma fin_zero (q : Q) : (q == 0)%Q → Num.fin q = Num.zero.
Proof. intros H. by rewrite (fin_eq q 0). Qed.

Lemma fin_of_Z (z : Z) : Num.fin (inject_Z z) = Num.of_Z z.
Proof.
  unfold Num.fin, Num.of_Z. f_equal. apply Qred_identity. simpl.
  apply Z.gcd_1_r.
Qed.

Lemma finite_Fin x : finite x ↔ ∃ q, x = Fin q.
Proof.
  split.
  - destruct x; simpl; try tauto. eauto.
  - intros [q ->]. exact I.
Qed.

Lemma nonneg_finite x : nonneg x → finite x.
Proof. by destruct x. Qed.

Lemma within_nonneg M x : within M x → nonneg x.
Proof. destruct x; simpl; tauto. Qed.

Lemma finite_add x y : finite x → finite y → finite (x + y).
Proof. by destruct x, y. Qed.

Lemma finite_sub x y : finite x → finite y → finite (x - y).
Proof. by destruct x, y. Qed.

Lemma finite_mul x y : finite x → finite y → finite (x * y).
Proof. by destruct x, y. Qed.

Lemma finite_neg x : finite x → finite (- x).
Proof. by destruct x. Qed.

Lemma finite_div_of_Z x z : finite x → z ≠ 0 → finite (x / Num.of_Z z).
Proof.
  destruct x as [a| | |]; try done. intros _ Hz. simpl.
  destruct (Qeq_bool (inject_Z z) 0) eqn:E; [|done].
  apply Qeq_bool_iff in E. unfold Qeq in E. simpl in E. lia.
Qed.

Lemma finite_flip_if b k x : finite x → finite (FluidSolver.flip_if b k x).
Proof.
  intros H. unfold FluidSolver.flip_if. destruct (b =? k); [|done].
  by apply finite_neg.
Qed.

Lemma mul_zero_r x : finite x → (x * Num.zero)%num = Num.zero.
Proof.
  destruct x as [a| | |]; try done. intros _. simpl.
  apply fin_zero. ring.
Qed.

Lemma mul_zero_l x : finite x → (Num.zero * x)%num = Num.zero.
Proof. by destruct x. Qed.

Lemma div_zero_of_Z z : z ≠ 0 → (Num.zero / Num.of_Z z)%num = Num.zero.
Proof.
  intros Hz. simpl.
  destruct (Qeq_bool (inject_Z z) 0) eqn:E.
  - apply Qeq_bool_iff in E. unfold Qeq in E. simpl in E. lia.
  - apply fin_zero. unfold Qdiv. ring.
Qed.

Lemma sub_zero_r_of_Z z : (Num.of_Z z - Num.zero)%num = Num.of_Z z.
Proof.
  simpl. rewrite <- fin_of_Z. apply fin_eq. ring.
Qed.

Lemma sub_of_Z_diag z : (Num.of_Z z - Num.of_Z z)%num = Num.zero.
Proof. simpl. apply fin_zero. ring. Qed.

Lemma flip_if_zero b k : FluidSolver.flip_if b k Num.zero = Num.zero.
Proof. unfold FluidSolver.flip_if. by destruct (b =? k). Qed.

Lemma ltb_Fin (a b : Q) : Num.ltb (Fin a) (Fin b) = true ↔ (a < b)%Q.
Proof.
  simpl. rewrite Qlt_alt. destruct (a ?= b)%Q; split; congruence.
Qed.

Lemma ltb_Fin_false (a b : Q) : (b <= a)%Q → Num.ltb (Fin a) (Fin b) = false.
Proof.
  intros H. destruct (Num.ltb (Fin a) (Fin b)) eqn:E; [|done].
  apply ltb_Fin in E. lra.
Qed.

Lemma ltb_Fin_true (a b : Q) : (a < b)%Q → Num.ltb (Fin a) (Fin b) = true.
Proof. apply ltb_Fin. Qed.

Lemma inject_Z_le (a b : Z) : a ≤ b → (inject_Z a <= inject_Z b)%Q.
Proof. intros H. by rewrite <- Zle_Qle. Qed.

(** ** The fluid at rest *)

Section AtRest.
Variable N : Z.
Hypothesis HN : -1 ≤ N.

Lemma get_zero a x y :
  all_zero a → sized N a → get a (FluidSolver.IX N x y) = Num.zero.
Proof.
  intros Ha Hs. apply (Forall_get (λ v, v = Num.zero)); [done|].
  by apply IX_sized.
Qed.

Lemma set_zero a k : all_zero a → set a k Num.zero = a.
Proof.
  intros Ha. apply set_same_value. intros Hk.
  by apply (Forall_get (λ v, v = Num.zero)).
Qed.

Lemma set_bnd_zero b x :
  all_zero x → sized N x → FluidSolver.set_bnd N b x = x.
Proof.
  intros Hz Hs. rewrite set_bnd_stages.
  assert (bnd_rows N b x = x) as ->.
  { apply (for_range_inv (λ acc, acc = x)); [done|].
    intros i acc _ ->. unfold edge_body.
    rewrite get_zero, flip_if_zero, set_zero by done.
    by rewrite get_zero, flip_if_zero, set_zero. }
  assert (bnd_cols N b x = x) as ->.
  { apply (for_range_inv (λ acc, acc = x)); [done|].
    intros i acc _ ->. unfold edge_body.
    rewrite get_zero, flip_if_zero, set_zero by done.
    by rewrite get_zero, flip_if_zero, set_zero. }
  unfold bnd_corners, bnd_corner.
  repeat (rewrite !get_zero by done;
          change (Num.half * (Num.zero + Num.zero))%num with Num.zero;
          rewrite set_zero by done).
  done.
Qed.

Lemma relax_zero x x0 a cRecip :
  all_zero x → sized N x → all_zero x0 → sized N x0 →
  finite a → finite cRecip →
  FluidSolver.relax N x0 a cRecip x = x.
Proof.
  intros Hx Hsx Hx0 Hsx0 Ha Hc. unfold FluidSolver.relax.
  apply (for_range_inv (λ acc, acc = x)); [done|].
  intros j acc _ ->.
  apply (for_range_inv (λ acc, acc = x)); [done|].
  intros i acc _ ->.
  rewrite !get_zero by done.
  change (Num.zero + Num.zero)%num with Num.zero.
  rewrite mul_zero_r by done.
  change (Num.zero + Num.zero)%num with Num.zero.
  rewrite mul_zero_l by done. by apply set_zero.
Qed.

Lemma lin_solve_zero b x x0 a c iter :
  all_zero x → sized N x → all_zero x0 → sized N x0 →
  finite a → finite (Num.one / c)%num →
  FluidSolver.lin_solve N b x x0 a c iter = x.
Proof.
  intros Hx Hsx Hx0 Hsx0 Ha Hc. unfold FluidSolver.lin_solve.
  apply (for_range_inv (λ acc, acc = x)); [done|].
  intros k acc _ ->. rewrite relax_zero by done. by apply set_bnd_zero.
Qed.

Lemma diffuse_zero b x x0 k dt iter :
  all_zero x → sized N x → all_zero x0 → sized N x0 →
  relaxable N dt k →
  FluidSolver.diffuse N b x x0 k dt iter = x.
Proof.
  intros Hx Hsx Hx0 Hsx0 [Ha Hc]. unfold FluidSolver.diffuse.
  by apply lin_solve_zero.
Qed.

Lemma project_zero velocX velocY p div iter :
  all_zero velocX → sized N velocX → all_zero velocY → sized N velocY →
  all_zero p → sized N p → all_zero div → sized N div →
  FluidSolver.project N velocX velocY p div iter = (velocX, velocY, p, div).
Proof.
  intros Hvx Hsvx Hvy Hsvy Hp Hsp Hd Hsd. unfold FluidSolver.project.
  match goal with |- context [for_range 1 N ?body (div, p)] =>
    assert (for_range 1 N body (div, p) = (div, p)) as ->
  end.
  { apply (for_range_inv (λ st, st = (div, p))); [done|].
    intros j st Hj ->.
    apply (for_range_inv (λ st, st = (div, p))); [done|].
    intros i st Hi ->.
    rewrite !get_zero by done.
    change (Fin (-1 # 2) * (Num.zero - Num.zero + Num.zero - Num.zero))%num
      with Num.zero.
    rewrite div_zero_of_Z by lia. by rewrite !set_zero. }
  rewrite !set_bnd_zero by done.
  rewrite lin_solve_zero by done.
  match goal with |- context [for_range 1 N ?body (velocX, velocY)] =>
    assert (for_range 1 N body (velocX, velocY) = (velocX, velocY)) as ->
  end.
  { apply (for_range_inv (λ st, st = (velocX, velocY))); [done|].
    intros j st Hj ->.
    apply (for_range_inv (λ st, st = (velocX, velocY))); [done|].
    intros i st Hi ->.
    rewrite !get_zero by done.
    change (Num.zero - Num.zero)%num with Num.zero.
    rewrite mul_zero_r by done.
    change (Num.zero - Num.zero)%num with Num.zero.
    by rewrite !set_zero. }
  by rewrite !set_bnd_zero.
Qed.

Lemma clamp_pos_of_Z i : 1 ≤ i ≤ N → FluidSolver.clamp_pos N (Num.of_Z i) = Num.of_Z i.
Proof.
  intros Hi. unfold FluidSolver.clamp_pos, Num.of_Z, Num.half.
  rewrite ltb_Fin_false.
  2:{ pose proof (inject_Z_le 1 i ltac:(lia)) as H.
      change (inject_Z 1) with 1%Q in H. lra. }
  simpl Num.add. unfold Num.fin. rewrite ltb_Fin_false; [done|].
  rewrite Qred_correct.
  pose proof (inject_Z_le i N ltac:(lia)). lra.
Qed.

(** Where the velocity is zero, backtracing lands on the cell itself. *)
Lemma advect_cell_at_rest d0 velocX velocY dt0 i j :
  1 ≤ i ≤ N → 1 ≤ j ≤ N → finite dt0 →
  get velocX (FluidSolver.IX N i j) = Num.zero →
  get velocY (FluidSolver.IX N i j) = Num.zero →
  FluidSolver.advect_cell N d0 velocX velocY dt0 i j =
    (Num.one * (Num.one * get d0 (FluidSolver.IX N i j) +
                Num.zero * get d0 (FluidSolver.IX N i (j + 1))) +
     Num.zero * (Num.one * get d0 (FluidSolver.IX N (i + 1) j) +
                 Num.zero * get d0 (FluidSolver.IX N (i + 1) (j + 1))))%num.
Proof.
  intros Hi Hj Hdt Hvx Hvy. unfold FluidSolver.advect_cell.
  rewrite Hvx, Hvy, mul_zero_r, !sub_zero_r_of_Z, !clamp_pos_of_Z by done.
  unfold Num.floor, Num.of_Z at 1 2. rewrite !Qfloor_Z.
  rewrite !sub_of_Z_diag.
  change (Num.one - Num.zero)%num with Num.one. done.
Qed.

Lemma advect_zero b d d0 velocX velocY dt :
  all_zero d → sized N d → all_zero d0 → sized N d0 →
  all_zero velocX → sized N velocX → all_zero velocY → sized N velocY →
  finite dt →
  FluidSolver.advect N b d d0 velocX velocY dt = d.
Proof.
  intros Hd Hsd Hd0 Hsd0 Hvx Hsvx Hvy Hsvy Hdt. unfold FluidSolver.advect.
  match goal with |- FluidSolver.set_bnd N b ?l = d =>
    assert (l = d) as ->
  end; [|by apply set_bnd_zero].
  apply (for_range_inv (λ acc, acc = d)); [done|].
  intros j acc Hj ->.
  apply (for_range_inv (λ acc, acc = d)); [done|].
  intros i acc Hi ->.
  rewrite advect_cell_at_rest; try done.
  - rewrite !get_zero by done. by apply set_zero.
  - by apply finite_mul.
  - by apply get_zero.
  - by apply get_zero.
Qed.

End AtRest.

Lemma coefficient_nonneg N dt k :
  nonneg dt → nonneg k → nonneg (coefficient N dt k).
Proof.
  destruct dt as [a| | |], k as [c| | |]; try done. simpl.
  intros Ha Hc. rewrite !Qred_correct.
  set (m := inject_Z (N - 2)).
  assert (0 <= m * m)%Q by nra.
  assert (0 <= a * c)%Q by nra.
  nra.
Qed.

Lemma nonneg_relaxable N dt k : nonneg dt → nonneg k → relaxable N dt k.
Proof.
  intros Hdt Hk. pose proof (coefficient_nonneg N dt k Hdt Hk) as Ha.
  unfold relaxable. destruct (coefficient N dt k) as [a| | |]; try done.
  split; [done|]. simpl in *.
  destruct (Qeq_bool _ 0) eqn:E; [|done].
  apply Qeq_bool_iff in E. rewrite !Qred_correct in E.
  change (inject_Z 6) with 6%Q in E. lra.
Qed.

Lemma step_at_rest fs iter :
  wf fs → -1 ≤ FluidSolver.size fs →
  finite (FluidSolver.dt fs) →
  relaxable (FluidSolver.size fs) (FluidSolver.dt fs) (FluidSolver.visc fs) →
  relaxable (FluidSolver.size fs) (FluidSolver.dt fs) (FluidSolver.diff fs) →
  Forall all_zero (buffers fs) →
  FluidSolver.step fs iter Num.zero = fs.
Proof.
  intros [] HN Hdt Hvisc Hdiff Hz.
  destruct fs as [N dt diff visc s density Vx Vy Vx0 Vy0]. simpl in *.
  unfold buffers in Hz. simpl in Hz.
  repeat match goal with
         | H : Forall _ (_ :: _) |- _ => apply Forall_cons in H as [? H]
         end.
  unfold FluidSolver.step. simpl.
  rewrite !(diffuse_zero N HN) by done.
  rewrite (project_zero N HN) by done.
  rewrite !(advect_zero N HN) by done.
  rewrite (project_zero N HN) by done.
  rewrite !(advect_zero N HN) by done.
  done.
Qed.

Lemma valid_config_relaxable size diffusion viscosity dt :
  valid_config size diffusion viscosity dt →
  finite dt ∧ relaxable size dt viscosity ∧ relaxable size dt diffusion.
Proof.
  intros (_ & Hdiff & Hvisc & Hdt). split; [by apply nonneg_finite|].
  split; by apply nonneg_relaxable.
Qed.



(** ** A tick over a fluid whose velocity is zero *)

Lemma advect_at_rest_dt N b d d0 velocX velocY dt :
  -1 ≤ N →
  all_zero velocX → sized N velocX → all_zero velocY → sized N velocY →
  finite dt →
  FluidSolver.advect N b d d0 velocX velocY dt
    = FluidSolver.advect N b d d0 velocX velocY Num.zero.
Proof.
  intros HN Hvx Hsvx Hvy Hsvy Hdt. unfold FluidSolver.advect. f_equal.
  apply for_range_ext. intros j acc Hj.
  apply for_range_ext. intros i acc' Hi.
  rewrite !(advect_cell_at_rest N); try done;
    try (by apply (get_zero N HN)).
  by apply finite_mul.
Qed.

Lemma step_still fs iter fadeRate :
  wf fs → -1 ≤ FluidSolver.size fs →
  finite (FluidSolver.dt fs) →
  relaxable (FluidSolver.size fs) (FluidSolver.dt fs) (FluidSolver.visc fs) →
  all_zero (FluidSolver.Vx fs) → all_zero (FluidSolver.Vy fs) →
  all_zero (FluidSolver.Vx0 fs) → all_zero (FluidSolver.Vy0 fs) →
  let N := FluidSolver.size fs in
  let s' :=
    FluidSolver.diffuse N 0 (FluidSolver.s fs) (FluidSolver.density fs)
      (FluidSolver.diff fs) (FluidSolver.dt fs) iter in
  FluidSolver.step fs iter fadeRate =
    {| FluidSolver.size := N;
       FluidSolver.dt := FluidSolver.dt fs;
       FluidSolver.diff := FluidSolver.diff fs;
       FluidSolver.visc := FluidSolver.visc fs;
       FluidSolver.s := s';
       FluidSolver.density :=
         FluidSolver.fade fadeRate
           (FluidSolver.advect N 0 (FluidSolver.density fs) s'
              (FluidSolver.Vx fs) (FluidSolver.Vy fs) Num.zero);
       FluidSolver.Vx := FluidSolver.Vx fs;
       FluidSolver.Vy := FluidSolver.Vy fs;
       FluidSolver.Vx0 := FluidSolver.Vx0 fs;
       FluidSolver.Vy0 := FluidSolver.Vy0 fs |}.
Proof.
  intros [] HN Hdt Hvisc Hx Hy Hx0 Hy0.
  destruct fs as [N dt diff visc s density Vx Vy Vx0 Vy0]. simpl in *.
  unfold FluidSolver.step. simpl.
  rewrite !(diffuse_zero N HN) by done.
  rewrite (project_zero N HN) by done.
  rewrite !(advect_zero N HN) by done.
  rewrite (project_zero N HN) by done.
  rewrite (advect_at_rest_dt N 0) by done.
  done.
Qed.

Lemma wf_scenario_start dt :
  wf (FluidSolver.addDensity (fresh4 dt) 2 2 (Fin 100)).
Proof.
  split; simpl; try apply length_new_array.
  unfold sized. rewrite length_set. apply length_new_array.
Qed.

(** With no diffusion, no viscosity and no velocity, the time step has no
    influence on the tick of the scenario. *)
Lemma scenario_density_any_dt (q : Q) :
  FluidSolver.density (scenario (Fin q))
    = FluidSolver.density (scenario Num.zero).
Proof.
  assert ((Fin q * Num.zero * Num.of_Z (4 - 2) * Num.of_Z (4 - 2))%num
          = Num.zero) as Hc.
  { by rewrite mul_zero_r. }
  unfold scenario.
  rewrite (step_still (FluidSolver.addDensity (fresh4 (Fin q)) 2 2 (Fin 100))).
  2: apply wf_scenario_start.
  2: simpl; lia.
  2: exact I.
  2: { unfold relaxable, coefficient.
       cbn [FluidSolver.dt FluidSolver.visc FluidSolver.size
            FluidSolver.addDensity fresh4 FluidSolver.constructor].
       rewrite Hc. split; by vm_compute. }
  2-5: apply all_zero_new_array.
  cbn [FluidSolver.dt FluidSolver.visc FluidSolver.size FluidSolver.diff
       FluidSolver.density FluidSolver.s FluidSolver.Vx FluidSolver.Vy
       FluidSolver.addDensity fresh4 FluidSolver.constructor].
  unfold FluidSolver.diffuse. rewrite Hc.
  by vm_compute.
Qed.

(** C5: the concrete scenario.  On a solver with N = 4, diffusion 0,
    viscosity 0, any finite time step and all buffers zero, after
    addDensity(2, 2, 100) and one step with 1 iteration and fade rate 0:
    the density at (2, 2) is exactly 100, every other interior density
    cell is exactly 0, every edge cell of the density equals its interior
    neighbour and every corner is 0.5 times the sum of its two adjacent
    edge cells (the scalar boundary policy). *)
Theorem concrete_scenario (q : Q) :
  let d := FluidSolver.density (scenario (Fin q)) in
  let at_ cx cy := get d (FluidSolver.IX 4 cx cy) in
  at_ 2 2 = Fin 100 ∧
  Forall (λ '(i, j), (i, j) ≠ (2, 2) → at_ i j = Fin 0) (interior 4) ∧
  Forall (λ c, at_ 0 c = at_ 1 c ∧ at_ 5 c = at_ 4 c ∧
               at_ c 0 = at_ c 1 ∧ at_ c 5 = at_ c 4) (seqZ 1 4) ∧
  at_ 0 0 = (Num.half * (at_ 1 0 + at_ 0 1))%num ∧
  at_ 0 5 = (Num.half * (at_ 1 5 + at_ 0 4))%num ∧
  at_ 5 0 = (Num.half * (at_ 4 0 + at_ 5 1))%num ∧
  at_ 5 5 = (Num.half * (at_ 4 5 + at_ 5 4))%num.
Proof.
  intros d at_. subst at_ d. rewrite scenario_density_any_dt.
  split; [by vm_compute|]. split; [|split].
  - let l := eval vm_compute in (interior 4) in change (interior 4) with l.
    repeat (apply Forall_cons; split;
            [intros Hne; try (by vm_compute); by destruct Hne|]).
    constructor.
  - let l := eval vm_compute in (seqZ 1 4) in change (seqZ 1 4) with l.
    repeat (apply Forall_cons; split;
            [split; [|split; [|split]]; by vm_compute|]).
    constructor.
  - split; [|split; [|split]]; by vm_compute.
Qed.

(** ** No stage changes the length of a buffer *)

Lemma length_for_range lo hi (body : Z → Float32Array → Float32Array) a :
  (∀ i acc, length (body i acc) = length acc) →
  length (for_range lo hi body a) = length a.
Proof.
  intros H. apply (for_range_inv (λ acc, length acc = length a)); [done|].
  intros i acc _ Hacc. by rewrite H.
Qed.

Lemma length_set_bnd N b x : length (FluidSolver.set_bnd N b x) = length x.
Proof.
  unfold FluidSolver.set_bnd. rewrite !length_set.
  rewrite !length_for_range; [done|intros; by rewrite !length_set..].
Qed.

Lemma length_relax N x0 a cRecip x :
  length (FluidSolver.relax N x0 a cRecip x) = length x.
Proof.
  unfold FluidSolver.relax. apply length_for_range. intros j acc.
  apply length_for_range. intros i acc'. apply length_set.
Qed.

Lemma length_lin_solve N b x x0 a c iter :
  length (FluidSolver.lin_solve N b x x0 a c iter) = length x.
Proof.
  unfold FluidSolver.lin_solve. apply length_for_range. intros k acc.
  by rewrite length_set_bnd, length_relax.
Qed.

Lemma length_diffuse N b x x0 k dt iter :
  length (FluidSolver.diffuse N b x x0 k dt iter) = length x.
Proof. apply length_lin_solve. Qed.

Lemma length_advect N b d d0 velocX velocY dt :
  length (FluidSolver.advect N b d d0 velocX velocY dt) = length d.
Proof.
  unfold FluidSolver.advect. rewrite length_set_bnd.
  apply length_for_range. intros j acc.
  apply length_for_range. intros i acc'. apply length_set.
Qed.

Lemma length_fade r d : length (FluidSolver.fade r d) = length d.
Proof.
  unfold FluidSolver.fade. destruct (Num.ltb Num.zero r); [|done].
  apply (for_range_inv (λ acc, length acc = length d)); [done|].
  intros i acc _ Hacc. by rewrite length_set.
Qed.

(** ** Predicates that every write preserves *)

Section Closure.
Variable N : Z.
Hypothesis HN : -1 ≤ N.

Lemma Forall_get_IX (P : number → Prop) a x y :
  Forall P a → sized N a → P (get a (FluidSolver.IX N x y)).
Proof. intros Ha Hs. apply Forall_get; [done|]. by apply IX_sized. Qed.

Lemma set_bnd_Forall (P : number → Prop) b x :
  (∀ v, P v → P (FluidSolver.flip_if b 1 v)) →
  (∀ v, P v → P (FluidSolver.flip_if b 2 v)) →
  (∀ u v, P u → P v → P (Num.half * (u + v))%num) →
  sized N x → Forall P x → Forall P (FluidSolver.set_bnd N b x).
Proof.
  intros H1 H2 Hc Hs Hx. rewrite set_bnd_stages.
  assert (sized N (bnd_rows N b x) ∧ Forall P (bnd_rows N b x)) as [Hs1 Hx1].
  { apply (for_range_inv (λ acc, sized N acc ∧ Forall P acc)); [done|].
    intros i acc _ [Hsa Ha]. unfold edge_body, sized.
    rewrite !length_set. split; [done|].
    apply Forall_set; [apply Forall_set; [done|]|].
    - by apply H2, Forall_get_IX.
    - apply H2, Forall_get_IX; [|unfold sized; by rewrite length_set].
      apply Forall_set; [done|]. by apply H2, Forall_get_IX. }
  assert (sized N (bnd_cols N b (bnd_rows N b x)) ∧
          Forall P (bnd_cols N b (bnd_rows N b x))) as [Hs2 Hx2].
  { apply (for_range_inv (λ acc, sized N acc ∧ Forall P acc)); [done|].
    intros i acc _ [Hsa Ha]. unfold edge_body, sized.
    rewrite !length_set. split; [done|].
    apply Forall_set; [apply Forall_set; [done|]|].
    - by apply H1, Forall_get_IX.
    - apply H1, Forall_get_IX; [|unfold sized; by rewrite length_set].
      apply Forall_set; [done|]. by apply H1, Forall_get_IX. }
  unfold bnd_corners.
  assert (∀ y cx cy ax ay bx by_, sized N y → Forall P y →
            sized N (bnd_corner N cx cy ax ay bx by_ y) ∧
            Forall P (bnd_corner N cx cy ax ay bx by_ y)) as Hcorner.
  { intros y cx cy ax ay bx by_ Hsy Hy. unfold bnd_corner, sized.
    rewrite length_set. split; [done|].
    apply Forall_set; [done|]. apply Hc; by apply Forall_get_IX. }
  destruct (Hcorner _ 0 0 1 0 0 1 Hs2 Hx2) as [Hs3 Hx3].
  destruct (Hcorner _ 0 (N + 1) 1 (N + 1) 0 N Hs3 Hx3) as [Hs4 Hx4].
  destruct (Hcorner _ (N + 1) 0 N 0 (N + 1) 1 Hs4 Hx4) as [Hs5 Hx5].
  by apply Hcorner.
Qed.

Lemma relax_Forall (P0 P : number → Prop) x0 a cRecip x :
  (∀ v n1 n2 n3 n4, P0 v → P n1 → P n2 → P n3 → P n4 →
     P ((v + a * (n1 + n2 + n3 + n4)) * cRecip)%num) →
  sized N x0 → Forall P0 x0 → sized N x → Forall P x →
  Forall P (FluidSolver.relax N x0 a cRecip x).
Proof.
  intros Hc Hs0 Hx0 Hs Hx. unfold FluidSolver.relax.
  apply (for_range_inv (λ acc, sized N acc ∧ Forall P acc)); [done|].
  intros j acc _ [Hsa Ha].
  apply (for_range_inv (λ acc, sized N acc ∧ Forall P acc)); [done|].
  intros i acc' _ [Hsa' Ha']. unfold sized. rewrite length_set.
  split; [done|]. apply Forall_set; [done|].
  apply Hc; by apply Forall_get_IX.
Qed.

Lemma lin_solve_Forall (P0 P : number → Prop) b x x0 a c iter :
  (∀ v n1 n2 n3 n4, P0 v → P n1 → P n2 → P n3 → P n4 →
     P ((v + a * (n1 + n2 + n3 + n4)) * (Num.one / c))%num) →
  (∀ v, P v → P (FluidSolver.flip_if b 1 v)) →
  (∀ v, P v → P (FluidSolver.flip_if b 2 v)) →
  (∀ u v, P u → P v → P (Num.half * (u + v))%num) →
  sized N x0 → Forall P0 x0 → sized N x → Forall P x →
  Forall P (FluidSolver.lin_solve N b x x0 a c iter).
Proof.
  intros Hc H1 H2 Hh Hs0 Hx0 Hs Hx. unfold FluidSolver.lin_solve.
  apply (for_range_inv (λ acc, sized N acc ∧ Forall P acc)); [done|].
  intros k acc _ [Hsa Ha]. split.
  - unfold sized. by rewrite length_set_bnd, length_relax.
  - apply set_bnd_Forall; try done.
    + unfold sized. by rewrite length_relax.
    + by apply (relax_Forall P0 P).
Qed.

Lemma advect_Forall (P : number → Prop) b d d0 velocX velocY dt :
  (∀ i j, 1 ≤ i ≤ N → 1 ≤ j ≤ N →
     P (FluidSolver.advect_cell N d0 velocX velocY
          (dt * Num.of_Z (N - 2))%num i j)) →
  (∀ v, P v → P (FluidSolver.flip_if b 1 v)) →
  (∀ v, P v → P (FluidSolver.flip_if b 2 v)) →
  (∀ u v, P u → P v → P (Num.half * (u + v))%num) →
  sized N d → Forall P d →
  Forall P (FluidSolver.advect N b d d0 velocX velocY dt).
Proof.
  intros Hc H1 H2 Hh Hs Hd. unfold FluidSolver.advect.
  match goal with |- Forall P (FluidSolver.set_bnd N b ?l) =>
    assert (sized N l ∧ Forall P l) as [Hsl Hl]
  end; [|by apply set_bnd_Forall].
  apply (for_range_inv (λ acc, sized N acc ∧ Forall P acc)); [done|].
  intros j acc Hj [Hsa Ha].
  apply (for_range_inv (λ acc, sized N acc ∧ Forall P acc)); [done|].
  intros i acc' Hi [Hsa' Ha']. unfold sized. rewrite length_set.
  split; [done|]. apply Forall_set; [done|]. by apply Hc.
Qed.

End Closure.

(** ** Bilinear resampling *)

(** The clamps of [advect] leave a finite number or NaN, never an infinity:
    the last branch of [advect_cell] is the NaN case only. *)
Lemma clamp_pos_finite_or_NaN N x :
  finite (FluidSolver.clamp_pos N x) ∨ FluidSolver.clamp_pos N x = NaN.
Proof.
  unfold FluidSolver.clamp_pos.
  destruct x as [a| | |].
  - destruct (Num.ltb (Fin a) Num.half);
      destruct (Num.ltb _ _); by left.
  - change (Num.ltb PInf Num.half) with false. cbv iota.
    change (Num.ltb (Num.of_Z N + Num.half) PInf) with true. by left.
  - change (Num.ltb NInf Num.half) with true. cbv iota.
    destruct (Num.ltb _ _); by left.
  - by right.
Qed.

Lemma get_elem_of (a : Float32Array) k :
  0 ≤ k < Z.of_nat (length a) → get a k ∈ a.
Proof.
  intros [H0 H1]. unfold get.
  destruct (Z.ltb_spec k 0) as [?|_]; [lia|].
  destruct (lookup_lt_is_Some_2 a (Z.to_nat k)) as [w Hw]; [lia|].
  rewrite Hw. simpl. by eapply list_elem_of_lookup_2.
Qed.

Lemma clamp_pos_finite N x :
  0 ≤ N → finite x →
  ∃ q, FluidSolver.clamp_pos N x = Fin q ∧
       (1 # 2 <= q)%Q ∧ (q <= inject_Z N + (1 # 2))%Q.
Proof.
  intros HN Hx. destruct x as [a| | |]; try done.
  unfold FluidSolver.clamp_pos, Num.half.
  pose proof (inject_Z_le 0 N HN) as HN'. change (inject_Z 0) with 0%Q in HN'.
  assert (Qred (inject_Z N + (1 # 2)) == inject_Z N + (1 # 2))%Q as Hred
    by apply Qred_correct.
  simpl Num.add. unfold Num.fin.
  destruct (Num.ltb (Fin a) (Fin (1 # 2))) eqn:E1.
  - apply ltb_Fin in E1.
    destruct (Num.ltb _ (Fin (1 # 2))) eqn:E2.
    + apply ltb_Fin in E2. lra.
    + eexists. split; [done|]. lra.
  - assert (1 # 2 <= a)%Q as Ha.
    { destruct (Qlt_le_dec a (1 # 2)) as [Hlt|Hle]; [|done].
      apply ltb_Fin_true in Hlt. congruence. }
    destruct (Num.ltb _ (Fin a)) eqn:E2.
    + eexists. split; [done|]. lra.
    + eexists. split; [done|]. split; [done|].
      destruct (Qlt_le_dec (inject_Z N + (1 # 2)) a) as [Hlt|Hle]; [|done].
      rewrite <- Hred in Hlt. apply ltb_Fin_true in Hlt. congruence.
Qed.

Lemma floor_clamped N q :
  (1 # 2 <= q)%Q → (q <= inject_Z N + (1 # 2))%Q →
  0 ≤ Qfloor q ≤ N ∧
  (0 <= q - inject_Z (Qfloor q))%Q ∧ (q - inject_Z (Qfloor q) <= 1)%Q.
Proof.
  intros H1 H2.
  pose proof (Qfloor_le q) as Hle. pose proof (Qlt_floor q) as Hlt.
  rewrite inject_Z_plus in Hlt. change (inject_Z 1) with 1%Q in Hlt.
  split; [split|split; lra].
  - apply Z.lt_succ_r. rewrite Zlt_Qlt. unfold Z.succ.
    rewrite inject_Z_plus. simpl. change (inject_Z 1) with 1%Q.
    change (inject_Z 0) with 0%Q. lra.
  - apply Z.lt_succ_r. rewrite Zlt_Qlt. unfold Z.succ.
    rewrite inject_Z_plus. change (inject_Z 1) with 1%Q. lra.
Qed.

(** The value advection writes is a convex combination of four cells of the
    source buffer. *)
Lemma advect_cell_convex N d0 velocX velocY dt0 i j :
  0 ≤ N → finite dt0 →
  finite (get velocX (FluidSolver.IX N i j)) →
  finite (get velocY (FluidSolver.IX N i j)) →
  sized N d0 → Forall finite d0 →
  ∃ s1 t1 a b c d v : Q,
    (0 <= s1 <= 1)%Q ∧ (0 <= t1 <= 1)%Q ∧
    Fin a ∈ d0 ∧ Fin b ∈ d0 ∧ Fin c ∈ d0 ∧ Fin d ∈ d0 ∧
    FluidSolver.advect_cell N d0 velocX velocY dt0 i j = Fin v ∧
    (v == (1 - s1) * ((1 - t1) * a + t1 * b) +
          s1 * ((1 - t1) * c + t1 * d))%Q.
Proof.
  intros HN Hdt Hvx Hvy Hs Hd. unfold FluidSolver.advect_cell.
  destruct (clamp_pos_finite N
              (Num.of_Z i - dt0 * get velocX (FluidSolver.IX N i j))%num HN)
    as (qx & -> & Hx1 & Hx2).
  { apply finite_sub; [done|]. by apply finite_mul. }
  destruct (clamp_pos_finite N
              (Num.of_Z j - dt0 * get velocY (FluidSolver.IX N i j))%num HN)
    as (qy & -> & Hy1 & Hy2).
  { apply finite_sub; [done|]. by apply finite_mul. }
  simpl Num.floor. cbv iota beta.
  destruct (floor_clamped N qx Hx1 Hx2) as (Hi0 & Hs1 & Hs1').
  destruct (floor_clamped N qy Hy1 Hy2) as (Hj0 & Ht1 & Ht1').
  set (i0 := Qfloor qx) in *. set (j0 := Qfloor qy) in *.
  assert (∀ cx cy, ∃ w, get d0 (FluidSolver.IX N cx cy) = Fin w ∧ Fin w ∈ d0)
    as Hcell.
  { intros cx cy.
    pose proof (get_elem_of d0 (FluidSolver.IX N cx cy)
                  (IX_sized N ltac:(lia) d0 cx cy Hs)) as Hin.
    pose proof (proj1 (Forall_forall _ _) Hd _ Hin) as Hfin.
    destruct (get d0 (FluidSolver.IX N cx cy)) as [w| | |]; try done.
    by exists w. }
  destruct (Hcell i0 j0) as (a & -> & Ha).
  destruct (Hcell i0 (j0 + 1)) as (b & -> & Hb).
  destruct (Hcell (i0 + 1) j0) as (c & -> & Hc).
  destruct (Hcell (i0 + 1) (j0 + 1)) as (d & -> & Hd').
  exists (qx - inject_Z i0)%Q, (qy - inject_Z j0)%Q, a, b, c, d.
  eexists. split; [done|]. split; [done|]. do 4 (split; [done|]).
  split; [reflexivity|]. simpl. rewrite !Qred_correct. ring.
Qed.

(** ** Finite values stay finite *)

Section Finite.
Variable N : Z.
Hypothesis HN : -1 ≤ N.

Lemma set_bnd_field_finite b x :
  field N finite x → field N finite (FluidSolver.set_bnd N b x).
Proof.
  intros [Hs Hx]. split.
  - unfold sized. by rewrite length_set_bnd.
  - apply set_bnd_Forall; try done.
    + intros v Hv. by apply finite_flip_if.
    + intros v Hv. by apply finite_flip_if.
    + intros u v Hu Hv. apply finite_mul; [done|]. by apply finite_add.
Qed.

Lemma lin_solve_finite b x x0 a c iter :
  finite a → finite (Num.one / c)%num →
  field N finite x → field N finite x0 →
  field N finite (FluidSolver.lin_solve N b x x0 a c iter).
Proof.
  intros Ha Hc [Hs Hx] [Hs0 Hx0]. split.
  - unfold sized. by rewrite length_lin_solve.
  - apply (lin_solve_Forall N HN finite finite); try done.
    + intros v n1 n2 n3 n4 Hv H1 H2 H3 H4.
      repeat (apply finite_mul || apply finite_add); done.
    + intros v Hv. by apply finite_flip_if.
    + intros v Hv. by apply finite_flip_if.
    + intros u v Hu Hv. apply finite_mul; [done|]. by apply finite_add.
Qed.

Lemma diffuse_finite b x x0 k dt iter :
  relaxable N dt k →
  field N finite x → field N finite x0 →
  field N finite (FluidSolver.diffuse N b x x0 k dt iter).
Proof. intros [Ha Hc] Hx Hx0. by apply lin_solve_finite. Qed.

Lemma project_finite velocX velocY p div iter :
  field N finite velocX → field N finite velocY →
  field N finite p → field N finite div →
  let '(velocX', velocY', p', div') :=
    FluidSolver.project N velocX velocY p div iter in
  field N finite velocX' ∧ field N finite velocY' ∧
  field N finite p' ∧ field N finite div'.
Proof.
  intros Hvx Hvy Hp Hd. unfold FluidSolver.project.
  match goal with |- context [for_range 1 N ?body (div, p)] =>
    assert (field N finite (for_range 1 N body (div, p)).1 ∧
            field N finite (for_range 1 N body (div, p)).2) as H1;
    [|destruct (for_range 1 N body (div, p)) as [div1 p1]]
  end.
  { apply (for_range_inv
             (λ st, field N finite st.1 ∧ field N finite st.2)); [done|].
    intros j st Hj Hst.
    apply (for_range_inv
             (λ st, field N finite st.1 ∧ field N finite st.2)); [done|].
    intros i [div' p'] Hi [[Hsd Hd'] [Hsp Hp']]. cbn [fst snd] in *.
    unfold field, sized. rewrite !length_set.
    repeat split; try done.
    - apply Forall_set; [done|].
      apply finite_div_of_Z; [|lia].
      apply finite_mul; [done|].
      destruct Hvx, Hvy.
      repeat (apply finite_sub || apply finite_add);
        by apply Forall_get_IX.
    - apply Forall_set; done. }
  cbn [fst snd] in H1. destruct H1 as [Hd1 Hp1].
  pose proof (set_bnd_field_finite 0 _ Hd1) as Hd2.
  pose proof (set_bnd_field_finite 0 _ Hp1) as Hp2.
  pose proof (lin_solve_finite 0 _ _ Num.one (Num.of_Z 6) iter
                I I Hp2 Hd2) as Hp3.
  match goal with |- context [for_range 1 N ?body (velocX, velocY)] =>
    assert (field N finite (for_range 1 N body (velocX, velocY)).1 ∧
            field N finite (for_range 1 N body (velocX, velocY)).2) as H2;
    [|destruct (for_range 1 N body (velocX, velocY)) as [vx1 vy1]]
  end.
  { apply (for_range_inv
             (λ st, field N finite st.1 ∧ field N finite st.2)); [done|].
    intros j st Hj Hst.
    apply (for_range_inv
             (λ st, field N finite st.1 ∧ field N finite st.2)); [done|].
    intros i [vx' vy'] Hi [[Hsx Hx'] [Hsy Hy']]. cbn [fst snd] in *.
    unfold field, sized. rewrite !length_set.
    destruct Hp3.
    repeat split; try done.
    - apply Forall_set; [done|].
      apply finite_sub; [by apply Forall_get_IX|].
      apply finite_mul; [done|].
      apply finite_sub; by apply Forall_get_IX.
    - apply Forall_set; [done|].
      apply finite_sub; [by apply Forall_get_IX|].
      apply finite_mul; [done|].
      apply finite_sub; by apply Forall_get_IX. }
  cbn [fst snd] in H2. destruct H2 as [Hx2 Hy2].
  repeat split; try apply set_bnd_field_finite; try done;
    try apply Hp3; try apply Hd2.
Qed.

Lemma advect_finite b d d0 velocX velocY dt :
  finite dt →
  field N finite d → field N finite d0 →
  field N finite velocX → field N finite velocY →
  field N finite (FluidSolver.advect N b d d0 velocX velocY dt).
Proof.
  intros Hdt [Hs Hd] [Hs0 Hd0] [Hsx Hvx] [Hsy Hvy]. split.
  - unfold sized. by rewrite length_advect.
  - apply advect_Forall; try done.
    + intros i j Hi Hj.
      destruct (advect_cell_convex N d0 velocX velocY
                  (dt * Num.of_Z (N - 2))%num i j)
        as (s1 & t1 & a & b' & c & d' & v & _ & _ & _ & _ & _ & _ & -> & _);
        try done; try lia; try (by apply Forall_get_IX).
      by apply finite_mul.
    + intros v Hv. by apply finite_flip_if.
    + intros v Hv. by apply finite_flip_if.
    + intros u v Hu Hv. apply finite_mul; [done|]. by apply finite_add.
Qed.

End Finite.

(** ** Bounds kept by the relaxation, the advection and the dissipation *)

Ltac num_cbn :=
  cbn [Num.add Num.sub Num.mul Num.div Num.neg Num.max Num.fin Num.one
       Num.zero Num.half Num.of_Z within nonneg finite] in *.

Lemma within_le (M M' : Q) x : (M <= M')%Q → within M x → within M' x.
Proof. destruct x; simpl; try done. intros. lra. Qed.

Lemma within_Fin (M : Q) x : within M x → ∃ q, x = Fin q ∧ (0 <= q <= M)%Q.
Proof. destruct x; simpl; try done. eauto. Qed.

Lemma nonneg_Fin x : nonneg x → ∃ q, x = Fin q ∧ (0 <= q)%Q.
Proof. destruct x; simpl; try done. eauto. Qed.

(** The reciprocal [1 / (1 + 6 a)] for a coefficient [a >= 0]. *)
Lemma recip_nonneg (A : Q) :
  (0 <= A)%Q →
  (Num.one / (Num.one + Num.of_Z 6 * Fin A))%num
    = Fin (Qred (1 / Qred (1 + Qred (inject_Z 6 * A)))).
Proof.
  intros HA. num_cbn.
  destruct (Qeq_bool _ 0) eqn:E; [|done].
  apply Qeq_bool_iff in E. rewrite !Qred_correct in E.
  change (inject_Z 6) with 6%Q in E. lra.
Qed.

(** One Gauss-Seidel update: from a source value in [0, D] and four
    neighbours in [0, U] to a value in [0, (D + 4 a U) / (1 + 6 a)]. *)
Lemma relax_value_within (A D U : Q) v n1 n2 n3 n4 :
  (0 <= A)%Q →
  within D v → within U n1 → within U n2 → within U n3 → within U n4 →
  within ((D + 4 * A * U) / (1 + 6 * A))
    ((v + Fin A * (n1 + n2 + n3 + n4)) *
     (Num.one / (Num.one + Num.of_Z 6 * Fin A)))%num.
Proof.
  intros HA Hv H1 H2 H3 H4. rewrite recip_nonneg by done.
  apply within_Fin in Hv as (qv & -> & Hv).
  apply within_Fin in H1 as (q1 & -> & H1).
  apply within_Fin in H2 as (q2 & -> & H2).
  apply within_Fin in H3 as (q3 & -> & H3).
  apply within_Fin in H4 as (q4 & -> & H4).
  num_cbn. rewrite !Qred_correct. change (inject_Z 6) with 6%Q.
  unfold Qdiv. set (r := (/ (1 + 6 * A))%Q).
  assert (0 <= r)%Q as Hr by (apply Qinv_le_0_compat; lra).
  assert (0 <= A * (q1 + q2 + q3 + q4))%Q as Hsum by nra.
  assert (A * (q1 + q2 + q3 + q4) <= 4 * A * U)%Q as Hsum' by nra.
  split.
  - apply Qmult_le_0_compat; [lra|]. lra.
  - rewrite Qmult_1_l. apply Qmult_le_compat_r; [lra|done].
Qed.

Lemma relax_value_nonneg (A : Q) v n1 n2 n3 n4 :
  (0 <= A)%Q →
  nonneg v → nonneg n1 → nonneg n2 → nonneg n3 → nonneg n4 →
  nonneg ((v + Fin A * (n1 + n2 + n3 + n4)) *
          (Num.one / (Num.one + Num.of_Z 6 * Fin A)))%num.
Proof.
  intros HA Hv H1 H2 H3 H4. rewrite recip_nonneg by done.
  apply nonneg_Fin in Hv as (qv & -> & Hv).
  apply nonneg_Fin in H1 as (q1 & -> & H1).
  apply nonneg_Fin in H2 as (q2 & -> & H2).
  apply nonneg_Fin in H3 as (q3 & -> & H3).
  apply nonneg_Fin in H4 as (q4 & -> & H4).
  num_cbn. rewrite !Qred_correct. change (inject_Z 6) with 6%Q.
  unfold Qdiv. set (r := (/ (1 + 6 * A))%Q).
  assert (0 <= r)%Q as Hr by (apply Qinv_le_0_compat; lra).
  assert (0 <= A * (q1 + q2 + q3 + q4))%Q as Hsum by nra.
  apply Qmult_le_0_compat; [lra|]. lra.
Qed.

Lemma half_sum_within (M : Q) u v :
  within M u → within M v → within M (Num.half * (u + v))%num.
Proof.
  intros Hu Hv.
  apply within_Fin in Hu as (a & -> & Ha).
  apply within_Fin in Hv as (b & -> & Hb).
  num_cbn. rewrite !Qred_correct. lra.
Qed.

Lemma half_sum_nonneg u v :
  nonneg u → nonneg v → nonneg (Num.half * (u + v))%num.
Proof.
  intros Hu Hv.
  apply nonneg_Fin in Hu as (a & -> & Ha).
  apply nonneg_Fin in Hv as (b & -> & Hb).
  num_cbn. rewrite !Qred_correct. lra.
Qed.

(** A convex combination of values in [0, M] is in [0, M]. *)
Lemma bilinear_within (M s1 t1 a b c d : Q) :
  (0 <= s1 <= 1)%Q → (0 <= t1 <= 1)%Q →
  (0 <= a <= M)%Q → (0 <= b <= M)%Q → (0 <= c <= M)%Q → (0 <= d <= M)%Q →
  (0 <= (1 - s1) * ((1 - t1) * a + t1 * b) + s1 * ((1 - t1) * c + t1 * d)
     <= M)%Q.
Proof.
  intros Hs Ht Ha Hb Hc Hd.
  set (u := ((1 - t1) * a + t1 * b)%Q).
  set (w := ((1 - t1) * c + t1 * d)%Q).
  assert (0 <= u <= M)%Q as Hu by (subst u; nra).
  assert (0 <= w <= M)%Q as Hw by (subst w; nra).
  nra.
Qed.

Lemma bilinear_nonneg (s1 t1 a b c d : Q) :
  (0 <= s1 <= 1)%Q → (0 <= t1 <= 1)%Q →
  (0 <= a)%Q → (0 <= b)%Q → (0 <= c)%Q → (0 <= d)%Q →
  (0 <= (1 - s1) * ((1 - t1) * a + t1 * b) + s1 * ((1 - t1) * c + t1 * d))%Q.
Proof.
  intros Hs Ht Ha Hb Hc Hd.
  set (u := ((1 - t1) * a + t1 * b)%Q).
  set (w := ((1 - t1) * c + t1 * d)%Q).
  assert (0 <= u)%Q as Hu by (subst u; nra).
  assert (0 <= w)%Q as Hw by (subst w; nra).
  nra.
Qed.

(** Dissipation of one cell. *)
Lemma fade_value_within (M r : Q) d :
  (0 <= r <= 1)%Q → within M d →
  within ((1 - r) * M) (Num.max Num.zero (d * (Num.one - Fin r)))%num.
Proof.
  intros Hr Hd. apply within_Fin in Hd as (q & -> & Hq).
  cbn [Num.sub Num.mul Num.one Num.max Num.zero].
  unfold Num.fin, Num.zero.
  destruct (Num.ltb _ _) eqn:E; cbn [within].
  - rewrite !Qred_correct. nra.
  - nra.
Qed.

Lemma fade_value_nonneg (r : Q) d :
  (0 <= r <= 1)%Q → nonneg d →
  nonneg (Num.max Num.zero (d * (Num.one - Fin r)))%num.
Proof.
  intros Hr Hd. apply nonneg_Fin in Hd as (q & -> & Hq).
  cbn [Num.sub Num.mul Num.one Num.max Num.zero].
  unfold Num.fin, Num.zero.
  destruct (Num.ltb _ _) eqn:E; cbn [nonneg].
  - rewrite !Qred_correct. nra.
  - lra.
Qed.

(** The dissipation loop rewrites every cell from its own old value. *)
Lemma map_loop (f : number → number) (d : Float32Array) :
  for_range 0 (Z.of_nat (length d) - 1) (λ i d, set d i (f (get d i))) d
    = f <$> d.
Proof.
  pose proof (for_range_ind
    (λ n acc, length acc = length d ∧
              ∀ k : nat, acc !! k = if Z.of_nat k <? n then f <$> d !! k
                                    else d !! k)
    0 (Z.of_nat (length d) - 1) (λ i d, set d i (f (get d i))) d) as H.
  cbv beta in H. destruct H as [Hlen Hk]; [lia| |  |].
  - split; [done|]. intros k.
    destruct (Z.ltb_spec (Z.of_nat k) 0); [lia|done].
  - intros i acc Hi [Hlen Hacc]. split; [by rewrite length_set|].
    intros k. unfold set, get.
    destruct (Z.ltb_spec i 0) as [?|_]; [lia|].
    destruct (decide (k = Z.to_nat i)) as [->|Hne].
    + rewrite list_lookup_insert_eq by lia.
      rewrite Hacc. rewrite Z2Nat.id by lia.
      destruct (Z.ltb_spec i i); [lia|].
      destruct (Z.ltb_spec i (i + 1)); [|lia].
      destruct (lookup_lt_is_Some_2 d (Z.to_nat i)) as [w ->]; [lia|].
      done.
    + rewrite list_lookup_insert_ne by done. rewrite Hacc.
      destruct (Z.ltb_spec (Z.of_nat k) i), (Z.ltb_spec (Z.of_nat k) (i + 1));
        try done; lia.
  - apply list_eq. intros k. rewrite Hk, list_lookup_fmap.
    destruct (Z.ltb_spec (Z.of_nat k) (Z.of_nat (length d) - 1 + 1));
      [done|].
    rewrite lookup_ge_None_2 by lia. done.
Qed.

Lemma fade_map r d :
  FluidSolver.fade r d =
    if Num.ltb Num.zero r
    then (λ v, Num.max Num.zero (v * (Num.one - r))%num) <$> d
    else d.
Proof.
  unfold FluidSolver.fade. destruct (Num.ltb Num.zero r); [|done].
  apply (map_loop (λ v, Num.max Num.zero (v * (Num.one - r))%num)).
Qed.

(** ** The density part of a tick *)

(** The tick diffuses the density into [s] and advects [s] back into the
    density along the velocity the velocity part of the tick produced; with
    finite parameters that velocity is finite. *)
Lemma step_density fs iter r :
  wf fs → -1 ≤ FluidSolver.size fs →
  finite (FluidSolver.dt fs) →
  relaxable (FluidSolver.size fs) (FluidSolver.dt fs) (FluidSolver.visc fs) →
  Forall finite (FluidSolver.Vx fs) → Forall finite (FluidSolver.Vy fs) →
  Forall finite (FluidSolver.Vx0 fs) → Forall finite (FluidSolver.Vy0 fs) →
  let N := FluidSolver.size fs in
  let fs' := FluidSolver.step fs iter r in
  ∃ vx vy,
    field N finite vx ∧ field N finite vy ∧
    (FluidSolver.size fs' = N ∧
     FluidSolver.dt fs' = FluidSolver.dt fs ∧
     FluidSolver.diff fs' = FluidSolver.diff fs ∧
     FluidSolver.visc fs' = FluidSolver.visc fs) ∧
    FluidSolver.s fs' =
      FluidSolver.diffuse N 0 (FluidSolver.s fs) (FluidSolver.density fs)
        (FluidSolver.diff fs) (FluidSolver.dt fs) iter ∧
    FluidSolver.density fs' =
      FluidSolver.fade r
        (FluidSolver.advect N 0 (FluidSolver.density fs) (FluidSolver.s fs')
           vx vy (FluidSolver.dt fs)) ∧
    field N finite (FluidSolver.Vx fs') ∧ field N finite (FluidSolver.Vy fs') ∧
    field N finite (FluidSolver.Vx0 fs') ∧
    field N finite (FluidSolver.Vy0 fs').
Proof.
  intros [] HN Hdt Hvisc Hx Hy Hx0 Hy0.
  destruct fs as [N dt diff visc s density Vx Vy Vx0 Vy0].
  cbn [FluidSolver.size FluidSolver.dt FluidSolver.diff FluidSolver.visc
       FluidSolver.s FluidSolver.density FluidSolver.Vx FluidSolver.Vy
       FluidSolver.Vx0 FluidSolver.Vy0] in *.
  unfold FluidSolver.step.
  cbn [FluidSolver.size FluidSolver.dt FluidSolver.diff FluidSolver.visc
       FluidSolver.s FluidSolver.density FluidSolver.Vx FluidSolver.Vy
       FluidSolver.Vx0 FluidSolver.Vy0].
  assert (field N finite Vx) as HVx by done.
  assert (field N finite Vy) as HVy by done.
  assert (field N finite Vx0) as HVx0 by done.
  assert (field N finite Vy0) as HVy0 by done.
  pose proof (diffuse_finite N HN 1 Vx0 Vx visc dt iter Hvisc HVx0 HVx) as H1.
  pose proof (diffuse_finite N HN 2 Vy0 Vy visc dt iter Hvisc HVy0 HVy) as H2.
  pose proof (project_finite N HN _ _ _ _ iter H1 H2 HVx HVy) as H3.
  destruct (FluidSolver.project N _ _ Vx Vy iter) as [[[Vx0a Vy0a] Vxa] Vya].
  destruct H3 as (H3a & H3b & H3c & H3d).
  pose proof (advect_finite N HN 1 Vxa Vx0a Vx0a Vy0a dt Hdt H3c H3a H3a H3b)
    as H4.
  pose proof (advect_finite N HN 2 Vya Vy0a Vx0a Vy0a dt Hdt H3d H3b H3a H3b)
    as H5.
  pose proof (project_finite N HN _ _ _ _ iter H4 H5 H3a H3b) as H6.
  destruct (FluidSolver.project N _ _ Vx0a Vy0a iter)
    as [[[Vxb Vyb] Vx0b] Vy0b].
  destruct H6 as (H6a & H6b & H6c & H6d).
  exists Vxb, Vyb. cbn. done.
Qed.

Section DensityPhase.
Variable N : Z.
Hypothesis HN : -1 ≤ N.
Variables P0 P : number → Prop.
Hypothesis P_half : ∀ u v, P u → P v → P (Num.half * (u + v))%num.

(** Diffusion of a scalar, when one Gauss-Seidel update maps a source value
    in [P0] and four neighbours in [P] into [P]. *)
Lemma diffuse_closed x x0 k dt iter :
  (∀ A v n1 n2 n3 n4,
     coefficient N dt k = Fin A →
     P0 v → P n1 → P n2 → P n3 → P n4 →
     P ((v + Fin A * (n1 + n2 + n3 + n4)) *
        (Num.one / (Num.one + Num.of_Z 6 * Fin A)))%num) →
  finite (coefficient N dt k) →
  field N P x → field N P0 x0 →
  field N P (FluidSolver.diffuse N 0 x x0 k dt iter).
Proof.
  intros Hc Ha [Hs Hx] [Hs0 Hx0]. split.
  - unfold sized. by rewrite length_diffuse.
  - unfold FluidSolver.diffuse. fold (coefficient N dt k).
    apply finite_Fin in Ha as [A HA]. rewrite HA.
    apply (lin_solve_Forall N HN P0 P); try done.
    intros v n1 n2 n3 n4 Hv H1 H2 H3 H4. by apply Hc.
Qed.

(** Advection of a scalar, when [P] holds of finite values only and is
    closed under convex combinations. *)
Lemma advect_closed d d0 velocX velocY dt :
  (∀ v, P v → finite v) →
  (∀ s1 t1 a b c d' v : Q,
     (0 <= s1 <= 1)%Q → (0 <= t1 <= 1)%Q →
     P (Fin a) → P (Fin b) → P (Fin c) → P (Fin d') →
     (v == (1 - s1) * ((1 - t1) * a + t1 * b) +
           s1 * ((1 - t1) * c + t1 * d'))%Q →
     P (Fin v)) →
  finite dt →
  field N P d → field N P d0 →
  field N finite velocX → field N finite velocY →
  field N P (FluidSolver.advect N 0 d d0 velocX velocY dt).
Proof.
  intros Hfin Hconv Hdt [Hs Hd] [Hs0 Hd0] [Hsx Hvx] [Hsy Hvy]. split.
  - unfold sized. by rewrite length_advect.
  - apply advect_Forall; try done.
    intros i j Hi Hj.
    destruct (advect_cell_convex N d0 velocX velocY
                (dt * Num.of_Z (N - 2))%num i j)
      as (s1 & t1 & a & b & c & d' & v & Hs1 & Ht1 & Ha & Hb & Hc & Hd'
          & -> & Hv);
      try done; try lia; try (by apply Forall_get_IX).
    + by apply finite_mul.
    + eapply Forall_impl; [exact Hd0|exact Hfin].
    + rewrite Forall_forall in Hd0.
      apply (Hconv s1 t1 a b c d' v); auto.
Qed.

End DensityPhase.

Lemma Fin_proper_within (M : Q) (v w : Q) :
  (v == w)%Q → within M (Fin w) → within M (Fin v).
Proof. simpl. intros ->. done. Qed.

(** ** Non-negativity *)

Section NonNegative.
Variable N : Z.
Hypothesis HN : -1 ≤ N.

Lemma diffuse_nonneg x x0 k dt iter :
  nonneg dt → nonneg k →
  field N nonneg x → field N nonneg x0 →
  field N nonneg (FluidSolver.diffuse N 0 x x0 k dt iter).
Proof.
  intros Hdt Hk Hx Hx0.
  pose proof (coefficient_nonneg N dt k Hdt Hk) as Ha.
  apply (diffuse_closed N HN nonneg nonneg); try done.
  - apply half_sum_nonneg.
  - intros A v n1 n2 n3 n4 HA. rewrite HA in Ha.
    by apply relax_value_nonneg.
  - by apply nonneg_finite.
Qed.

Lemma advect_nonneg d d0 velocX velocY dt :
  finite dt →
  field N nonneg d → field N nonneg d0 →
  field N finite velocX → field N finite velocY →
  field N nonneg (FluidSolver.advect N 0 d d0 velocX velocY dt).
Proof.
  intros Hdt Hd Hd0 Hvx Hvy.
  apply (advect_closed N HN nonneg); try done.
  - apply half_sum_nonneg.
  - apply nonneg_finite.
  - intros s1 t1 a b c d' v Hs1 Ht1 Ha Hb Hc Hd' Hv. simpl in *.
    rewrite Hv. by apply bilinear_nonneg.
Qed.

Lemma fade_nonneg r d :
  within 1 r → Forall nonneg d → Forall nonneg (FluidSolver.fade r d).
Proof.
  intros Hr Hd. rewrite fade_map.
  destruct (Num.ltb Num.zero r); [|done].
  apply within_Fin in Hr as (q & -> & Hq).
  apply Forall_fmap. eapply Forall_impl; [exact Hd|].
  intros v Hv. by apply fade_value_nonneg.
Qed.

End NonNegative.

Lemma step_nonneg (fs : FluidSolver.t) (iter : Z) (fadeRate : number) :
  wf fs →
  -1 ≤ FluidSolver.size fs →
  nonneg (FluidSolver.dt fs) →
  nonneg (FluidSolver.diff fs) →
  relaxable (FluidSolver.size fs) (FluidSolver.dt fs) (FluidSolver.visc fs) →
  within 1 fadeRate →
  Forall nonneg (FluidSolver.density fs) →
  Forall nonneg (FluidSolver.s fs) →
  Forall finite (FluidSolver.Vx fs) → Forall finite (FluidSolver.Vy fs) →
  Forall finite (FluidSolver.Vx0 fs) → Forall finite (FluidSolver.Vy0 fs) →
  Forall nonneg (FluidSolver.density (FluidSolver.step fs iter fadeRate)) ∧
  Forall nonneg (FluidSolver.s (FluidSolver.step fs iter fadeRate)).
Proof.
  intros Hwf HN Hdt Hdiff Hvisc Hr Hd Hs Hx Hy Hx0 Hy0.
  destruct (step_density fs iter fadeRate Hwf HN (nonneg_finite _ Hdt)
              Hvisc Hx Hy Hx0 Hy0)
    as (vx & vy & Hvx & Hvy & _ & Hs' & Hd' & _).
  destruct Hwf.
  assert (field (FluidSolver.size fs) nonneg
            (FluidSolver.s (FluidSolver.step fs iter fadeRate))) as Hfs.
  { rewrite Hs'. by apply diffuse_nonneg. }
  split; [|apply Hfs].
  rewrite Hd'. apply fade_nonneg; [done|].
  apply advect_nonneg; try done. by apply nonneg_finite.
Qed.


(** Checking a property cell by cell on a buffer given by computation. *)
Ltac by_cells :=
  match goal with
  | |- Forall _ ?a =>
      let l := eval vm_compute in a in
      change a with l;
      repeat (apply Forall_cons; split; [by vm_compute|]);
      by apply Forall_nil
  end.

Lemma wf_stirred : wf stirred.
Proof. split; by vm_compute. Qed.


(** ** Sweeps over the interior *)

Lemma for_range_pair {A B} lo hi (f : Z → A → A) (g : Z → B → B) a b :
  for_range lo hi (λ i st, (f i st.1, g i st.2)) (a, b)
    = (for_range lo hi f a, for_range lo hi g b).
Proof.
  destruct (Z_lt_le_dec hi lo) as [Hlt|Hle].
  - by rewrite !for_range_empty.
  - pose proof (for_range_ind
      (λ n st, st = (for_range lo (n - 1) f a, for_range lo (n - 1) g b))
      lo hi (λ i st, (f i st.1, g i st.2)) (a, b)) as H.
    cbv beta in H. replace (hi + 1 - 1) with hi in H by lia.
    apply H; [lia| |].
    + by rewrite !for_range_empty by lia.
    + intros i st Hi ->. cbn [fst snd].
      replace (i + 1 - 1) with i by lia.
      by rewrite (for_range_last lo i f), (for_range_last lo i g) by lia.
Qed.

Section Interior.
Variable N : Z.
Hypothesis HN : -1 ≤ N.

Lemma sized_map_interior f x : sized N x → sized N (map_interior N f x).
Proof.
  intros Hx. unfold sized, map_interior.
  rewrite length_for_range; [done|]. intros j acc.
  apply length_for_range. intros i acc'. apply length_set.
Qed.

Lemma get_set_IX x i j cx cy v :
  sized N x →
  0 ≤ i ≤ N + 1 → 0 ≤ j ≤ N + 1 → 0 ≤ cx ≤ N + 1 → 0 ≤ cy ≤ N + 1 →
  get (set x (FluidSolver.IX N i j) v) (FluidSolver.IX N cx cy) =
    if decide (cx = i ∧ cy = j) then v else get x (FluidSolver.IX N cx cy).
Proof.
  intros Hx Hi Hj Hcx Hcy.
  destruct (decide (cx = i ∧ cy = j)) as [[-> ->]|Hne].
  - apply get_set_same. by apply IX_sized.
  - apply get_set_other. intros H. apply IX_inj in H; lia.
Qed.

(** Every interior cell is rewritten once, from its own old value; the
    ring of boundary cells is left alone. *)
Lemma get_map_interior f x cx cy :
  sized N x → 0 ≤ cx ≤ N + 1 → 0 ≤ cy ≤ N + 1 →
  get (map_interior N f x) (FluidSolver.IX N cx cy) =
    if decide (1 ≤ cx ≤ N ∧ 1 ≤ cy ≤ N)
    then f cx cy (get x (FluidSolver.IX N cx cy))
    else get x (FluidSolver.IX N cx cy).
Proof.
  intros Hx Hcx Hcy. unfold map_interior.
  destruct (Z_lt_le_dec N 1) as [Hlt|Hle].
  { rewrite for_range_empty by lia. case_decide; [lia|done]. }
  pose proof (for_range_ind
    (λ n acc, sized N acc ∧ ∀ cx cy, 0 ≤ cx ≤ N + 1 → 0 ≤ cy ≤ N + 1 →
       get acc (FluidSolver.IX N cx cy) =
         if decide (1 ≤ cx ≤ N ∧ 1 ≤ cy < n)
         then f cx cy (get x (FluidSolver.IX N cx cy))
         else get x (FluidSolver.IX N cx cy))) as Houter.
  cbv beta in Houter.
  match goal with |- context [for_range 1 N ?body x] =>
    specialize (Houter 1 N body x)
  end.
  destruct Houter as [_ Hget]; [lia| | |].
  - split; [done|]. intros. case_decide; [lia|done].
  - intros j acc Hj [Hsacc Hacc].
    pose proof (for_range_ind
      (λ n acc', sized N acc' ∧ ∀ cx cy, 0 ≤ cx ≤ N + 1 → 0 ≤ cy ≤ N + 1 →
         get acc' (FluidSolver.IX N cx cy) =
           if decide (1 ≤ cx ≤ N ∧ (1 ≤ cy < j ∨ cy = j ∧ cx < n))
           then f cx cy (get x (FluidSolver.IX N cx cy))
           else get x (FluidSolver.IX N cx cy))) as Hinner.
    cbv beta in Hinner.
    match goal with |- context [for_range 1 N ?body acc] =>
      specialize (Hinner 1 N body acc)
    end.
    destruct Hinner as [Hs' Hget']; [lia| | |].
    + split; [done|]. intros cx' cy' Hcx' Hcy'. rewrite Hacc by done.
      repeat case_decide; try done; lia.
    + intros i acc' Hi [Hsacc' Hacc']. split.
      * unfold sized. by rewrite length_set.
      * intros cx' cy' Hcx' Hcy'.
        rewrite get_set_IX by (done || lia).
        rewrite !Hacc' by (done || lia).
        repeat case_decide; try done; try lia;
          repeat match goal with H : _ ∧ _ |- _ => destruct H end;
          subst; try done; lia.
    + split; [done|]. intros cx' cy' Hcx' Hcy'. rewrite Hget' by done.
      repeat case_decide; try done; lia.
  - rewrite Hget by done. repeat case_decide; try done; lia.
Qed.

(** Every offset of a buffer is the offset of a cell. *)
Lemma Forall_cells (P : number → Prop) x :
  sized N x →
  (∀ cx cy, 0 ≤ cx ≤ N + 1 → 0 ≤ cy ≤ N + 1 →
     P (get x (FluidSolver.IX N cx cy))) →
  Forall P x.
Proof.
  intros Hx Hcells. apply Forall_lookup_2. intros k v Hk.
  pose proof (lookup_lt_Some _ _ _ Hk) as Hlt. red in Hx. rewrite Hx in Hlt.
  assert (0 < N + 2) as Hpos by lia.
  set (cx := Z.of_nat k mod (N + 2)).
  set (cy := Z.of_nat k / (N + 2)).
  pose proof (Z.mod_pos_bound (Z.of_nat k) (N + 2) Hpos) as Hcx.
  pose proof (Z.div_mod (Z.of_nat k) (N + 2) ltac:(lia)) as Hdm.
  fold cx cy in Hcx, Hdm.
  assert (0 ≤ cy ≤ N + 1) as Hcy.
  { split; [apply Z.div_pos; lia|].
    assert (cy < N + 2); [|lia].
    apply Z.div_lt_upper_bound; [lia|].
    apply Nat2Z.inj_lt in Hlt. rewrite Z2Nat.id in Hlt by nia. lia. }
  specialize (Hcells cx cy ltac:(lia) Hcy).
  rewrite IX_inside in Hcells by lia.
  replace (cx + (N + 2) * cy) with (Z.of_nat k) in Hcells by lia.
  unfold get in Hcells.
  destruct (Z.ltb_spec (Z.of_nat k) 0) as [?|_]; [lia|].
  rewrite Nat2Z.id, Hk in Hcells. done.
Qed.

End Interior.

(** ** Projection *)

(** The source sums the four terms of the divergence from left to right;
    the specification groups them in two differences.  The two agree, on
    the special values too. *)
Lemma add_sub_assoc (x c d : number) : (x + c - d = x + (c - d))%num.
Proof.
  destruct x as [qx| | |], c as [qc| | |], d as [qd| | |];
    try reflexivity.
  cbn [Num.add Num.sub]. apply fin_eq. unfold Num.fin.
  rewrite !Qred_correct. ring.
Qed.

Lemma flip_if_wall b k v : FluidSolver.flip_if b k v = wall b k v.
Proof.
  unfold FluidSolver.flip_if, wall.
  destruct (Z.eqb_spec b k); case_decide; done.
Qed.

Lemma nested_pair {A B} N (F : Z → Z → A → A) (G : Z → Z → B → B) a b :
  for_range 1 N (λ j st,
    for_range 1 N (λ i '(x, y), (F j i x, G j i y)) st) (a, b)
  = (for_range 1 N (λ j x, for_range 1 N (F j) x) a,
     for_range 1 N (λ j y, for_range 1 N (G j) y) b).
Proof.
  rewrite <- (for_range_pair 1 N (λ j x, for_range 1 N (F j) x)
                (λ j y, for_range 1 N (G j) y)).
  apply for_range_ext. intros j [x y] Hj. cbn [fst snd].
  rewrite <- for_range_pair.
  apply for_range_ext. intros i [x' y'] Hi. done.
Qed.

Section Projection.
Variable N : Z.
Hypothesis HN : 1 ≤ N.

Lemma set_bnd_obeys b x :
  sized N x → boundary_policy N b (FluidSolver.set_bnd N b x).
Proof.
  intros Hx.
  destruct (set_bnd_cells N b HN x Hx)
    as (Hint & Hrow & Hcol & H00 & H0N & HN0 & HNN).
  unfold boundary_policy. split; [|split; [|done]].
  - intros j Hj. destruct (Hcol j Hj) as [-> ->].
    by rewrite !Hint, !flip_if_wall by lia.
  - intros i Hi. destruct (Hrow i Hi) as [-> ->].
    by rewrite !Hint, !flip_if_wall by lia.
Qed.

Lemma lin_solve_obeys b x x0 a c iter :
  sized N x → boundary_policy N b x →
  boundary_policy N b (FluidSolver.lin_solve N b x x0 a c iter).
Proof.
  intros Hx Hb. unfold FluidSolver.lin_solve.
  apply (for_range_inv (λ acc, sized N acc ∧ boundary_policy N b acc));
    [done|].
  intros k acc _ [Hs _]. split.
  - unfold sized. by rewrite length_set_bnd, length_relax.
  - apply set_bnd_obeys. unfold sized. by rewrite length_relax.
Qed.

Lemma all_zero_new_array_eq x :
  sized N x → all_zero x → x = new_array ((N + 2) * (N + 2)).
Proof.
  intros Hs Hz. symmetry. apply replicate_as_Forall. split; [done|].
  eapply Forall_impl; [exact Hz|]. by intros v ->.
Qed.

(** The pressure the relaxation starts from: zero in every cell. *)
Lemma pressure_start p :
  sized N p →
  FluidSolver.set_bnd N 0 (map_interior N (λ _ _ _, Num.zero) p)
    = new_array ((N + 2) * (N + 2)).
Proof.
  intros Hp.
  pose proof (sized_map_interior N (λ _ _ _, Num.zero) p Hp) as Hs1.
  assert (∀ i j, 1 ≤ i ≤ N → 1 ≤ j ≤ N →
            get (map_interior N (λ _ _ _, Num.zero) p) (FluidSolver.IX N i j)
              = Num.zero) as Hzero.
  { intros i j Hi Hj. rewrite get_map_interior by (done || lia).
    case_decide; [done|lia]. }
  destruct (set_bnd_cells N 0 HN _ Hs1)
    as (Hint & Hrow & Hcol & H00 & H0N & HN0 & HNN).
  assert (∀ i j, 1 ≤ i ≤ N → 1 ≤ j ≤ N →
            get (FluidSolver.set_bnd N 0
                   (map_interior N (λ _ _ _, Num.zero) p))
                (FluidSolver.IX N i j) = Num.zero) as Hin.
  { intros i j Hi Hj. by rewrite Hint, Hzero. }
  assert (∀ c, 1 ≤ c ≤ N →
            get (FluidSolver.set_bnd N 0
                   (map_interior N (λ _ _ _, Num.zero) p))
                (FluidSolver.IX N c 0) = Num.zero ∧
            get (FluidSolver.set_bnd N 0
                   (map_interior N (λ _ _ _, Num.zero) p))
                (FluidSolver.IX N c (N + 1)) = Num.zero ∧
            get (FluidSolver.set_bnd N 0
                   (map_interior N (λ _ _ _, Num.zero) p))
                (FluidSolver.IX N 0 c) = Num.zero ∧
            get (FluidSolver.set_bnd N 0
                   (map_interior N (λ _ _ _, Num.zero) p))
                (FluidSolver.IX N (N + 1) c) = Num.zero) as Hedge.
  { intros c Hc. destruct (Hrow c Hc) as [-> ->].
    destruct (Hcol c Hc) as [-> ->]. by rewrite !Hzero by lia. }
  apply all_zero_new_array_eq.
  { unfold sized. rewrite length_set_bnd. exact Hs1. }
  apply (Forall_cells N); [lia| |].
  { unfold sized. rewrite length_set_bnd. exact Hs1. }
  intros cx cy Hcx Hcy.
  destruct (decide (1 ≤ cx ≤ N)) as [Hix|Hix];
    destruct (decide (1 ≤ cy ≤ N)) as [Hiy|Hiy].
  - by apply Hin.
  - assert (cy = 0 ∨ cy = N + 1) as [-> | ->] by lia; by apply Hedge.
  - assert (cx = 0 ∨ cx = N + 1) as [-> | ->] by lia; by apply Hedge.
  - destruct (Hedge 1 ltac:(lia)) as (E1 & E2 & E3 & E4).
    destruct (Hedge N ltac:(lia)) as (E5 & E6 & E7 & E8).
    assert (cx = 0 ∨ cx = N + 1) as [-> | ->] by lia;
      assert (cy = 0 ∨ cy = N + 1) as [-> | ->] by lia.
    + by rewrite H00, E1, E3.
    + by rewrite H0N, E2, E7.
    + by rewrite HN0, E5, E4.
    + by rewrite HNN, E6, E8.
Qed.

End Projection.



(** ** How far the density can rise, and how fast it fades *)

Lemma bound_le (A D U : Q) :
  (0 <= A → 0 <= D → D <= U → (D + 4 * A * U) / (1 + 6 * A) <= U)%Q.
Proof.
  intros HA HD HU. apply Qle_shift_div_r; [lra|]. nra.
Qed.

Lemma bound_stable (A D U : Q) :
  (0 <= A → 0 <= D → D <= U →
   (D + 4 * A * ((D + 4 * A * U) / (1 + 6 * A))) / (1 + 6 * A)
     <= (D + 4 * A * U) / (1 + 6 * A))%Q.
Proof.
  intros HA HD HU.
  pose proof (bound_le A D U HA HD HU) as HT.
  set (T := ((D + 4 * A * U) / (1 + 6 * A))%Q) in *.
  unfold Qdiv. apply Qmult_le_compat_r.
  - nra.
  - apply Qinv_le_0_compat. lra.
Qed.

Lemma bound_contract (A r S : Q) :
  (0 <= A →
   ((1 - r) * S + 4 * A * S) / (1 + 6 * A)
     == (1 - r + 4 * A) / (1 + 6 * A) * S)%Q.
Proof. intros HA. field. lra. Qed.

Lemma contraction_range (A r : Q) :
  (0 <= A → 0 < r <= 1 →
   0 <= (1 - r + 4 * A) / (1 + 6 * A) ∧ (1 - r + 4 * A) / (1 + 6 * A) < 1)%Q.
Proof.
  intros HA Hr. split.
  - apply Qle_shift_div_l; [lra|]. nra.
  - apply Qlt_shift_div_r; [lra|]. nra.
Qed.

Lemma within_proper (M M' : Q) x : (M == M')%Q → within M x → within M' x.
Proof. intros HM. apply within_le. lra. Qed.

Section Cover.
Variable N : Z.
Hypothesis HN : 1 ≤ N.

(** After the scalar boundary handler, a property of the interior that
    averaging preserves holds of every cell. *)
Lemma set_bnd_scalar_cover (P : number → Prop) x :
  sized N x →
  (∀ u v, P u → P v → P (Num.half * (u + v))%num) →
  (∀ i j, 1 ≤ i ≤ N → 1 ≤ j ≤ N → P (get x (FluidSolver.IX N i j))) →
  Forall P (FluidSolver.set_bnd N 0 x).
Proof.
  intros Hx Hhalf Hinterior.
  destruct (set_bnd_cells N 0 HN x Hx)
    as (Hint & Hrow & Hcol & H00 & H0N & HN0 & HNN).
  set (x' := FluidSolver.set_bnd N 0 x) in *.
  assert (∀ c, 1 ≤ c ≤ N →
            P (get x' (FluidSolver.IX N c 0)) ∧
            P (get x' (FluidSolver.IX N c (N + 1))) ∧
            P (get x' (FluidSolver.IX N 0 c)) ∧
            P (get x' (FluidSolver.IX N (N + 1) c))) as Hedge.
  { intros c Hc. destruct (Hrow c Hc) as [-> ->].
    destruct (Hcol c Hc) as [-> ->].
    repeat split; apply Hinterior; lia. }
  apply (Forall_cells N); [lia| |].
  { unfold sized, x'. by rewrite length_set_bnd. }
  intros cx cy Hcx Hcy.
  destruct (decide (1 ≤ cx ≤ N)) as [Hix|Hix];
    destruct (decide (1 ≤ cy ≤ N)) as [Hiy|Hiy].
  - rewrite Hint by done. by apply Hinterior.
  - assert (cy = 0 ∨ cy = N + 1) as [-> | ->] by lia; by apply Hedge.
  - assert (cx = 0 ∨ cx = N + 1) as [-> | ->] by lia; by apply Hedge.
  - destruct (Hedge 1 ltac:(lia)) as (E1 & E2 & E3 & E4).
    destruct (Hedge N ltac:(lia)) as (E5 & E6 & E7 & E8).
    assert (cx = 0 ∨ cx = N + 1) as [-> | ->] by lia;
      assert (cy = 0 ∨ cy = N + 1) as [-> | ->] by lia.
    + rewrite H00. by apply Hhalf.
    + rewrite H0N. by apply Hhalf.
    + rewrite HN0. by apply Hhalf.
    + rewrite HNN. by apply Hhalf.
Qed.

(** One Gauss-Seidel sweep rewrites every interior cell. *)
Lemma relax_cover (A D U : Q) x0 x :
  (0 <= A)%Q → (0 <= D)%Q → (D <= U)%Q →
  field N (within D) x0 → field N (within U) x →
  let x' := FluidSolver.relax N x0 (Fin A)
              (Num.one / (Num.one + Num.of_Z 6 * Fin A))%num x in
  sized N x' ∧
  ∀ i j, 1 ≤ i ≤ N → 1 ≤ j ≤ N →
    within ((D + 4 * A * U) / (1 + 6 * A)) (get x' (FluidSolver.IX N i j)).
Proof.
  intros HA HD HDU [Hs0 Hx0] [Hs Hx] x'. subst x'.
  pose proof (bound_le A D U HA HD HDU) as HT.
  set (T := ((D + 4 * A * U) / (1 + 6 * A))%Q) in *.
  unfold FluidSolver.relax.
  pose proof (for_range_ind
    (λ n acc, field N (within U) acc ∧
       ∀ cx cy, 1 ≤ cx ≤ N → 1 ≤ cy < n →
         within T (get acc (FluidSolver.IX N cx cy)))) as Houter.
  cbv beta in Houter.
  match goal with |- context [for_range 1 N ?body x] =>
    specialize (Houter 1 N body x)
  end.
  destruct Houter as [[Hs' _] Hget]; [lia| | |].
  - split; [done|]. intros; lia.
  - intros j acc Hj [[Hsacc Hacc] Hvis].
    pose proof (for_range_ind
      (λ n acc', field N (within U) acc' ∧
         ∀ cx cy, 1 ≤ cx ≤ N → (1 ≤ cy < j ∨ cy = j ∧ cx < n) →
           within T (get acc' (FluidSolver.IX N cx cy)))) as Hinner.
    cbv beta in Hinner.
    match goal with |- context [for_range 1 N ?body acc] =>
      specialize (Hinner 1 N body acc)
    end.
    destruct Hinner as [Hf' Hget']; [lia| | |].
    + split; [done|]. intros cx cy Hcx [Hcy|[-> Hcy]]; [|lia].
      by apply Hvis.
    + intros i acc' Hi [[Hsacc' Hacc'] Hvis'].
      assert (within T
        ((get x0 (FluidSolver.IX N i j) +
          Fin A * (get acc' (FluidSolver.IX N (i + 1) j) +
                   get acc' (FluidSolver.IX N (i - 1) j) +
                   get acc' (FluidSolver.IX N i (j + 1)) +
                   get acc' (FluidSolver.IX N i (j - 1)))) *
         (Num.one / (Num.one + Num.of_Z 6 * Fin A)))%num) as Hv.
      { apply relax_value_within; try done;
          apply Forall_get_IX; done || lia. }
      split; [split|].
      * unfold sized. by rewrite length_set.
      * apply Forall_set; [done|]. by apply (within_le T).
      * intros cx cy Hcx Hcy.
        rewrite (get_set_IX N) by (done || lia).
        case_decide as Heq; [done|].
        apply Hvis'; [done|]. lia.
    + split; [done|]. intros cx cy Hcx Hcy. apply Hget'; [done|]. lia.
  - split; [done|]. intros i j Hi Hj. apply Hget; [done|]. lia.
Qed.

End Cover.

Lemma advect_cell_within (M : Q) N d0 velocX velocY dt0 i j :
  0 ≤ N → finite dt0 →
  finite (get velocX (FluidSolver.IX N i j)) →
  finite (get velocY (FluidSolver.IX N i j)) →
  field N (within M) d0 →
  within M (FluidSolver.advect_cell N d0 velocX velocY dt0 i j).
Proof.
  intros HN Hdt Hvx Hvy [Hs Hd0].
  destruct (advect_cell_convex N d0 velocX velocY dt0 i j)
    as (s1 & t1 & a & b & c & d' & v & Hs1 & Ht1 & Ha & Hb & Hc & Hd'
        & -> & Hv); try done.
  { eapply Forall_impl; [exact Hd0|]. intros w Hw.
    by eapply nonneg_finite, within_nonneg. }
  rewrite Forall_forall in Hd0.
  apply (Fin_proper_within M _ _ Hv).
  apply (bilinear_within M s1 t1 a b c d'); try done.
  - by apply (Hd0 (Fin a)).
  - by apply (Hd0 (Fin b)).
  - by apply (Hd0 (Fin c)).
  - by apply (Hd0 (Fin d')).
Qed.

Lemma fade_within (M r : Q) d :
  (0 < r <= 1)%Q → Forall (within M) d →
  Forall (within ((1 - r) * M)) (FluidSolver.fade (Fin r) d).
Proof.
  intros Hr Hd. rewrite fade_map.
  assert (Num.ltb Num.zero (Fin r) = true) as ->.
  { apply ltb_Fin_true. lra. }
  apply Forall_fmap. eapply Forall_impl; [exact Hd|].
  intros v Hv. apply fade_value_within; [lra|done].
Qed.

Section Bounds.
Variable N : Z.
Hypothesis HN : 1 ≤ N.
Variables (dt k : number) (A : Q).
Hypothesis HA : coefficient N dt k = Fin A.
Hypothesis HA0 : (0 <= A)%Q.

(** Diffusion does not raise the bound. *)
Lemma diffuse_within (M : Q) x x0 iter :
  (0 <= M)%Q →
  field N (within M) x → field N (within M) x0 →
  field N (within M) (FluidSolver.diffuse N 0 x x0 k dt iter).
Proof.
  intros HM Hx Hx0.
  apply (diffuse_closed N ltac:(lia) (within M) (within M)); try done.
  - apply half_sum_within.
  - intros A' v n1 n2 n3 n4 HA' Hv H1 H2 H3 H4.
    rewrite HA in HA'. injection HA' as <-.
    apply (within_le ((M + 4 * A * M) / (1 + 6 * A))).
    + apply bound_le; lra.
    + by apply relax_value_within.
  - by rewrite HA.
Qed.

(** With at least one sweep, diffusion brings every cell of [s] under
    [(D + 4 a U) / (1 + 6 a)], for a density under [D] and an old [s]
    under [U]. *)
Lemma diffuse_cover (D U : Q) x x0 iter :
  1 ≤ iter → (0 <= D)%Q → (D <= U)%Q →
  field N (within D) x0 → field N (within U) x →
  field N (within ((D + 4 * A * U) / (1 + 6 * A)))
    (FluidSolver.diffuse N 0 x x0 k dt iter).
Proof.
  intros Hiter HD HDU Hx0 Hx.
  pose proof (bound_le A D U HA0 HD HDU) as HT.
  pose proof (bound_stable A D U HA0 HD HDU) as HT'.
  set (T := ((D + 4 * A * U) / (1 + 6 * A))%Q) in *.
  unfold FluidSolver.diffuse. fold (coefficient N dt k). rewrite HA.
  unfold FluidSolver.lin_solve. rewrite for_range_first by lia.
  destruct (relax_cover N HN A D U x0 x HA0 HD HDU Hx0 Hx) as [Hs1 Hc1].
  fold T in Hc1.
  apply (for_range_inv (λ acc, field N (within T) acc)).
  - split.
    + unfold sized. rewrite length_set_bnd. exact Hs1.
    + apply set_bnd_scalar_cover; try done. apply half_sum_within.
  - intros i acc _ [Hsacc Hacc]. destruct Hx0 as [Hs0 Hx0]. split.
    + unfold sized. by rewrite length_set_bnd, length_relax.
    + apply (set_bnd_Forall N ltac:(lia)); try done.
      * apply half_sum_within.
      * unfold sized. by rewrite length_relax.
      * apply (relax_Forall N ltac:(lia) (within D) (within T)); try done.
        intros v n1 n2 n3 n4 Hv H1 H2 H3 H4.
        apply (within_le ((D + 4 * A * T) / (1 + 6 * A))); [done|].
        by apply relax_value_within.
Qed.

End Bounds.

Section AdvectBounds.
Variable N : Z.
Hypothesis HN : 1 ≤ N.

Lemma advect_within (M : Q) d d0 velocX velocY dt :
  finite dt →
  field N (within M) d → field N (within M) d0 →
  field N finite velocX → field N finite velocY →
  field N (within M) (FluidSolver.advect N 0 d d0 velocX velocY dt).
Proof.
  intros Hdt Hd Hd0 Hvx Hvy.
  apply (advect_closed N ltac:(lia) (within M)); try done.
  - apply half_sum_within.
  - intros v Hv. by eapply nonneg_finite, within_nonneg.
  - intros s1 t1 a b c d' v Hs1 Ht1 Ha Hb Hc Hd' Hv.
    apply (Fin_proper_within M _ _ Hv). by apply bilinear_within.
Qed.

(** Advection rewrites every cell of its target from the source. *)
Lemma advect_cover (M : Q) d d0 velocX velocY dt :
  finite dt → sized N d → field N (within M) d0 →
  field N finite velocX → field N finite velocY →
  field N (within M) (FluidSolver.advect N 0 d d0 velocX velocY dt).
Proof.
  intros Hdt Hd Hd0 [Hsx Hvx] [Hsy Hvy]. split.
  { unfold sized. by rewrite length_advect. }
  unfold FluidSolver.advect.
  match goal with |- Forall _ (FluidSolver.set_bnd N 0 ?l) =>
    change l with
      (map_interior N
         (λ i j _, FluidSolver.advect_cell N d0 velocX velocY
                     (dt * Num.of_Z (N - 2))%num i j) d)
  end.
  apply set_bnd_scalar_cover; try done.
  - by apply sized_map_interior.
  - apply half_sum_within.
  - intros i j Hi Hj. rewrite get_map_interior by (done || lia).
    case_decide; [|lia].
    apply advect_cell_within; try done; try lia.
    + by apply finite_mul.
    + apply Forall_get_IX; done || lia.
    + apply Forall_get_IX; done || lia.
Qed.

End AdvectBounds.

(** ** Ticks with dissipation *)

Lemma step_regular fs iter r :
  regular fs →
  regular (FluidSolver.step fs iter r) ∧
  ∀ q, contraction (FluidSolver.step fs iter r) q = contraction fs q.
Proof.
  intros [Hwf HN Hdt Hdiff Hvisc Hx Hy Hx0 Hy0].
  destruct (step_density fs iter r Hwf ltac:(lia) (nonneg_finite _ Hdt)
              Hvisc Hx Hy Hx0 Hy0)
    as (vx & vy & Hvx & Hvy & (E1 & E2 & E3 & E4) & Hs' & Hd'
        & [] & [] & [] & []).
  split.
  - split; rewrite ?E1, ?E2, ?E3, ?E4; try done.
    split; rewrite ?E1; try done.
    + unfold sized. rewrite Hs', length_diffuse. apply Hwf.
    + unfold sized. rewrite Hd', length_fade, length_advect. apply Hwf.
  - intros q. unfold contraction. by rewrite E1, E2, E3.
Qed.

Lemma within_bound_nonneg (M : Q) N a :
  -1 ≤ N → field N (within M) a → (0 <= M)%Q.
Proof.
  intros HN [Hs Ha]. destruct a as [|v a].
  - red in Hs. simpl in Hs. nia.
  - apply Forall_cons in Ha as [Hv _].
    apply within_Fin in Hv as (q & _ & Hq). lra.
Qed.

Lemma regular_coefficient fs :
  regular fs →
  ∃ A, coefficient (FluidSolver.size fs) (FluidSolver.dt fs)
         (FluidSolver.diff fs) = Fin A ∧ (0 <= A)%Q.
Proof.
  intros Hreg. apply nonneg_Fin, coefficient_nonneg; apply Hreg.
Qed.

(** One tick, any number of sweeps: the density ends under (1 - r) M. *)
Lemma step_bounded fs iter (r M : Q) :
  regular fs → (0 < r <= 1)%Q →
  Forall (within M) (FluidSolver.density fs) →
  Forall (within M) (FluidSolver.s fs) →
  Forall (within ((1 - r) * M))
    (FluidSolver.density (FluidSolver.step fs iter (Fin r))) ∧
  Forall (within M) (FluidSolver.s (FluidSolver.step fs iter (Fin r))).
Proof.
  intros Hreg Hr Hd Hs.
  destruct (regular_coefficient fs Hreg) as (A & HA & HA0).
  destruct Hreg as [Hwf HN Hdt Hdiff Hvisc Hx Hy Hx0 Hy0].
  destruct (step_density fs iter (Fin r) Hwf ltac:(lia)
              (nonneg_finite _ Hdt) Hvisc Hx Hy Hx0 Hy0)
    as (vx & vy & Hvx & Hvy & _ & Hs' & Hd' & _).
  destruct Hwf.
  assert (0 <= M)%Q as HM.
  { apply (within_bound_nonneg M (FluidSolver.size fs)
             (FluidSolver.s fs)); [lia|done]. }
  assert (field (FluidSolver.size fs) (within M)
            (FluidSolver.s (FluidSolver.step fs iter (Fin r)))) as Hfs.
  { rewrite Hs'. by apply (diffuse_within _ HN _ _ A). }
  split; [|apply Hfs].
  rewrite Hd'. apply fade_within; [done|].
  apply advect_within; try done. by apply nonneg_finite.
Qed.

(** One tick with at least one sweep: from [s] under S and a density
    under (1 - r) S to [s] under rho * S and a density under
    (1 - r) * rho * S. *)
Lemma step_contracts fs iter (r S : Q) :
  regular fs → (0 < r <= 1)%Q → 1 ≤ iter →
  Forall (within S) (FluidSolver.s fs) →
  Forall (within ((1 - r) * S)) (FluidSolver.density fs) →
  Forall (within (contraction fs r * S))
    (FluidSolver.s (FluidSolver.step fs iter (Fin r))) ∧
  Forall (within ((1 - r) * (contraction fs r * S)))
    (FluidSolver.density (FluidSolver.step fs iter (Fin r))).
Proof.
  intros Hreg Hr Hiter Hs Hd.
  destruct (regular_coefficient fs Hreg) as (A & HA & HA0).
  unfold contraction. rewrite HA.
  destruct Hreg as [Hwf HN Hdt Hdiff Hvisc Hx Hy Hx0 Hy0].
  destruct (step_density fs iter (Fin r) Hwf ltac:(lia)
              (nonneg_finite _ Hdt) Hvisc Hx Hy Hx0 Hy0)
    as (vx & vy & Hvx & Hvy & _ & Hs' & Hd' & _).
  destruct Hwf.
  assert (0 <= S)%Q as HS.
  { apply (within_bound_nonneg S (FluidSolver.size fs)
             (FluidSolver.s fs)); [lia|done]. }
  assert (field (FluidSolver.size fs)
            (within ((1 - r + 4 * A) / (1 + 6 * A) * S))
            (FluidSolver.s (FluidSolver.step fs iter (Fin r)))) as Hfs.
  { rewrite Hs'.
    pose proof (diffuse_cover _ HN _ _ A HA HA0 ((1 - r) * S) S
                  (FluidSolver.s fs) (FluidSolver.density fs) iter Hiter)
      as [Hsz Hall]; try done; try nra.
    split; [done|]. eapply Forall_impl; [exact Hall|].
    intros v. apply within_proper. by apply bound_contract. }
  split; [apply Hfs|].
  rewrite Hd'. apply fade_within; [done|].
  apply advect_cover; try done. by apply nonneg_finite.
Qed.

Lemma ticks_contract fs iters (r S : Q) :
  regular fs → (0 < r <= 1)%Q →
  Forall (λ iter, 1 ≤ iter) iters →
  Forall (within S) (FluidSolver.s fs) →
  Forall (within ((1 - r) * S)) (FluidSolver.density fs) →
  Forall (within ((1 - r) * (qpow (contraction fs r) (length iters) * S)))
    (FluidSolver.density (ticks fs iters (Fin r))).
Proof.
  intros Hreg Hr Hiters. revert fs S Hreg.
  induction Hiters as [|iter iters Hiter Hiters IH]; intros fs S Hreg Hs Hd.
  - simpl. eapply Forall_impl; [exact Hd|].
    intros v. apply within_proper. ring.
  - simpl.
    destruct (step_regular fs iter (Fin r) Hreg) as [Hreg' Hrho].
    destruct (step_contracts fs iter r S Hreg Hr Hiter Hs Hd) as [Hs' Hd'].
    specialize (IH _ _ Hreg' Hs' Hd'). rewrite Hrho in IH.
    eapply Forall_impl; [exact IH|].
    intros v. apply within_proper. ring.
Qed.


(** Without a relaxation sweep the work buffer [s] is never refreshed, and
    the density does not fade away: from the painted canvas, after one, two
    and three ticks with 0 iterations and fade rate 1/2, cell (2, 2) holds
    50 each time. *)
Lemma no_sweep_no_decay :
  Forall (λ n, get (FluidSolver.density
                      (ticks painted (replicate n 0) (Fin (1 # 2))))
                   (FluidSolver.IX 4 2 2) = Fin 50)
    [1%nat; 2%nat; 3%nat].
Proof. repeat (apply Forall_cons; split; [by vm_compute|]). by apply Forall_nil. Qed.

Lemma valid_regular fs :
  wf fs →
  valid_config (FluidSolver.size fs) (FluidSolver.diff fs)
    (FluidSolver.visc fs) (FluidSolver.dt fs) →
  Forall finite (FluidSolver.Vx fs) → Forall finite (FluidSolver.Vy fs) →
  Forall finite (FluidSolver.Vx0 fs) → Forall finite (FluidSolver.Vy0 fs) →
  regular fs.
Proof.
  intros Hwf Hvalid Hx Hy Hx0 Hy0.
  destruct (valid_config_relaxable _ _ _ _ Hvalid) as (_ & Hvisc & _).
  destruct Hvalid as (HN & Hdiff & _ & Hdt).
  split; try done. lia.
Qed.


Lemma wf_diffusing : wf diffusing.
Proof. split; by vm_compute. Qed.


(** * Further properties *)

(** ** Offsets and cells *)

Lemma IX_div_mod N x y :
  -1 ≤ N →
  FluidSolver.IX N x y mod (N + 2) = clamp 0 (N + 1) x ∧
  FluidSolver.IX N x y / (N + 2) = clamp 0 (N + 1) y.
Proof.
  intros HN. rewrite IX_clamp by done.
  pose proof (clamp_range 0 (N + 1) x ltac:(lia)) as Hx.
  pose proof (clamp_range 0 (N + 1) y ltac:(lia)) as Hy.
  set (cx := clamp 0 (N + 1) x) in *. set (cy := clamp 0 (N + 1) y) in *.
  replace (cx + (N + 2) * cy) with (cx + cy * (N + 2)) by lia.
  split.
  - rewrite Z.mod_add by lia. apply Z.mod_small. lia.
  - rewrite Z.div_add by lia. rewrite Z.div_small by lia. lia.
Qed.

Lemma IX_of_offset N k :
  -1 ≤ N → 0 ≤ k < (N + 2) * (N + 2) →
  0 ≤ k mod (N + 2) ≤ N + 1 ∧ 0 ≤ k / (N + 2) ≤ N + 1 ∧
  FluidSolver.IX N (k mod (N + 2)) (k / (N + 2)) = k.
Proof.
  intros HN Hk.
  pose proof (Z.mod_pos_bound k (N + 2) ltac:(lia)) as Hm.
  pose proof (Z.div_mod k (N + 2) ltac:(lia)) as Hdm.
  assert (0 ≤ k / (N + 2) ≤ N + 1) as Hd.
  { split; [apply Z.div_pos; lia|].
    assert (k / (N + 2) < N + 2); [|lia].
    apply Z.div_lt_upper_bound; lia. }
  split; [lia|]. split; [done|].
  rewrite IX_inside by lia. lia.
Qed.

(** Two buffers of one length that agree at every offset are equal. *)
Lemma get_ext (a b : Float32Array) :
  length a = length b →
  (∀ k, 0 ≤ k < Z.of_nat (length a) → get a k = get b k) →
  a = b.
Proof.
  intros Hlen Hget. apply list_eq_same_length with (length a); try done.
  intros i u v Hi Hu Hv.
  specialize (Hget (Z.of_nat i) ltac:(lia)). unfold get in Hget.
  destruct (Z.ltb_spec (Z.of_nat i) 0) as [?|_]; [lia|].
  rewrite Nat2Z.id, Hu, Hv in Hget. done.
Qed.

(** Two grids that agree on every cell are equal. *)
Lemma cells_ext N (a b : Float32Array) :
  -1 ≤ N → sized N a → sized N b →
  (∀ cx cy, 0 ≤ cx ≤ N + 1 → 0 ≤ cy ≤ N + 1 →
     get a (FluidSolver.IX N cx cy) = get b (FluidSolver.IX N cx cy)) →
  a = b.
Proof.
  intros HN Ha Hb Hcells. apply get_ext; [by rewrite Ha, Hb|].
  intros k Hk. rewrite Ha, Z2Nat.id in Hk by nia.
  destruct (IX_of_offset N k HN Hk) as (Hx & Hy & <-).
  by apply Hcells.
Qed.

(** ** The boundary handler forgets the old boundary *)

Lemma set_bnd_interior_determined N b x y :
  1 ≤ N → sized N x → sized N y →
  (∀ i j, 1 ≤ i ≤ N → 1 ≤ j ≤ N →
     get x (FluidSolver.IX N i j) = get y (FluidSolver.IX N i j)) →
  FluidSolver.set_bnd N b x = FluidSolver.set_bnd N b y.
Proof.
  intros HN Hx Hy Hxy.
  destruct (set_bnd_cells N b HN x Hx)
    as (Hint & Hrow & Hcol & H00 & H0N & HN0 & HNN).
  destruct (set_bnd_cells N b HN y Hy)
    as (Hint' & Hrow' & Hcol' & H00' & H0N' & HN0' & HNN').
  cbv zeta in *.
  assert (sized N (FluidSolver.set_bnd N b x)) as Hsx
    by (unfold sized; by rewrite length_set_bnd).
  assert (sized N (FluidSolver.set_bnd N b y)) as Hsy
    by (unfold sized; by rewrite length_set_bnd).
  remember (FluidSolver.set_bnd N b x) as x' eqn:Ex'.
  remember (FluidSolver.set_bnd N b y) as y' eqn:Ey'.
  clear Ex' Ey'.
  assert (∀ c, 1 ≤ c ≤ N →
            get x' (FluidSolver.IX N c 0) = get y' (FluidSolver.IX N c 0) ∧
            get x' (FluidSolver.IX N c (N + 1))
              = get y' (FluidSolver.IX N c (N + 1)) ∧
            get x' (FluidSolver.IX N 0 c) = get y' (FluidSolver.IX N 0 c) ∧
            get x' (FluidSolver.IX N (N + 1) c)
              = get y' (FluidSolver.IX N (N + 1) c)) as Hedge.
  { intros c Hc.
    destruct (Hrow c Hc) as [-> ->]. destruct (Hrow' c Hc) as [-> ->].
    destruct (Hcol c Hc) as [-> ->]. destruct (Hcol' c Hc) as [-> ->].
    by rewrite !Hxy by lia. }
  apply (cells_ext N); [lia|done|done|].
  intros cx cy Hcx Hcy.
  destruct (decide (1 ≤ cx ≤ N)) as [Hix|Hix];
    destruct (decide (1 ≤ cy ≤ N)) as [Hiy|Hiy].
  - rewrite Hint, Hint' by done. by apply Hxy.
  - assert (cy = 0 ∨ cy = N + 1) as [-> | ->] by lia; by apply Hedge.
  - assert (cx = 0 ∨ cx = N + 1) as [-> | ->] by lia; by apply Hedge.
  - destruct (Hedge 1 ltac:(lia)) as (E1 & E2 & E3 & E4).
    destruct (Hedge N ltac:(lia)) as (E5 & E6 & E7 & E8).
    assert (cx = 0 ∨ cx = N + 1) as [-> | ->] by lia;
      assert (cy = 0 ∨ cy = N + 1) as [-> | ->] by lia.
    + by rewrite H00, H00', E1, E3.
    + by rewrite H0N, H0N', E2, E7.
    + by rewrite HN0, HN0', E5, E4.
    + by rewrite HNN, HNN', E6, E8.
Qed.

Lemma set_bnd_idem N b x :
  1 ≤ N → sized N x →
  FluidSolver.set_bnd N b (FluidSolver.set_bnd N b x)
    = FluidSolver.set_bnd N b x.
Proof.
  intros HN Hx. apply set_bnd_interior_determined; try done.
  - unfold sized. by rewrite length_set_bnd.
  - intros i j Hi Hj.
    destruct (set_bnd_cells N b HN x Hx) as (Hint & _).
    by apply Hint.
Qed.

(** A sweep that writes every interior cell without reading the target,
    followed by the boundary handler, leaves nothing of the target. *)
Lemma overwrite_independent N b (g : Z → Z → number) d d' :
  1 ≤ N → sized N d → sized N d' →
  FluidSolver.set_bnd N b (map_interior N (λ i j _, g i j) d)
    = FluidSolver.set_bnd N b (map_interior N (λ i j _, g i j) d').
Proof.
  intros HN Hd Hd'. apply set_bnd_interior_determined; try done.
  - by apply sized_map_interior.
  - by apply sized_map_interior.
  - intros i j Hi Hj. rewrite !get_map_interior by (done || lia).
    case_decide; [done|lia].
Qed.

(** ** Loops whose body ignores the counter *)

Lemma foldl_const_iter {A B} (F : A → A) (l : list B) a :
  foldl (λ acc _, F acc) a l = Nat.iter (length l) F a.
Proof.
  revert a. induction l as [|x l IH]; intros a; [done|].
  simpl foldl. rewrite IH. simpl length. by rewrite Nat.iter_succ_r.
Qed.

Lemma for_range_iter {A} lo hi (F : A → A) a :
  for_range lo hi (λ _, F) a = Nat.iter (Z.to_nat (hi - lo + 1)) F a.
Proof. unfold for_range. by rewrite foldl_const_iter, length_seqZ. Qed.

Lemma lin_solve_iter N b x x0 a c iter :
  FluidSolver.lin_solve N b x x0 a c iter
    = Nat.iter (Z.to_nat iter) (sweep N b x0 a c) x.
Proof.
  unfold FluidSolver.lin_solve.
  rewrite (for_range_iter 0 (iter - 1) (sweep N b x0 a c)).
  f_equal. lia.
Qed.

Lemma lin_solve_none N b x x0 a c iter :
  iter ≤ 0 → FluidSolver.lin_solve N b x x0 a c iter = x.
Proof.
  intros H. rewrite lin_solve_iter.
  replace (Z.to_nat iter) with 0%nat by lia. done.
Qed.

Lemma lin_solve_last N b x x0 a c iter :
  1 ≤ iter →
  FluidSolver.lin_solve N b x x0 a c iter
    = sweep N b x0 a c (FluidSolver.lin_solve N b x x0 a c (iter - 1)).
Proof.
  intros H. rewrite !lin_solve_iter.
  replace (Z.to_nat iter) with (S (Z.to_nat (iter - 1))) by lia. done.
Qed.

Lemma lin_solve_add N b x x0 a c k1 k2 :
  0 ≤ k1 → 0 ≤ k2 →
  FluidSolver.lin_solve N b (FluidSolver.lin_solve N b x x0 a c k1) x0 a c k2
    = FluidSolver.lin_solve N b x x0 a c (k1 + k2).
Proof.
  intros H1 H2. rewrite !lin_solve_iter.
  rewrite Z2Nat.inj_add by done.
  rewrite (Nat.add_comm (Z.to_nat k1)). by rewrite Nat.iter_add.
Qed.

(** ** What the stages read and what they overwrite *)

Lemma relax_ext_x0 N x0 x0' a cRecip x :
  (∀ i j, 1 ≤ i ≤ N → 1 ≤ j ≤ N →
     get x0 (FluidSolver.IX N i j) = get x0' (FluidSolver.IX N i j)) →
  FluidSolver.relax N x0 a cRecip x = FluidSolver.relax N x0' a cRecip x.
Proof.
  intros H. unfold FluidSolver.relax.
  apply for_range_ext. intros j acc Hj.
  apply for_range_ext. intros i acc' Hi. by rewrite H.
Qed.

Lemma lin_solve_ext_x0 N b x x0 x0' a c iter :
  (∀ i j, 1 ≤ i ≤ N → 1 ≤ j ≤ N →
     get x0 (FluidSolver.IX N i j) = get x0' (FluidSolver.IX N i j)) →
  FluidSolver.lin_solve N b x x0 a c iter
    = FluidSolver.lin_solve N b x x0' a c iter.
Proof.
  intros H. unfold FluidSolver.lin_solve.
  apply for_range_ext. intros k acc Hk. by rewrite (relax_ext_x0 N x0 x0').
Qed.

Lemma diffuse_ext_x0 N b x x0 x0' k dt iter :
  (∀ i j, 1 ≤ i ≤ N → 1 ≤ j ≤ N →
     get x0 (FluidSolver.IX N i j) = get x0' (FluidSolver.IX N i j)) →
  FluidSolver.diffuse N b x x0 k dt iter
    = FluidSolver.diffuse N b x x0' k dt iter.
Proof. intros H. unfold FluidSolver.diffuse. by apply lin_solve_ext_x0. Qed.

(** A write to a cell of the border is not seen from the interior. *)
Lemma get_set_border N a x y v i j :
  -1 ≤ N → on_border N x y → 1 ≤ i ≤ N → 1 ≤ j ≤ N →
  get (set a (FluidSolver.IX N x y) v) (FluidSolver.IX N i j)
    = get a (FluidSolver.IX N i j).
Proof.
  intros HN Hb Hi Hj. apply get_set_other. intros Heq.
  rewrite (IX_clamp N HN x y), (IX_inside N HN i j) in Heq by lia.
  pose proof (clamp_range 0 (N + 1) x ltac:(lia)) as Hx.
  pose proof (clamp_range 0 (N + 1) y ltac:(lia)) as Hy.
  assert (clamp 0 (N + 1) y = j) as Ey by nia.
  assert (clamp 0 (N + 1) x = i) as Ex by nia.
  unfold on_border, clamp in *.
  destruct (Z.ltb_spec x 0), (Z.ltb_spec (N + 1) x),
    (Z.ltb_spec y 0), (Z.ltb_spec (N + 1) y); lia.
Qed.

Lemma advect_unfold N b d d0 velocX velocY dt :
  FluidSolver.advect N b d d0 velocX velocY dt =
    FluidSolver.set_bnd N b
      (map_interior N
         (λ i j _, FluidSolver.advect_cell N d0 velocX velocY
                     (dt * Num.of_Z (N - 2))%num i j) d).
Proof. reflexivity. Qed.

Lemma advect_independent N b d d' d0 velocX velocY dt :
  1 ≤ N → sized N d → sized N d' →
  FluidSolver.advect N b d d0 velocX velocY dt
    = FluidSolver.advect N b d' d0 velocX velocY dt.
Proof.
  intros HN Hd Hd'. rewrite !advect_unfold.
  by apply (overwrite_independent N b
              (FluidSolver.advect_cell N d0 velocX velocY
                 (dt * Num.of_Z (N - 2))%num)).
Qed.

Lemma advect_interior N b d d0 velocX velocY dt i j :
  1 ≤ N → sized N d → 1 ≤ i ≤ N → 1 ≤ j ≤ N →
  get (FluidSolver.advect N b d d0 velocX velocY dt) (FluidSolver.IX N i j)
    = FluidSolver.advect_cell N d0 velocX velocY
        (dt * Num.of_Z (N - 2))%num i j.
Proof.
  intros HN Hd Hi Hj. rewrite advect_unfold.
  destruct (set_bnd_cells N b HN _
              (sized_map_interior N
                 (λ i j _, FluidSolver.advect_cell N d0 velocX velocY
                             (dt * Num.of_Z (N - 2))%num i j) d Hd))
    as (Hint & _).
  rewrite Hint by done. rewrite get_map_interior by (done || lia).
  case_decide; [done|lia].
Qed.

Lemma map_interior_ext N (f g : Z → Z → number → number) x :
  (∀ i j v, 1 ≤ i ≤ N → 1 ≤ j ≤ N → f i j v = g i j v) →
  map_interior N f x = map_interior N g x.
Proof.
  intros H. unfold map_interior.
  apply for_range_ext. intros j acc Hj.
  apply for_range_ext. intros i acc' Hi. by rewrite H.
Qed.

(** The projection, stage by stage. *)
Lemma project_unfold N velocX velocY p div iter :
  1 ≤ N → sized N p →
  FluidSolver.project N velocX velocY p div iter =
    let div' :=
      FluidSolver.set_bnd N 0
        (map_interior N (λ i j _, discrete_divergence N velocX velocY i j)
           div) in
    let p' :=
      FluidSolver.lin_solve N 0 (new_array ((N + 2) * (N + 2))) div'
        Num.one (Num.of_Z 6) iter in
    (FluidSolver.set_bnd N 1
       (map_interior N (λ i j v, v - gradient_x N p' i j)%num velocX),
     FluidSolver.set_bnd N 2
       (map_interior N (λ i j v, v - gradient_y N p' i j)%num velocY),
     p', div').
Proof.
  intros HN Hp. unfold FluidSolver.project.
  pose (E := λ j i : Z,
    (Fin (-1 # 2) *
       (get velocX (FluidSolver.IX N (i + 1) j) -
        get velocX (FluidSolver.IX N (i - 1) j) +
        get velocY (FluidSolver.IX N i (j + 1)) -
        get velocY (FluidSolver.IX N i (j - 1))) /
     Num.of_Z N)%num).
  pose proof (nested_pair N
    (λ j i d, set d (FluidSolver.IX N i j) (E j i))
    (λ j i q, set q (FluidSolver.IX N i j) Num.zero) div p) as H1.
  subst E. cbv beta in H1.
  match type of H1 with ?lhs = _ =>
    match goal with |- context [for_range 1 N ?body (div, p)] =>
      change (for_range 1 N body (div, p)) with lhs
    end
  end.
  rewrite H1. clear H1.
  match goal with |- context [FluidSolver.set_bnd N 0 (for_range 1 N ?body p)] =>
    change (for_range 1 N body p) with (map_interior N (λ _ _ _, Num.zero) p)
  end.
  rewrite (pressure_start N HN p Hp).
  match goal with |- context [FluidSolver.set_bnd N 0 (for_range 1 N ?body div)] =>
    change (for_range 1 N body div) with
      (map_interior N
         (λ i j _, (Fin (-1 # 2) *
            (get velocX (FluidSolver.IX N (i + 1) j) -
             get velocX (FluidSolver.IX N (i - 1) j) +
             get velocY (FluidSolver.IX N i (j + 1)) -
             get velocY (FluidSolver.IX N i (j - 1))) /
          Num.of_Z N)%num) div)
  end.
  rewrite (map_interior_ext N _
             (λ i j _, discrete_divergence N velocX velocY i j)).
  2:{ intros i j v Hi Hj. unfold discrete_divergence.
      by rewrite add_sub_assoc. }
  cbv zeta.
  set (div' := FluidSolver.set_bnd N 0 _).
  set (p' := FluidSolver.lin_solve N 0 _ div' Num.one (Num.of_Z 6) iter).
  pose proof (nested_pair N
    (λ j i vx, set vx (FluidSolver.IX N i j)
                 (get vx (FluidSolver.IX N i j) - gradient_x N p' i j)%num)
    (λ j i vy, set vy (FluidSolver.IX N i j)
                 (get vy (FluidSolver.IX N i j) - gradient_y N p' i j)%num)
    velocX velocY) as H2.
  cbv beta in H2.
  match type of H2 with ?lhs = _ =>
    match goal with |- context [for_range 1 N ?body (velocX, velocY)] =>
      change (for_range 1 N body (velocX, velocY)) with lhs
    end
  end.
  rewrite H2. clear H2. reflexivity.
Qed.

(** The projection overwrites its two work buffers. *)
Lemma project_independent N velocX velocY p div p' div' iter :
  1 ≤ N → sized N p → sized N div → sized N p' → sized N div' →
  FluidSolver.project N velocX velocY p div iter
    = FluidSolver.project N velocX velocY p' div' iter.
Proof.
  intros HN Hp Hd Hp' Hd'. rewrite !project_unfold by done. cbv zeta.
  by rewrite (overwrite_independent N 0
                (discrete_divergence N velocX velocY) div div').
Qed.

(** ** The tick, stage by stage *)

Lemma project_lengths N velocX velocY p div iter :
  let '(velocX', velocY', p', div') :=
    FluidSolver.project N velocX velocY p div iter in
  length velocX' = length velocX ∧ length velocY' = length velocY ∧
  length p' = length p ∧ length div' = length div.
Proof.
  unfold FluidSolver.project.
  match goal with |- context [for_range 1 N ?body (div, p)] =>
    assert (length (for_range 1 N body (div, p)).1 = length div ∧
            length (for_range 1 N body (div, p)).2 = length p) as H1;
    [|destruct (for_range 1 N body (div, p)) as [div1 p1]]
  end.
  { apply (for_range_inv
             (λ st, length st.1 = length div ∧ length st.2 = length p));
      [done|].
    intros j st Hj Hst.
    apply (for_range_inv
             (λ st, length st.1 = length div ∧ length st.2 = length p));
      [done|].
    intros i [div' p'] Hi [Hd' Hp']. cbn [fst snd] in *.
    by rewrite !length_set. }
  cbn [fst snd] in H1. destruct H1 as [Hd1 Hp1].
  match goal with |- context [for_range 1 N ?body (velocX, velocY)] =>
    assert (length (for_range 1 N body (velocX, velocY)).1 = length velocX ∧
            length (for_range 1 N body (velocX, velocY)).2 = length velocY)
      as H2;
    [|destruct (for_range 1 N body (velocX, velocY)) as [vx1 vy1]]
  end.
  { apply (for_range_inv
             (λ st, length st.1 = length velocX ∧
                    length st.2 = length velocY)); [done|].
    intros j st Hj Hst.
    apply (for_range_inv
             (λ st, length st.1 = length velocX ∧
                    length st.2 = length velocY)); [done|].
    intros i [vx' vy'] Hi [Hx' Hy']. cbn [fst snd] in *.
    by rewrite !length_set. }
  cbn [fst snd] in H2. destruct H2 as [Hx2 Hy2].
  by rewrite !length_set_bnd, length_lin_solve, length_set_bnd.
Qed.

Lemma project_sized N velocX velocY p div iter :
  sized N velocX → sized N velocY → sized N p → sized N div →
  let '(velocX', velocY', p', div') :=
    FluidSolver.project N velocX velocY p div iter in
  sized N velocX' ∧ sized N velocY' ∧ sized N p' ∧ sized N div'.
Proof.
  intros Hx Hy Hp Hd.
  pose proof (project_lengths N velocX velocY p div iter) as H.
  destruct (FluidSolver.project N velocX velocY p div iter)
    as [[[vx' vy'] p'] div'].
  destruct H as (E1 & E2 & E3 & E4). unfold sized.
  by rewrite E1, E2, E3, E4.
Qed.

Lemma step_shape fs iter r :
  wf fs →
  wf (FluidSolver.step fs iter r) ∧
  FluidSolver.size (FluidSolver.step fs iter r) = FluidSolver.size fs ∧
  FluidSolver.dt (FluidSolver.step fs iter r) = FluidSolver.dt fs ∧
  FluidSolver.diff (FluidSolver.step fs iter r) = FluidSolver.diff fs ∧
  FluidSolver.visc (FluidSolver.step fs iter r) = FluidSolver.visc fs.
Proof.
  intros [Hs Hd Hx Hy Hx0 Hy0].
  destruct fs as [N dt diff visc s density Vx Vy Vx0 Vy0].
  cbn [FluidSolver.size FluidSolver.dt FluidSolver.diff FluidSolver.visc
       FluidSolver.s FluidSolver.density FluidSolver.Vx FluidSolver.Vy
       FluidSolver.Vx0 FluidSolver.Vy0] in *.
  unfold FluidSolver.step.
  cbn [FluidSolver.size FluidSolver.dt FluidSolver.diff FluidSolver.visc
       FluidSolver.s FluidSolver.density FluidSolver.Vx FluidSolver.Vy
       FluidSolver.Vx0 FluidSolver.Vy0].
  assert (sized N (FluidSolver.diffuse N 1 Vx0 Vx visc dt iter)) as H1
    by (unfold sized; by rewrite length_diffuse).
  assert (sized N (FluidSolver.diffuse N 2 Vy0 Vy visc dt iter)) as H2
    by (unfold sized; by rewrite length_diffuse).
  pose proof (project_sized N _ _ Vx Vy iter H1 H2 Hx Hy) as Hp1.
  destruct (FluidSolver.project N _ _ Vx Vy iter) as [[[a b] c] e].
  destruct Hp1 as (Ha & Hb & Hc & He).
  assert (sized N (FluidSolver.advect N 1 c a a b dt)) as H3
    by (unfold sized; by rewrite length_advect).
  assert (sized N (FluidSolver.advect N 2 e b a b dt)) as H4
    by (unfold sized; by rewrite length_advect).
  pose proof (project_sized N _ _ a b iter H3 H4 Ha Hb) as Hp2.
  destruct (FluidSolver.project N _ _ a b iter) as [[[a' b'] c'] e'].
  destruct Hp2 as (Ha' & Hb' & Hc' & He').
  split; [|by repeat split].
  split;
    cbn [FluidSolver.size FluidSolver.dt FluidSolver.diff FluidSolver.visc
         FluidSolver.s FluidSolver.density FluidSolver.Vx FluidSolver.Vy
         FluidSolver.Vx0 FluidSolver.Vy0].
  - unfold sized. rewrite length_diffuse. exact Hs.
  - unfold sized. rewrite length_fade, length_advect. exact Hd.
  - exact Ha'.
  - exact Hb'.
  - exact Hc'.
  - exact He'.
Qed.

(** The tick reads the density, [Vx] and [Vy] of the solver only as the
    sources of the three diffusions. *)
Lemma step_congruence fs fs' iter r :
  1 ≤ FluidSolver.size fs → wf fs → wf fs' →
  FluidSolver.size fs' = FluidSolver.size fs →
  FluidSolver.dt fs' = FluidSolver.dt fs →
  FluidSolver.diff fs' = FluidSolver.diff fs →
  FluidSolver.visc fs' = FluidSolver.visc fs →
  FluidSolver.s fs' = FluidSolver.s fs →
  FluidSolver.Vx0 fs' = FluidSolver.Vx0 fs →
  FluidSolver.Vy0 fs' = FluidSolver.Vy0 fs →
  (let N := FluidSolver.size fs in
   FluidSolver.diffuse N 1 (FluidSolver.Vx0 fs) (FluidSolver.Vx fs')
     (FluidSolver.visc fs) (FluidSolver.dt fs) iter
   = FluidSolver.diffuse N 1 (FluidSolver.Vx0 fs) (FluidSolver.Vx fs)
       (FluidSolver.visc fs) (FluidSolver.dt fs) iter) →
  (let N := FluidSolver.size fs in
   FluidSolver.diffuse N 2 (FluidSolver.Vy0 fs) (FluidSolver.Vy fs')
     (FluidSolver.visc fs) (FluidSolver.dt fs) iter
   = FluidSolver.diffuse N 2 (FluidSolver.Vy0 fs) (FluidSolver.Vy fs)
       (FluidSolver.visc fs) (FluidSolver.dt fs) iter) →
  (let N := FluidSolver.size fs in
   FluidSolver.diffuse N 0 (FluidSolver.s fs) (FluidSolver.density fs')
     (FluidSolver.diff fs) (FluidSolver.dt fs) iter
   = FluidSolver.diffuse N 0 (FluidSolver.s fs) (FluidSolver.density fs)
       (FluidSolver.diff fs) (FluidSolver.dt fs) iter) →
  FluidSolver.step fs' iter r = FluidSolver.step fs iter r.
Proof.
  intros HN [Hs Hd Hx Hy Hx0 Hy0] [Hs' Hd' Hx' Hy' Hx0' Hy0'].
  destruct fs as [N dt diff visc s density Vx Vy Vx0 Vy0].
  destruct fs' as [N' dt' diff' visc' s' density' Vx' Vy' Vx0' Vy0'].
  cbn [FluidSolver.size FluidSolver.dt FluidSolver.diff FluidSolver.visc
       FluidSolver.s FluidSolver.density FluidSolver.Vx FluidSolver.Vy
       FluidSolver.Vx0 FluidSolver.Vy0] in *.
  intros -> -> -> -> -> -> -> E1 E2 E3. cbv zeta in E1, E2, E3.
  unfold FluidSolver.step.
  cbn [FluidSolver.size FluidSolver.dt FluidSolver.diff FluidSolver.visc
       FluidSolver.s FluidSolver.density FluidSolver.Vx FluidSolver.Vy
       FluidSolver.Vx0 FluidSolver.Vy0].
  rewrite E1, E2, E3.
  rewrite (project_independent N _ _ Vx' Vy' Vx Vy) by done.
  assert (sized N (FluidSolver.diffuse N 1 Vx0 Vx visc dt iter)) as H1
    by (unfold sized; by rewrite length_diffuse).
  assert (sized N (FluidSolver.diffuse N 2 Vy0 Vy visc dt iter)) as H2
    by (unfold sized; by rewrite length_diffuse).
  pose proof (project_sized N _ _ Vx Vy iter H1 H2 Hx Hy) as Hp1.
  destruct (FluidSolver.project N _ _ Vx Vy iter) as [[[a b] c] e].
  destruct (FluidSolver.project N _ _ a b iter) as [[[a' b'] c'] e'].
  by rewrite (advect_independent N 0 density' density).
Qed.


(** X1: on a grid of resolution N (at least -1), the offset computed by
    [IX] can be decoded: the remainder of the offset by N + 2 is the clamped
    x and the quotient is the clamped y; every offset of the padded grid is
    the offset of the cell (offset mod (N + 2), offset / (N + 2)); and two
    cells of the padded grid with the same offset are the same cell. *)
Theorem IX_round_trip (N : Z) :
  -1 ≤ N →
  (∀ x y,
     FluidSolver.IX N x y mod (N + 2) = clamp 0 (N + 1) x ∧
     FluidSolver.IX N x y / (N + 2) = clamp 0 (N + 1) y) ∧
  (∀ k, 0 ≤ k < (N + 2) * (N + 2) →
     FluidSolver.IX N (k mod (N + 2)) (k / (N + 2)) = k) ∧
  (∀ x y x' y',
     0 ≤ x ≤ N + 1 → 0 ≤ y ≤ N + 1 → 0 ≤ x' ≤ N + 1 → 0 ≤ y' ≤ N + 1 →
     FluidSolver.IX N x y = FluidSolver.IX N x' y' → x = x' ∧ y = y').
Proof.
  intros HN. split; [|split].
  - intros x y. by apply IX_div_mod.
  - intros k Hk. by apply IX_of_offset.
  - intros x y x' y'. by apply IX_inj.
Qed.

Lemma IX_round_trip_witness :
  FluidSolver.IX 4 9 2 mod 6 = 5 ∧ FluidSolver.IX 4 9 2 / 6 = 2 ∧
  FluidSolver.IX 4 (17 mod 6) (17 / 6) = 17.
Proof.
  pose proof (IX_round_trip 4 ltac:(lia)) as (H1 & H2 & _).
  destruct (H1 9 2) as [E1 E2].
  split; [exact E1|]. split; [exact E2|]. apply H2. lia.
Defined.



(** X3: on a grid with at least one interior cell per axis, the result of
    the boundary handler depends on the interior cells of its argument
    only: two buffers that agree on the interior have the same image.  In
    particular the handler is idempotent. *)
Theorem set_bnd_forgets_boundary (N b : Z) (x y : Float32Array) :
  1 ≤ N → sized N x → sized N y →
  ((∀ i j, 1 ≤ i ≤ N → 1 ≤ j ≤ N →
      get x (FluidSolver.IX N i j) = get y (FluidSolver.IX N i j)) →
   FluidSolver.set_bnd N b x = FluidSolver.set_bnd N b y) ∧
  FluidSolver.set_bnd N b (FluidSolver.set_bnd N b x)
    = FluidSolver.set_bnd N b x.
Proof.
  intros HN Hx Hy. split.
  - by apply set_bnd_interior_determined.
  - by apply set_bnd_idem.
Qed.

Lemma set_bnd_forgets_boundary_witness :
  FluidSolver.set_bnd 2 1 (FluidSolver.set_bnd 2 1 sample4x4)
    = FluidSolver.set_bnd 2 1 sample4x4.
Proof.
  apply (set_bnd_forgets_boundary 2 1 sample4x4 sample4x4);
    [lia | reflexivity | reflexivity].
Defined.

(** X4: the relaxation solver run with a non-positive iteration count
    returns its buffer unchanged, and sweeps compose: running k2 more
    iterations on the result of k1 iterations is running k1 + k2
    iterations.  The same holds of [diffuse]. *)
Theorem lin_solve_sweeps_compose (N b : Z) (x x0 : Float32Array)
    (a c k dt : number) (k1 k2 : Z) :
  0 ≤ k1 → 0 ≤ k2 →
  FluidSolver.lin_solve N b (FluidSolver.lin_solve N b x x0 a c k1) x0 a c k2
    = FluidSolver.lin_solve N b x x0 a c (k1 + k2) ∧
  FluidSolver.diffuse N b (FluidSolver.diffuse N b x x0 k dt k1) x0 k dt k2
    = FluidSolver.diffuse N b x x0 k dt (k1 + k2) ∧
  (∀ iter, iter ≤ 0 →
     FluidSolver.lin_solve N b x x0 a c iter = x ∧
     FluidSolver.diffuse N b x x0 k dt iter = x).
Proof.
  intros H1 H2. unfold FluidSolver.diffuse.
  split; [exact (lin_solve_add N b x x0 a c k1 k2 H1 H2)|].
  split; [exact (lin_solve_add N b x x0 _ _ k1 k2 H1 H2)|].
  intros iter Hi. split; exact (lin_solve_none N b x x0 _ _ iter Hi).
Qed.

Lemma lin_solve_sweeps_compose_witness :
  FluidSolver.lin_solve 2 0
    (FluidSolver.lin_solve 2 0 sample4x4 sample4x4 Num.one (Num.of_Z 6) 2)
    sample4x4 Num.one (Num.of_Z 6) 1
  = FluidSolver.lin_solve 2 0 sample4x4 sample4x4 Num.one (Num.of_Z 6) (2 + 1).
Proof.
  pose proof (lin_solve_sweeps_compose 2 0 sample4x4 sample4x4
                Num.one (Num.of_Z 6) Num.zero Num.zero 2 1
                ltac:(lia) ltac:(lia)) as (H & _).
  exact H.
Defined.

(** X5: on a grid with at least one interior cell per axis, every stage
    ends on the boundary handler: the buffer written by the relaxation
    solver and by [diffuse] (run with at least one iteration) and the
    buffer written by [advect] obey the boundary policy of their kind
    [b], whatever they held before. *)
Theorem stages_obey_boundary_policy (N b : Z) (x x0 d d0 velocX velocY
    : Float32Array) (a c k dt : number) (iter : Z) :
  1 ≤ N → sized N x → sized N d → 1 ≤ iter →
  boundary_policy N b (FluidSolver.lin_solve N b x x0 a c iter) ∧
  boundary_policy N b (FluidSolver.diffuse N b x x0 k dt iter) ∧
  boundary_policy N b (FluidSolver.advect N b d d0 velocX velocY dt).
Proof.
  intros HN Hx Hd Hiter.
  assert (∀ a c, boundary_policy N b
                   (FluidSolver.lin_solve N b x x0 a c iter)) as H.
  { intros a' c'. rewrite lin_solve_last by done. unfold sweep.
    apply set_bnd_obeys; [done|]. unfold sized.
    by rewrite length_relax, length_lin_solve. }
  split; [exact (H a c)|]. split; [exact (H _ _)|].
  rewrite advect_unfold. apply set_bnd_obeys; [done|].
  by apply sized_map_interior.
Qed.

Lemma stages_obey_boundary_policy_witness :
  boundary_policy 2 2
    (FluidSolver.diffuse 2 2 sample4x4 sample4x4 (Fin (1 # 3)) Num.one 2) ∧
  boundary_policy 2 2
    (FluidSolver.advect 2 2 sample4x4 sample4x4 sample4x4 sample4x4 Num.one).
Proof.
  pose proof (stages_obey_boundary_policy 2 2 sample4x4 sample4x4 sample4x4
                sample4x4 sample4x4 sample4x4 Num.one Num.one (Fin (1 # 3))
                Num.one 2 ltac:(lia) eq_refl eq_refl ltac:(lia))
    as (_ & H2 & H3).
  split; [exact H2 | exact H3].
Defined.

(** X6: on a grid with at least one interior cell per axis, [advect]
    overwrites every cell of its target buffer [d]: its result does not
    depend on what [d] held. *)
Theorem advect_overwrites_target (N b : Z) (d d' d0 velocX velocY
    : Float32Array) (dt : number) :
  1 ≤ N → sized N d → sized N d' →
  FluidSolver.advect N b d d0 velocX velocY dt
    = FluidSolver.advect N b d' d0 velocX velocY dt.
Proof. apply advect_independent. Qed.

Lemma advect_overwrites_target_witness :
  FluidSolver.advect 2 0 sample4x4 sample4x4 sample4x4 sample4x4 Num.one
    = FluidSolver.advect 2 0 (new_array 16) sample4x4 sample4x4 sample4x4
        Num.one.
Proof.
  apply advect_overwrites_target; [lia | reflexivity | reflexivity].
Defined.

(** X7: a tick keeps the shape of the solver: whatever the iteration count
    and the fade rate, the resolution, the time step, the diffusion rate and
    the viscosity are unchanged and each of the six buffers keeps its
    length. *)
Theorem step_keeps_shape (fs : FluidSolver.t) (iter : Z) (fadeRate : number) :
  wf fs →
  let fs' := FluidSolver.step fs iter fadeRate in
  wf fs' ∧
  FluidSolver.size fs' = FluidSolver.size fs ∧
  FluidSolver.dt fs' = FluidSolver.dt fs ∧
  FluidSolver.diff fs' = FluidSolver.diff fs ∧
  FluidSolver.visc fs' = FluidSolver.visc fs ∧
  Forall2 (λ a' a, length a' = length a) (buffers fs') (buffers fs).
Proof.
  intros Hwf fs'. subst fs'.
  destruct (step_shape fs iter fadeRate Hwf) as (Hwf' & E1 & E2 & E3 & E4).
  split; [done|]. do 4 (split; [done|]).
  destruct Hwf as [H1 H2 H3 H4 H5 H6], Hwf' as [H1' H2' H3' H4' H5' H6'].
  unfold sized in *. rewrite E1 in *. unfold buffers.
  repeat (constructor; [congruence|]). constructor.
Qed.

Lemma step_keeps_shape_witness :
  wf (FluidSolver.step stirred (-3) NaN).
Proof.
  apply (step_keeps_shape stirred (-3) NaN). apply wf_stirred.
Defined.

(** X8: smoke injected on a cell of the border is lost.  On a solver with
    at least one interior cell per axis, if the cell (x, y) is on or beyond
    the ring of boundary cells, a tick after addDensity(x, y, amount) gives
    exactly the solver that the tick gives without the injection. *)
Theorem border_density_is_lost (fs : FluidSolver.t) (x y : Z)
    (amount : number) (iter : Z) (fadeRate : number) :
  wf fs → 1 ≤ FluidSolver.size fs →
  on_border (FluidSolver.size fs) x y →
  FluidSolver.step (FluidSolver.addDensity fs x y amount) iter fadeRate
    = FluidSolver.step fs iter fadeRate.
Proof.
  intros Hwf HN Hb.
  apply step_congruence;
    [exact HN | exact Hwf | | reflexivity.. | | | ]; cbv zeta.
  - destruct Hwf. split; try assumption. simpl. unfold sized.
    rewrite length_set. assumption.
  - reflexivity.
  - reflexivity.
  - simpl. apply diffuse_ext_x0. intros i j Hi Hj.
    apply get_set_border; assumption || lia.
Qed.

Lemma border_density_is_lost_witness :
  FluidSolver.step (FluidSolver.addDensity stirred 0 3 (Fin 40)) 2 Num.zero
    = FluidSolver.step stirred 2 Num.zero.
Proof.
  apply border_density_is_lost.
  - apply wf_stirred.
  - by vm_compute.
  - left. lia.
Defined.

(** X9: velocity injected on a cell of the border is lost in the same
    way. *)
Theorem border_velocity_is_lost (fs : FluidSolver.t) (x y : Z)
    (amountX amountY : number) (iter : Z) (fadeRate : number) :
  wf fs → 1 ≤ FluidSolver.size fs →
  on_border (FluidSolver.size fs) x y →
  FluidSolver.step (FluidSolver.addVelocity fs x y amountX amountY)
    iter fadeRate
  = FluidSolver.step fs iter fadeRate.
Proof.
  intros Hwf HN Hb.
  apply step_congruence;
    [exact HN | exact Hwf | | reflexivity.. | | | ]; cbv zeta.
  - destruct Hwf. split; try assumption; simpl; unfold sized;
      rewrite length_set; assumption.
  - simpl. apply diffuse_ext_x0. intros i j Hi Hj.
    apply get_set_border; assumption || lia.
  - simpl. apply diffuse_ext_x0. intros i j Hi Hj.
    apply get_set_border; assumption || lia.
  - reflexivity.
Qed.

Lemma border_velocity_is_lost_witness :
  FluidSolver.step (FluidSolver.addVelocity stirred 7 2 (Fin 5) (Fin 5))
    2 Num.zero
  = FluidSolver.step stirred 2 Num.zero.
Proof.
  apply border_velocity_is_lost.
  - apply wf_stirred.
  - by vm_compute.
  - right. left. by vm_compute.
Defined.

(** X10: with a non-positive iteration count the tick ignores every
    injection: on a solver with at least one interior cell per axis, the
    tick after addDensity and addVelocity, at any cells and of any amounts,
    gives exactly the solver that the tick gives without them. *)
Theorem no_sweep_ignores_injection (fs : FluidSolver.t) (x y x' y' : Z)
    (amount amountX amountY : number) (iter : Z) (fadeRate : number) :
  wf fs → 1 ≤ FluidSolver.size fs → iter ≤ 0 →
  FluidSolver.step
    (FluidSolver.addVelocity (FluidSolver.addDensity fs x y amount)
       x' y' amountX amountY) iter fadeRate
  = FluidSolver.step fs iter fadeRate.
Proof.
  intros Hwf HN Hi.
  apply step_congruence;
    [exact HN | exact Hwf | | reflexivity.. | | | ]; cbv zeta.
  - destruct Hwf. split; try assumption; simpl; unfold sized;
      rewrite length_set; assumption.
  - unfold FluidSolver.diffuse. rewrite !lin_solve_none by exact Hi.
    reflexivity.
  - unfold FluidSolver.diffuse. rewrite !lin_solve_none by exact Hi.
    reflexivity.
  - unfold FluidSolver.diffuse. rewrite !lin_solve_none by exact Hi.
    reflexivity.
Qed.

Lemma no_sweep_ignores_injection_witness :
  FluidSolver.step
    (FluidSolver.addVelocity (FluidSolver.addDensity stirred 3 3 (Fin 80))
       2 3 (Fin 1) (Fin 1)) 0 Num.zero
  = FluidSolver.step stirred 0 Num.zero.
Proof.
  apply no_sweep_ignores_injection.
  - apply wf_stirred.
  - by vm_compute.
  - lia.
Defined.

(** ** Injection keeps the shape *)

Lemma wf_addDensity fs x y amount :
  wf fs → wf (FluidSolver.addDensity fs x y amount).
Proof.
  intros [Hs Hd Hx Hy Hx0 Hy0]. split; try assumption.
  unfold sized. cbn [FluidSolver.addDensity FluidSolver.density
                     FluidSolver.size].
  rewrite length_set. exact Hd.
Qed.

Lemma wf_addVelocity fs x y amountX amountY :
  wf fs → wf (FluidSolver.addVelocity fs x y amountX amountY).
Proof.
  intros [Hs Hd Hx Hy Hx0 Hy0]. split; try assumption;
    unfold sized;
    cbn [FluidSolver.addVelocity FluidSolver.Vx FluidSolver.Vy
         FluidSolver.size];
    rewrite length_set; assumption.
Qed.

(** ** Values up to representation *)

Lemma same_refl x : same x x.
Proof. by destruct x. Qed.

Lemma same_finite x y : same x y → finite y → finite x.
Proof. by destruct x, y. Qed.

(** ** One sweep, cell by cell *)

Lemma relax_cells N (P : number → Prop) (R : Z → Z → number → Prop)
    x0 a cRecip x :
  1 ≤ N → field N P x →
  (∀ i j n1 n2 n3 n4, 1 ≤ i ≤ N → 1 ≤ j ≤ N →
     P n1 → P n2 → P n3 → P n4 →
     P ((get x0 (FluidSolver.IX N i j) + a * (n1 + n2 + n3 + n4)) *
        cRecip)%num ∧
     R i j ((get x0 (FluidSolver.IX N i j) + a * (n1 + n2 + n3 + n4)) *
            cRecip)%num) →
  field N P (FluidSolver.relax N x0 a cRecip x) ∧
  ∀ i j, 1 ≤ i ≤ N → 1 ≤ j ≤ N →
    R i j (get (FluidSolver.relax N x0 a cRecip x) (FluidSolver.IX N i j)).
Proof.
  intros HN [Hs Hx] Hcell. unfold FluidSolver.relax.
  pose proof (for_range_ind
    (λ n acc, field N P acc ∧
       ∀ cx cy, 1 ≤ cx ≤ N → 1 ≤ cy < n →
         R cx cy (get acc (FluidSolver.IX N cx cy)))) as Houter.
  cbv beta in Houter.
  match goal with |- context [for_range 1 N ?body x] =>
    specialize (Houter 1 N body x)
  end.
  destruct Houter as [Hf Hget]; [lia| | |].
  - split; [done|]. intros; lia.
  - intros j acc Hj [[Hsacc Hacc] Hvis].
    pose proof (for_range_ind
      (λ n acc', field N P acc' ∧
         ∀ cx cy, 1 ≤ cx ≤ N → (1 ≤ cy < j ∨ cy = j ∧ cx < n) →
           R cx cy (get acc' (FluidSolver.IX N cx cy)))) as Hinner.
    cbv beta in Hinner.
    match goal with |- context [for_range 1 N ?body acc] =>
      specialize (Hinner 1 N body acc)
    end.
    destruct Hinner as [Hf' Hget']; [lia| | |].
    + split; [done|]. intros cx cy Hcx [Hcy|[-> Hcy]]; [|lia].
      by apply Hvis.
    + intros i acc' Hi [[Hsacc' Hacc'] Hvis'].
      destruct (Hcell i j
                  (get acc' (FluidSolver.IX N (i + 1) j))
                  (get acc' (FluidSolver.IX N (i - 1) j))
                  (get acc' (FluidSolver.IX N i (j + 1)))
                  (get acc' (FluidSolver.IX N i (j - 1))))
        as [HP HR]; try done;
        try (apply Forall_get_IX; done || lia).
      split; [split|].
      * unfold sized. by rewrite length_set.
      * by apply Forall_set.
      * intros cx cy Hcx Hcy.
        rewrite (get_set_IX N) by (done || lia).
        case_decide as Heq; [by destruct Heq as [-> ->]|].
        apply Hvis'; [done|]. lia.
    + split; [done|]. intros cx cy Hcx Hcy. apply Hget'; [done|]. lia.
  - split; [done|]. intros i j Hi Hj. apply Hget; [done|]. lia.
Qed.

Lemma copy_value v n1 n2 n3 n4 :
  finite v → finite n1 → finite n2 → finite n3 → finite n4 →
  finite ((v + Num.zero * (n1 + n2 + n3 + n4)) * Num.one)%num ∧
  same ((v + Num.zero * (n1 + n2 + n3 + n4)) * Num.one)%num v.
Proof.
  destruct v as [q| | |], n1 as [q1| | |], n2 as [q2| | |],
    n3 as [q3| | |], n4 as [q4| | |]; try done.
  intros _ _ _ _ _. split; [done|]. simpl. rewrite !Qred_correct.
  change (inject_Z 0) with 0%Q. ring.
Qed.

Lemma coefficient_zero_rate N dt :
  finite dt → coefficient N dt Num.zero = Num.zero.
Proof.
  intros Hdt. unfold coefficient.
  rewrite (mul_zero_r dt Hdt). by rewrite !mul_zero_l.
Qed.

Lemma diffuse_copy N b x x0 dt k iter :
  1 ≤ N → 1 ≤ iter → coefficient N dt k = Num.zero →
  field N finite x → field N finite x0 →
  ∀ i j, 1 ≤ i ≤ N → 1 ≤ j ≤ N →
    same (get (FluidSolver.diffuse N b x x0 k dt iter) (FluidSolver.IX N i j))
         (get x0 (FluidSolver.IX N i j)).
Proof.
  intros HN Hiter Hc Hx Hx0 i j Hi Hj. unfold FluidSolver.diffuse.
  fold (coefficient N dt k). rewrite Hc.
  change (Num.one + Num.of_Z 6 * Num.zero)%num with Num.one.
  rewrite lin_solve_last by done. unfold sweep.
  change (Num.one / Num.one)%num with Num.one.
  pose proof (lin_solve_finite N ltac:(lia) b x x0 Num.zero Num.one
                (iter - 1) I I Hx Hx0) as Hprev.
  destruct (relax_cells N finite
              (λ i j v, same v (get x0 (FluidSolver.IX N i j)))
              x0 Num.zero Num.one _ HN Hprev) as [[Hs1 _] Hcells].
  { intros i' j' n1 n2 n3 n4 Hi' Hj' H1 H2 H3 H4.
    apply copy_value; try done. destruct Hx0. apply Forall_get_IX; done || lia. }
  destruct (set_bnd_cells N b HN _ Hs1) as (Hint & _).
  rewrite Hint by done. by apply Hcells.
Qed.

(** ** Where the fluid is still *)

Lemma still_value a b c d :
  finite a → finite b → finite c → finite d →
  same (Num.one * (Num.one * a + Num.zero * b) +
        Num.zero * (Num.one * c + Num.zero * d))%num a.
Proof.
  destruct a as [qa| | |], b as [qb| | |], c as [qc| | |], d as [qd| | |];
    try done.
  intros _ _ _ _. simpl. rewrite !Qred_correct. ring.
Qed.

Lemma advect_still_cell N b d d0 velocX velocY dt i j :
  1 ≤ N → sized N d → field N finite d0 → finite dt →
  1 ≤ i ≤ N → 1 ≤ j ≤ N →
  get velocX (FluidSolver.IX N i j) = Num.zero →
  get velocY (FluidSolver.IX N i j) = Num.zero →
  same (get (FluidSolver.advect N b d d0 velocX velocY dt)
          (FluidSolver.IX N i j))
       (get d0 (FluidSolver.IX N i j)).
Proof.
  intros HN Hd [Hs0 Hd0] Hdt Hi Hj Hvx Hvy.
  rewrite advect_interior by done.
  rewrite (advect_cell_at_rest N) by (done || by apply finite_mul).
  apply still_value; apply Forall_get_IX; done || lia.
Qed.

(** ** Advection stays between the extremes of its source *)

Lemma between_finite lo hi x : between lo hi x → finite x.
Proof. by destruct x. Qed.

Lemma bilinear_between (lo hi s1 t1 a b c d : Q) :
  (0 <= s1 <= 1)%Q → (0 <= t1 <= 1)%Q →
  (lo <= a <= hi)%Q → (lo <= b <= hi)%Q →
  (lo <= c <= hi)%Q → (lo <= d <= hi)%Q →
  (lo <= (1 - s1) * ((1 - t1) * a + t1 * b) + s1 * ((1 - t1) * c + t1 * d)
      <= hi)%Q.
Proof.
  intros Hs Ht Ha Hb Hc Hd.
  pose proof (bilinear_nonneg s1 t1 (a - lo) (b - lo) (c - lo) (d - lo)
                Hs Ht ltac:(lra) ltac:(lra) ltac:(lra) ltac:(lra)) as H1.
  pose proof (bilinear_nonneg s1 t1 (hi - a) (hi - b) (hi - c) (hi - d)
                Hs Ht ltac:(lra) ltac:(lra) ltac:(lra) ltac:(lra)) as H2.
  split; lra.
Qed.

Lemma advect_cell_between (lo hi : Q) N d0 velocX velocY dt0 i j :
  0 ≤ N → finite dt0 →
  finite (get velocX (FluidSolver.IX N i j)) →
  finite (get velocY (FluidSolver.IX N i j)) →
  field N (between lo hi) d0 →
  between lo hi (FluidSolver.advect_cell N d0 velocX velocY dt0 i j).
Proof.
  intros HN Hdt Hvx Hvy [Hs Hd0].
  destruct (advect_cell_convex N d0 velocX velocY dt0 i j)
    as (s1 & t1 & a & b & c & d' & v & Hs1 & Ht1 & Ha & Hb & Hc & Hd'
        & -> & Hv); try done.
  { eapply Forall_impl; [exact Hd0|]. intros w. apply between_finite. }
  rewrite Forall_forall in Hd0.
  pose proof (Hd0 (Fin a) Ha) as Ha'. pose proof (Hd0 (Fin b) Hb) as Hb'.
  pose proof (Hd0 (Fin c) Hc) as Hc'. pose proof (Hd0 (Fin d') Hd') as Hd''.
  simpl in *.
  pose proof (bilinear_between lo hi s1 t1 a b c d' Hs1 Ht1 Ha' Hb' Hc' Hd'').
  lra.
Qed.

(** ** The tick, with its intermediate buffers named *)

Lemma step_stages fs iter r :
  wf fs →
  let N := FluidSolver.size fs in
  let dt := FluidSolver.dt fs in
  ∃ vx0 vy0 p div vx vy vx' vy' p' div',
    FluidSolver.project N
      (FluidSolver.diffuse N 1 (FluidSolver.Vx0 fs) (FluidSolver.Vx fs)
         (FluidSolver.visc fs) dt iter)
      (FluidSolver.diffuse N 2 (FluidSolver.Vy0 fs) (FluidSolver.Vy fs)
         (FluidSolver.visc fs) dt iter)
      (FluidSolver.Vx fs) (FluidSolver.Vy fs) iter = (vx0, vy0, p, div) ∧
    vx = FluidSolver.advect N 1 p vx0 vx0 vy0 dt ∧
    vy = FluidSolver.advect N 2 div vy0 vx0 vy0 dt ∧
    FluidSolver.project N vx vy vx0 vy0 iter = (vx', vy', p', div') ∧
    sized N vx0 ∧ sized N vy0 ∧ sized N vx ∧ sized N vy ∧
    sized N vx' ∧ sized N vy' ∧
    FluidSolver.step fs iter r =
      {| FluidSolver.size := N;
         FluidSolver.dt := dt;
         FluidSolver.diff := FluidSolver.diff fs;
         FluidSolver.visc := FluidSolver.visc fs;
         FluidSolver.s :=
           FluidSolver.diffuse N 0 (FluidSolver.s fs) (FluidSolver.density fs)
             (FluidSolver.diff fs) dt iter;
         FluidSolver.density :=
           FluidSolver.fade r
             (FluidSolver.advect N 0 (FluidSolver.density fs)
                (FluidSolver.diffuse N 0 (FluidSolver.s fs)
                   (FluidSolver.density fs) (FluidSolver.diff fs) dt iter)
                vx' vy' dt);
         FluidSolver.Vx := vx'; FluidSolver.Vy := vy';
         FluidSolver.Vx0 := p'; FluidSolver.Vy0 := div' |}.
Proof.
  intros [Hs Hd Hx Hy Hx0 Hy0].
  destruct fs as [N dt diff visc s density Vx Vy Vx0 Vy0].
  cbn [FluidSolver.size FluidSolver.dt FluidSolver.diff FluidSolver.visc
       FluidSolver.s FluidSolver.density FluidSolver.Vx FluidSolver.Vy
       FluidSolver.Vx0 FluidSolver.Vy0] in *.
  unfold FluidSolver.step.
  cbn [FluidSolver.size FluidSolver.dt FluidSolver.diff FluidSolver.visc
       FluidSolver.s FluidSolver.density FluidSolver.Vx FluidSolver.Vy
       FluidSolver.Vx0 FluidSolver.Vy0].
  assert (sized N (FluidSolver.diffuse N 1 Vx0 Vx visc dt iter)) as H1
    by (unfold sized; by rewrite length_diffuse).
  assert (sized N (FluidSolver.diffuse N 2 Vy0 Vy visc dt iter)) as H2
    by (unfold sized; by rewrite length_diffuse).
  pose proof (project_sized N _ _ Vx Vy iter H1 H2 Hx Hy) as Hp1.
  destruct (FluidSolver.project N _ _ Vx Vy iter) as [[[a b] c] e].
  destruct Hp1 as (Ha & Hb & Hc & He).
  assert (sized N (FluidSolver.advect N 1 c a a b dt)) as H3
    by (unfold sized; by rewrite length_advect).
  assert (sized N (FluidSolver.advect N 2 e b a b dt)) as H4
    by (unfold sized; by rewrite length_advect).
  pose proof (project_sized N _ _ a b iter H3 H4 Ha Hb) as Hp2.
  destruct (FluidSolver.project N _ _ a b iter) as [[[a' b'] c'] e'] eqn:E2.
  destruct Hp2 as (Ha' & Hb' & Hc' & He').
  exists a, b, c, e, (FluidSolver.advect N 1 c a a b dt),
    (FluidSolver.advect N 2 e b a b dt), a', b', c', e'.
  split; [reflexivity|]. split; [reflexivity|]. split; [reflexivity|].
  split; [exact E2|].
  split; [exact Ha|]. split; [exact Hb|]. split; [exact H3|].
  split; [exact H4|]. split; [exact Ha'|]. split; [exact Hb'|].
  reflexivity.
Qed.

Lemma boundary_policy_zero N b :
  1 ≤ N → boundary_policy N b (new_array ((N + 2) * (N + 2))).
Proof.
  intros HN.
  assert (sized N (new_array ((N + 2) * (N + 2)))) as Hs
    by apply length_new_array.
  rewrite <- (set_bnd_zero N ltac:(lia) b (new_array ((N + 2) * (N + 2)))).
  - by apply set_bnd_obeys.
  - apply all_zero_new_array.
  - exact Hs.
Qed.

Lemma project_obeys N velocX velocY p div iter :
  1 ≤ N → sized N velocX → sized N velocY → sized N p → sized N div →
  let '(velocX', velocY', p', div') :=
    FluidSolver.project N velocX velocY p div iter in
  boundary_policy N 1 velocX' ∧ boundary_policy N 2 velocY' ∧
  boundary_policy N 0 p' ∧ boundary_policy N 0 div'.
Proof.
  intros HN Hx Hy Hp Hd. rewrite project_unfold by done. cbv zeta.
  assert (sized N (map_interior N
            (λ i j _, discrete_divergence N velocX velocY i j) div)) as Hd1
    by (by apply sized_map_interior).
  split; [|split; [|split]].
  - apply set_bnd_obeys; [done|]. by apply sized_map_interior.
  - apply set_bnd_obeys; [done|]. by apply sized_map_interior.
  - apply lin_solve_obeys; [done| |].
    + apply length_new_array.
    + by apply boundary_policy_zero.
  - by apply set_bnd_obeys.
Qed.

(** ** Dissipation *)

Lemma fade_finite r d :
  finite r → Forall finite d → Forall finite (FluidSolver.fade r d).
Proof.
  intros Hr Hd. rewrite fade_map. destruct (Num.ltb Num.zero r); [|done].
  apply Forall_fmap. eapply Forall_impl; [exact Hd|].
  intros v Hv. unfold compose.
  destruct v as [q| | |], r as [p| | |]; try done.
  simpl. by destruct (_ ?= _)%Q.
Qed.

Lemma fade_clamps (r : Q) d :
  (0 < r)%Q → Forall finite d → Forall nonneg (FluidSolver.fade (Fin r) d).
Proof.
  intros Hr Hd. rewrite fade_map.
  assert (Num.ltb Num.zero (Fin r) = true) as ->
    by (by apply ltb_Fin_true).
  apply Forall_fmap. eapply Forall_impl; [exact Hd|].
  intros v Hv. unfold compose. destruct v as [q| | |]; try done.
  change (Fin q * (Num.one - Fin r))%num
    with (Fin (Qred (q * Qred (1 - r)))).
  unfold Num.max, Num.zero.
  destruct (Num.ltb _ _) eqn:E; [|done].
  apply ltb_Fin in E. simpl. lra.
Qed.

Lemma fade_clears (r : Q) d :
  (1 <= r)%Q → Forall nonneg d → all_zero (FluidSolver.fade (Fin r) d).
Proof.
  intros Hr Hd. rewrite fade_map.
  assert (Num.ltb Num.zero (Fin r) = true) as ->
    by (apply ltb_Fin_true; lra).
  apply Forall_fmap. eapply Forall_impl; [exact Hd|].
  intros v Hv. unfold compose. destruct v as [q| | |]; try done.
  simpl in Hv.
  change (Fin q * (Num.one - Fin r))%num
    with (Fin (Qred (q * Qred (1 - r)))).
  unfold Num.max, Num.zero. rewrite ltb_Fin_false; [done|].
  rewrite !Qred_correct. nra.
Qed.

(** The density and the work buffer after a tick over finite buffers. *)
Lemma step_finite_density fs iter r :
  regular fs →
  Forall finite (FluidSolver.density fs) → Forall finite (FluidSolver.s fs) →
  ∃ d, Forall finite d ∧
       FluidSolver.density (FluidSolver.step fs iter r)
         = FluidSolver.fade r d ∧
       Forall finite (FluidSolver.s (FluidSolver.step fs iter r)).
Proof.
  intros [Hwf HN Hdt Hdiff Hvisc Hx Hy Hx0 Hy0] Hd Hs.
  destruct (step_density fs iter r Hwf ltac:(lia) (nonneg_finite _ Hdt)
              Hvisc Hx Hy Hx0 Hy0)
    as (vx & vy & Hvx & Hvy & _ & Hs' & Hd' & _).
  assert (field (FluidSolver.size fs) finite
            (FluidSolver.s (FluidSolver.step fs iter r))) as Hfs.
  { rewrite Hs'. apply diffuse_finite; [lia| | |].
    - by apply nonneg_relaxable.
    - split; [apply Hwf|done].
    - split; [apply Hwf|done]. }
  eexists. split; [|split; [exact Hd'|apply Hfs]].
  apply advect_finite; try done; try lia.
  - by apply nonneg_finite.
  - split; [apply Hwf|done].
Qed.


(** X11: with a diffusion rate of zero (the rate the application uses for
    the smoke), on a grid with at least one interior cell per axis and with
    at least one iteration, [diffuse] copies the source: every interior
    cell of the result has the value of the same cell of [x0], for finite
    buffers and a finite time step. *)
Theorem diffuse_without_diffusion_copies (N b : Z) (x x0 : Float32Array)
    (dt : number) (iter : Z) :
  1 ≤ N → 1 ≤ iter → finite dt →
  field N finite x → field N finite x0 →
  ∀ i j, 1 ≤ i ≤ N → 1 ≤ j ≤ N →
    same (get (FluidSolver.diffuse N b x x0 Num.zero dt iter)
            (FluidSolver.IX N i j))
         (get x0 (FluidSolver.IX N i j)).
Proof.
  intros HN Hiter Hdt Hx Hx0. apply diffuse_copy; try done.
  by apply coefficient_zero_rate.
Qed.

Lemma diffuse_without_diffusion_copies_witness :
  same (get (FluidSolver.diffuse 2 0 (new_array 16) sample4x4 Num.zero
               (Fin (1 # 10)) 3) (FluidSolver.IX 2 2 1))
       (get sample4x4 (FluidSolver.IX 2 2 1)).
Proof.
  apply diffuse_without_diffusion_copies; try lia; try exact I.
  - split; [reflexivity|]. apply Forall_replicate. exact I.
  - split; [reflexivity|]. by_cells.
Defined.













(** X18: a tick leaves buffers that are consistent at the boundary.  On a
    solver with at least one interior cell per axis, after a tick Vx obeys
    the velocity-x boundary policy and Vy the velocity-y one; Vx0 and Vy0,
    which the last projection used for the pressure and the divergence,
    obey the scalar policy; with at least one iteration so does the work
    buffer [s]; and so does the density when the fade rate is not
    positive. *)
Theorem step_ends_consistent_at_boundary (fs : FluidSolver.t) (iter : Z)
    (fadeRate : number) :
  wf fs → 1 ≤ FluidSolver.size fs →
  let N := FluidSolver.size fs in
  let fs' := FluidSolver.step fs iter fadeRate in
  boundary_policy N 1 (FluidSolver.Vx fs') ∧
  boundary_policy N 2 (FluidSolver.Vy fs') ∧
  boundary_policy N 0 (FluidSolver.Vx0 fs') ∧
  boundary_policy N 0 (FluidSolver.Vy0 fs') ∧
  (1 ≤ iter → boundary_policy N 0 (FluidSolver.s fs')) ∧
  (Num.ltb Num.zero fadeRate = false →
   boundary_policy N 0 (FluidSolver.density fs')).
Proof.
  intros Hwf HN N fs'. subst N fs'.
  destruct (step_stages fs iter fadeRate Hwf)
    as (vx0 & vy0 & p & div & vx & vy & vx' & vy' & p' & div' &
        E1 & Evx & Evy & E2 & Hvx0 & Hvy0 & Hvx & Hvy & Hvx' & Hvy' & ->).
  cbn [FluidSolver.size FluidSolver.dt FluidSolver.diff FluidSolver.visc
       FluidSolver.s FluidSolver.density FluidSolver.Vx FluidSolver.Vy
       FluidSolver.Vx0 FluidSolver.Vy0].
  pose proof (project_obeys (FluidSolver.size fs) vx vy vx0 vy0 iter
                HN Hvx Hvy Hvx0 Hvy0) as Hp.
  rewrite E2 in Hp. destruct Hp as (B1 & B2 & B3 & B4).
  do 4 (split; [assumption|]). split.
  - intros Hiter. unfold FluidSolver.diffuse.
    rewrite lin_solve_last by done. unfold sweep.
    apply set_bnd_obeys; [done|]. unfold sized.
    rewrite length_relax, length_lin_solve. apply Hwf.
  - intros Hr. unfold FluidSolver.fade. rewrite Hr.
    rewrite advect_unfold. apply set_bnd_obeys; [done|].
    apply sized_map_interior. apply Hwf.
Qed.

Lemma step_ends_consistent_at_boundary_witness :
  boundary_policy 4 1 (FluidSolver.Vx (FluidSolver.step stirred 2 Num.zero)) ∧
  boundary_policy 4 0 (FluidSolver.Vx0 (FluidSolver.step stirred 2 Num.zero)).
Proof.
  pose proof (step_ends_consistent_at_boundary stirred 2 Num.zero wf_stirred)
    as H.
  destruct H as (H1 & _ & H3 & _); [by vm_compute|].
  split; [exact H1 | exact H3].
Defined.

Lemma same_trans x y z : same x y → same y z → same x z.
Proof.
  destruct x as [a| | |], y as [b| | |], z as [c| | |]; try done.
  simpl. intros -> ->. reflexivity.
Qed.

(** ** Where the time step or the grid leaves nothing to move *)

(** When [dt0] is zero, backtracing lands on the cell itself. *)
Lemma advect_cell_frozen N d0 velocX velocY i j :
  -1 ≤ N → 1 ≤ i ≤ N → 1 ≤ j ≤ N →
  finite (get velocX (FluidSolver.IX N i j)) →
  finite (get velocY (FluidSolver.IX N i j)) →
  FluidSolver.advect_cell N d0 velocX velocY Num.zero i j =
    (Num.one * (Num.one * get d0 (FluidSolver.IX N i j) +
                Num.zero * get d0 (FluidSolver.IX N i (j + 1))) +
     Num.zero * (Num.one * get d0 (FluidSolver.IX N (i + 1) j) +
                 Num.zero * get d0 (FluidSolver.IX N (i + 1) (j + 1))))%num.
Proof.
  intros HN Hi Hj Hvx Hvy. unfold FluidSolver.advect_cell.
  rewrite !mul_zero_l, !sub_zero_r_of_Z, !(clamp_pos_of_Z N) by done.
  unfold Num.floor, Num.of_Z at 1 2. rewrite !Qfloor_Z.
  rewrite !sub_of_Z_diag.
  change (Num.one - Num.zero)%num with Num.one. done.
Qed.

Lemma frozen_factor N dt :
  finite dt → N = 2 ∨ dt = Num.zero → (dt * Num.of_Z (N - 2))%num = Num.zero.
Proof.
  intros Hdt [-> | ->].
  - change (Num.of_Z (2 - 2)) with Num.zero. by apply mul_zero_r.
  - by apply mul_zero_l.
Qed.

Lemma frozen_coefficient N dt k :
  finite dt → finite k → N = 2 ∨ dt = Num.zero →
  coefficient N dt k = Num.zero.
Proof.
  intros Hdt Hk [-> | ->]; unfold coefficient.
  - change (Num.of_Z (2 - 2)) with Num.zero.
    rewrite (mul_zero_r (dt * k)%num) by (by apply finite_mul).
    by apply mul_zero_l.
  - rewrite (mul_zero_l k Hk). by rewrite !mul_zero_l.
Qed.

Lemma advect_frozen_cell N b d d0 velocX velocY dt i j :
  1 ≤ N → sized N d → field N finite d0 →
  field N finite velocX → field N finite velocY →
  finite dt → N = 2 ∨ dt = Num.zero →
  1 ≤ i ≤ N → 1 ≤ j ≤ N →
  same (get (FluidSolver.advect N b d d0 velocX velocY dt)
          (FluidSolver.IX N i j))
       (get d0 (FluidSolver.IX N i j)).
Proof.
  intros HN Hd [Hs0 Hd0] [Hsx Hvx] [Hsy Hvy] Hdt Hz Hi Hj.
  rewrite advect_interior by done. rewrite frozen_factor by done.
  rewrite advect_cell_frozen; try done; try lia;
    try (apply Forall_get_IX; done || lia).
  apply still_value; apply Forall_get_IX; done || lia.
Qed.

Lemma sub_zero_same v : finite v → same (v - Num.zero)%num v.
Proof.
  destruct v as [q| | |]; try done. intros _. simpl.
  rewrite Qred_correct. ring.
Qed.

(** X19: without iterations the projection corrects nothing.  On a grid
    with at least one interior cell per axis, [project] run with a
    non-positive iteration count leaves a pressure that is zero everywhere
    and, for finite velocities, every interior cell of both velocity
    components at the value it had. *)
Theorem project_without_sweeps_corrects_nothing (N : Z)
    (velocX velocY p div : Float32Array) (iter : Z) :
  1 ≤ N → iter ≤ 0 →
  field N finite velocX → field N finite velocY → sized N p → sized N div →
  let '(velocX', velocY', p', div') :=
    FluidSolver.project N velocX velocY p div iter in
  all_zero p' ∧
  ∀ i j, 1 ≤ i ≤ N → 1 ≤ j ≤ N →
    same (get velocX' (FluidSolver.IX N i j))
         (get velocX (FluidSolver.IX N i j)) ∧
    same (get velocY' (FluidSolver.IX N i j))
         (get velocY (FluidSolver.IX N i j)).
Proof.
  intros HN Hiter [Hsx Hvx] [Hsy Hvy] Hp Hd.
  rewrite project_unfold by done. cbv zeta.
  rewrite lin_solve_none by done.
  split; [apply all_zero_new_array|].
  assert (∀ i j, gradient_x N (new_array ((N + 2) * (N + 2))) i j = Num.zero
                 ∧ gradient_y N (new_array ((N + 2) * (N + 2))) i j
                   = Num.zero) as Hgrad.
  { intros i j. unfold gradient_x, gradient_y.
    rewrite !(get_zero N) by
      (lia || apply all_zero_new_array || apply length_new_array).
    change (Num.zero - Num.zero)%num with Num.zero.
    split; apply mul_zero_r; by apply finite_mul. }
  intros i j Hi Hj.
  destruct (set_bnd_cells N 1 HN _
              (sized_map_interior N
                 (λ i j v, v - gradient_x N
                                 (new_array ((N + 2) * (N + 2))) i j)%num
                 velocX Hsx)) as (Hint1 & _).
  destruct (set_bnd_cells N 2 HN _
              (sized_map_interior N
                 (λ i j v, v - gradient_y N
                                 (new_array ((N + 2) * (N + 2))) i j)%num
                 velocY Hsy)) as (Hint2 & _).
  rewrite Hint1, Hint2 by done.
  rewrite !get_map_interior by (done || lia).
  case_decide; [|lia].
  destruct (Hgrad i j) as [-> ->].
  split; apply sub_zero_same; apply Forall_get_IX; done || lia.
Qed.

Lemma project_without_sweeps_corrects_nothing_witness :
  let '(velocX', velocY', p', div') :=
    FluidSolver.project 2 sample4x4 sample4x4 sample4x4 sample4x4 0 in
  same (get velocX' (FluidSolver.IX 2 1 2)) (get sample4x4 (FluidSolver.IX 2 1 2)).
Proof.
  pose proof (project_without_sweeps_corrects_nothing 2 sample4x4 sample4x4
                sample4x4 sample4x4 0 ltac:(lia) ltac:(lia)) as H.
  destruct (FluidSolver.project 2 sample4x4 sample4x4 sample4x4 sample4x4 0)
    as [[[vx' vy'] p'] div'].
  destruct H as [_ H]; try reflexivity;
    try (split; [reflexivity|by_cells]).
  destruct (H 1 2 ltac:(lia) ltac:(lia)) as [Hx _]. exact Hx.
Defined.



(** * Properties of the canvas *)

(** ** Integers among the numbers *)

Lemma of_Z_add a b : (Num.of_Z a + Num.of_Z b)%num = Num.of_Z (a + b).
Proof.
  change (Num.fin (inject_Z a + inject_Z b) = Num.of_Z (a + b)).
  rewrite <- fin_of_Z. apply fin_eq. by rewrite inject_Z_plus.
Qed.

Lemma ltb_of_Z a b : Num.ltb (Num.of_Z a) (Num.of_Z b) = (a <? b).
Proof.
  unfold Num.of_Z. destruct (Z.ltb_spec a b) as [H|H].
  - apply ltb_Fin_true. by rewrite <- Zlt_Qlt.
  - apply ltb_Fin_false. by rewrite <- Zle_Qle.
Qed.

Lemma leb_of_Z a b : Math.leb (Num.of_Z a) (Num.of_Z b) = (a <=? b).
Proof.
  unfold Math.leb. change (Num.of_Z a) with (Fin (inject_Z a)) at 1.
  change (Num.of_Z b) with (Fin (inject_Z b)) at 1. cbv iota.
  rewrite ltb_of_Z. destruct (Z.ltb_spec b a), (Z.leb_spec a b); done || lia.
Qed.

Lemma floor_of_Z a : Num.floor (Num.of_Z a) = Some a.
Proof. unfold Num.floor, Num.of_Z. by rewrite Qfloor_Z. Qed.

Lemma min_of_Z a b : Math.min (Num.of_Z a) (Num.of_Z b) = Num.of_Z (Z.min a b).
Proof.
  unfold Math.min. change (Num.of_Z a) with (Fin (inject_Z a)) at 1.
  change (Num.of_Z b) with (Fin (inject_Z b)) at 1. cbv iota.
  rewrite ltb_of_Z. destruct (Z.ltb_spec b a); f_equal; lia.
Qed.

Lemma max_of_Z a b : Math.max (Num.of_Z a) (Num.of_Z b) = Num.of_Z (Z.max a b).
Proof.
  unfold Math.max, Num.max. change (Num.of_Z a) with (Fin (inject_Z a)) at 1.
  change (Num.of_Z b) with (Fin (inject_Z b)) at 1. cbv iota.
  rewrite ltb_of_Z. destruct (Z.ltb_spec a b); f_equal; lia.
Qed.

(** The cell under the pointer is an integer, or NaN for a NaN position. *)
Lemma centre_finite N q :
  Math.max (Num.of_Z 1) (Math.min (Math.floor (Fin q)) (Num.of_Z N))
    = Num.of_Z (centre N q).
Proof.
  unfold Math.floor. cbn [Num.floor]. by rewrite min_of_Z, max_of_Z.
Qed.

Lemma centre_cases N v :
  Math.max (Num.of_Z 1) (Math.min (Math.floor v) (Num.of_Z N)) = NaN ∨
  ∃ z, Math.max (Num.of_Z 1) (Math.min (Math.floor v) (Num.of_Z N))
         = Num.of_Z z.
Proof.
  destruct v as [q| | |].
  - right. eexists. apply centre_finite.
  - right. exists (Z.max 1 N).
    change (Math.min (Math.floor PInf) (Num.of_Z N)) with (Num.of_Z N).
    apply max_of_Z.
  - right. exists 1. reflexivity.
  - left. reflexivity.
Qed.

(** ** One dab of the brush *)

(** The three writes of a dab, on the three buffers they touch. *)
Lemma dab_integer mode N cx cy fx fy r2 x y fs :
  FluidSolver.size fs = N →
  App.dab mode N (Num.of_Z cx) (Num.of_Z cy) fx fy r2 x y fs =
    rebuild fs
      (if reach N cx cy r2 x y
       then match mode with
            | WIND => FluidSolver.density fs
            | _ => set (FluidSolver.density fs)
                     (FluidSolver.IX N (cx + x) (cy + y))
                     (tool mode (get (FluidSolver.density fs)
                                   (FluidSolver.IX N (cx + x) (cy + y))))
            end
       else FluidSolver.density fs)
      (if reach N cx cy r2 x y
       then set (FluidSolver.Vx fs) (FluidSolver.IX N (cx + x) (cy + y))
              (get (FluidSolver.Vx fs) (FluidSolver.IX N (cx + x) (cy + y))
               + fx)%num
       else FluidSolver.Vx fs)
      (if reach N cx cy r2 x y
       then set (FluidSolver.Vy fs) (FluidSolver.IX N (cx + x) (cy + y))
              (get (FluidSolver.Vy fs) (FluidSolver.IX N (cx + x) (cy + y))
               + fy)%num
       else FluidSolver.Vy fs).
Proof.
  intros <-. unfold App.dab, reach.
  change Num.zero with (Num.of_Z 0).
  rewrite !of_Z_add, !ltb_of_Z, !leb_of_Z, !floor_of_Z.
  destruct fs as [N dt diff visc s density Vx Vy Vx0 Vy0].
  cbn [FluidSolver.size].
  destruct (x * x + y * y <=? r2); [|reflexivity].
  destruct (0 <? cx + x); [|reflexivity].
  destruct (cx + x <=? N); [|reflexivity].
  destruct (0 <? cy + y); [|reflexivity].
  destruct (cy + y <=? N); [|reflexivity].
  destruct mode; reflexivity.
Qed.

Lemma dab_NaN mode N mx my fx fy r2 x y fs :
  mx = NaN ∨ my = NaN →
  App.dab mode N mx my fx fy r2 x y fs = fs.
Proof.
  intros H. unfold App.dab.
  destruct (x * x + y * y <=? r2); [|reflexivity].
  destruct H as [-> | ->].
  - reflexivity.
  - change (NaN + Num.of_Z y)%num with NaN.
    change (Num.ltb Num.zero NaN) with false.
    by rewrite andb_false_r.
Qed.

(** ** Loops over a solver that write three of its buffers *)

Lemma rebuild_id fs :
  rebuild fs (FluidSolver.density fs) (FluidSolver.Vx fs) (FluidSolver.Vy fs)
    = fs.
Proof. by destruct fs. Qed.

Lemma for_range_rebuild lo hi (F : Z → FluidSolver.t → FluidSolver.t)
    (D X Y : Z → Float32Array → Float32Array) N fs :
  (∀ i acc, lo ≤ i ≤ hi → FluidSolver.size acc = N →
     F i acc = rebuild acc (D i (FluidSolver.density acc))
                 (X i (FluidSolver.Vx acc)) (Y i (FluidSolver.Vy acc))) →
  FluidSolver.size fs = N →
  for_range lo hi F fs =
    rebuild fs (for_range lo hi D (FluidSolver.density fs))
      (for_range lo hi X (FluidSolver.Vx fs))
      (for_range lo hi Y (FluidSolver.Vy fs)).
Proof.
  intros HF HN.
  destruct (Z_lt_le_dec hi lo) as [Hlt|Hle].
  { rewrite !for_range_empty by done. by rewrite rebuild_id. }
  pose proof (for_range_ind
    (λ n acc, acc =
       rebuild fs (for_range lo (n - 1) D (FluidSolver.density fs))
         (for_range lo (n - 1) X (FluidSolver.Vx fs))
         (for_range lo (n - 1) Y (FluidSolver.Vy fs)))
    lo hi F fs) as H.
  cbv beta in H. replace (hi + 1 - 1) with hi in H by lia.
  apply H; [lia| |].
  - rewrite !for_range_empty by lia. by rewrite rebuild_id.
  - intros i acc Hi ->. replace (i + 1 - 1) with i by lia.
    rewrite HF by done.
    rewrite (for_range_last lo i D), (for_range_last lo i X),
      (for_range_last lo i Y) by lia.
    reflexivity.
Qed.

(** The stroke of the brush from an integer centre, buffer by buffer. *)
Lemma paint_integer mode N cx cy fx fy radius fs :
  FluidSolver.size fs = N →
  App.paint mode N (Num.of_Z cx) (Num.of_Z cy) fx fy radius fs =
    rebuild fs
      (match mode with
       | WIND => FluidSolver.density fs
       | _ => stamp N cx cy (- radius) radius
                (reach N cx cy (radius * radius)) (tool mode)
                (FluidSolver.density fs)
       end)
      (stamp N cx cy (- radius) radius (reach N cx cy (radius * radius))
         (λ v, v + fx)%num (FluidSolver.Vx fs))
      (stamp N cx cy (- radius) radius (reach N cx cy (radius * radius))
         (λ v, v + fy)%num (FluidSolver.Vy fs)).
Proof.
  intros HN. unfold App.paint, stamp. cbv zeta.
  set (r2 := radius * radius).
  assert (∀ (lo hi : Z) (a : Float32Array),
            for_range lo hi (λ (_ : Z) (a : Float32Array), a) a = a) as Hid.
  { intros lo hi a. by apply (for_range_inv (λ acc, acc = a)). }
  destruct mode.
  - rewrite (for_range_rebuild (- radius) radius _
      (λ y d, for_range (- radius) radius (λ x d,
         if reach N cx cy r2 x y
         then set d (FluidSolver.IX N (cx + x) (cy + y))
                (tool SMOKE (get d (FluidSolver.IX N (cx + x) (cy + y))))
         else d) d)
      (λ y v, for_range (- radius) radius (λ x v,
         if reach N cx cy r2 x y
         then set v (FluidSolver.IX N (cx + x) (cy + y))
                (get v (FluidSolver.IX N (cx + x) (cy + y)) + fx)%num
         else v) v)
      (λ y v, for_range (- radius) radius (λ x v,
         if reach N cx cy r2 x y
         then set v (FluidSolver.IX N (cx + x) (cy + y))
                (get v (FluidSolver.IX N (cx + x) (cy + y)) + fy)%num
         else v) v) N); [reflexivity| |exact HN].
    intros y acc Hy Hacc.
    apply (for_range_rebuild (- radius) radius _ _ _ _ N); [|exact Hacc].
    intros x acc' Hx Hacc'. by rewrite dab_integer.
  - rewrite (for_range_rebuild (- radius) radius _
      (λ y d, for_range (- radius) radius (λ x d, d) d)
      (λ y v, for_range (- radius) radius (λ x v,
         if reach N cx cy r2 x y
         then set v (FluidSolver.IX N (cx + x) (cy + y))
                (get v (FluidSolver.IX N (cx + x) (cy + y)) + fx)%num
         else v) v)
      (λ y v, for_range (- radius) radius (λ x v,
         if reach N cx cy r2 x y
         then set v (FluidSolver.IX N (cx + x) (cy + y))
                (get v (FluidSolver.IX N (cx + x) (cy + y)) + fy)%num
         else v) v) N); [| |exact HN].
    + f_equal. apply (for_range_inv (λ acc, acc = FluidSolver.density fs));
        [done|]. intros y acc _ ->. apply Hid.
    + intros y acc Hy Hacc.
      apply (for_range_rebuild (- radius) radius _ _ _ _ N); [|exact Hacc].
      intros x acc' Hx Hacc'. rewrite dab_integer by done.
      by destruct (reach N cx cy r2 x y).
  - rewrite (for_range_rebuild (- radius) radius _
      (λ y d, for_range (- radius) radius (λ x d,
         if reach N cx cy r2 x y
         then set d (FluidSolver.IX N (cx + x) (cy + y))
                (tool ERASER (get d (FluidSolver.IX N (cx + x) (cy + y))))
         else d) d)
      (λ y v, for_range (- radius) radius (λ x v,
         if reach N cx cy r2 x y
         then set v (FluidSolver.IX N (cx + x) (cy + y))
                (get v (FluidSolver.IX N (cx + x) (cy + y)) + fx)%num
         else v) v)
      (λ y v, for_range (- radius) radius (λ x v,
         if reach N cx cy r2 x y
         then set v (FluidSolver.IX N (cx + x) (cy + y))
                (get v (FluidSolver.IX N (cx + x) (cy + y)) + fy)%num
         else v) v) N); [reflexivity| |exact HN].
    intros y acc Hy Hacc.
    apply (for_range_rebuild (- radius) radius _ _ _ _ N); [|exact Hacc].
    intros x acc' Hx Hacc'. by rewrite dab_integer.
Qed.

Lemma paint_NaN mode N mx my fx fy radius fs :
  mx = NaN ∨ my = NaN →
  App.paint mode N mx my fx fy radius fs = fs.
Proof.
  intros H. unfold App.paint.
  apply (for_range_inv (λ acc, acc = fs)); [done|]. intros y acc _ ->.
  apply (for_range_inv (λ acc, acc = fs)); [done|]. intros x acc _ ->.
  by apply dab_NaN.
Qed.

(** ** Stamps *)

Ltac close_by_cases :=
  first [ done | lia
        | split; close_by_cases
        | left; close_by_cases
        | right; close_by_cases ].

Ltac contradict_decide :=
  repeat match goal with
         | H : _ ∧ _ |- _ => destruct H
         | H : _ ∨ _ |- _ => destruct H
         end;
  match goal with
  | H : ¬ _ |- False => apply H; close_by_cases
  end.

Section Stamp.
Variables (N cx cy lo hi : Z) (g : Z → Z → bool) (f : number → number).
Hypothesis HN : -1 ≤ N.
Hypothesis g_in :
  ∀ x y, g x y = true → 0 ≤ cx + x ≤ N + 1 ∧ 0 ≤ cy + y ≤ N + 1.

Lemma stamp_Forall (P : number → Prop) a :
  (∀ v, P v → P (f v)) →
  sized N a → Forall P a →
  sized N (stamp N cx cy lo hi g f a) ∧ Forall P (stamp N cx cy lo hi g f a).
Proof.
  intros Hf Hs Ha. unfold stamp.
  apply (for_range_inv (λ acc, sized N acc ∧ Forall P acc)); [done|].
  intros y acc _ Hacc.
  apply (for_range_inv (λ acc, sized N acc ∧ Forall P acc)); [done|].
  intros x acc' _ [Hs' Ha']. destruct (g x y); [|done]. split.
  - unfold sized. by rewrite length_set.
  - apply Forall_set; [done|]. by apply Hf, Forall_get_IX.
Qed.

Lemma sized_stamp a : sized N a → sized N (stamp N cx cy lo hi g f a).
Proof.
  intros Hs.
  destruct (stamp_Forall (λ _, True) a); try done.
  by apply Forall_true.
Qed.

(** Every offset that passes the test is stamped once; the other cells are
    left alone. *)
Lemma get_stamp a x y :
  sized N a → 0 ≤ cx + x ≤ N + 1 → 0 ≤ cy + y ≤ N + 1 →
  get (stamp N cx cy lo hi g f a) (FluidSolver.IX N (cx + x) (cy + y)) =
    if decide (lo ≤ x ≤ hi ∧ lo ≤ y ≤ hi ∧ g x y = true)
    then f (get a (FluidSolver.IX N (cx + x) (cy + y)))
    else get a (FluidSolver.IX N (cx + x) (cy + y)).
Proof.
  intros Ha Hx Hy. unfold stamp.
  destruct (Z_lt_le_dec hi lo) as [Hlt|Hle].
  { rewrite for_range_empty by lia. case_decide; [lia|done]. }
  pose proof (for_range_ind
    (λ n acc, sized N acc ∧
       ∀ x y, 0 ≤ cx + x ≤ N + 1 → 0 ≤ cy + y ≤ N + 1 →
         get acc (FluidSolver.IX N (cx + x) (cy + y)) =
           if decide (lo ≤ x ≤ hi ∧ lo ≤ y < n ∧ g x y = true)
           then f (get a (FluidSolver.IX N (cx + x) (cy + y)))
           else get a (FluidSolver.IX N (cx + x) (cy + y)))) as Houter.
  cbv beta in Houter.
  match goal with |- context [for_range lo hi ?body a] =>
    specialize (Houter lo hi body a)
  end.
  destruct Houter as [_ Hget]; [lia| | |].
  - split; [done|]. intros. case_decide; [lia|done].
  - intros j acc Hj [Hsacc Hacc].
    pose proof (for_range_ind
      (λ n acc', sized N acc' ∧
         ∀ x y, 0 ≤ cx + x ≤ N + 1 → 0 ≤ cy + y ≤ N + 1 →
           get acc' (FluidSolver.IX N (cx + x) (cy + y)) =
             if decide (lo ≤ x ≤ hi ∧ g x y = true ∧
                        (lo ≤ y < j ∨ y = j ∧ x < n))
             then f (get a (FluidSolver.IX N (cx + x) (cy + y)))
             else get a (FluidSolver.IX N (cx + x) (cy + y)))) as Hinner.
    cbv beta in Hinner.
    match goal with |- context [for_range lo hi ?body acc] =>
      specialize (Hinner lo hi body acc)
    end.
    destruct Hinner as [Hs' Hget']; [lia| | |].
    + split; [done|]. intros x' y' Hx' Hy'. rewrite Hacc by done.
      repeat case_decide; try done; exfalso; contradict_decide.
    + intros i acc' Hi [Hsacc' Hacc'].
      destruct (g i j) eqn:Eg.
      * destruct (g_in i j Eg) as [Hgi Hgj]. split.
        -- unfold sized. by rewrite length_set.
        -- intros x' y' Hx' Hy'.
           rewrite (get_set_IX N) by (done || lia).
           rewrite !Hacc' by (done || lia).
           destruct (decide (cx + x' = cx + i ∧ cy + y' = cy + j))
             as [[E1 E2]|Hne].
           ++ assert (x' = i) as -> by lia. assert (y' = j) as -> by lia.
              rewrite decide_False by lia. rewrite decide_True; [done|].
              split; [lia|]. split; [done|]. lia.
           ++ repeat case_decide; try done; exfalso; contradict_decide.
      * split; [done|]. intros x' y' Hx' Hy'.
        rewrite Hacc' by done.
        destruct (decide (x' = i ∧ y' = j)) as [[-> ->]|Hne].
        -- rewrite !decide_False; [done| |]; rewrite Eg; intuition congruence.
        -- repeat case_decide; try done; exfalso; contradict_decide.
    + split; [done|]. intros x' y' Hx' Hy'. rewrite Hget' by done.
      repeat case_decide; try done; exfalso; contradict_decide.
  - rewrite Hget by done.
    repeat case_decide; try done; exfalso; contradict_decide.
Qed.

End Stamp.

(** ** A stroke of the brush *)

Lemma reach_in N cx cy r2 x y :
  reach N cx cy r2 x y = true →
  0 ≤ cx + x ≤ N + 1 ∧ 0 ≤ cy + y ≤ N + 1.
Proof.
  unfold reach. rewrite !andb_true_iff.
  intros (H1 & (((H2 & H3) & H4) & H5)). lia.
Qed.

Lemma disc_in_square (r a b : Z) :
  0 ≤ r → a * a + b * b ≤ r * r → - r ≤ a ≤ r.
Proof.
  intros Hr H. assert (0 ≤ b * b) as Hb by nia.
  split.
  - destruct (Z_lt_le_dec a (- r)) as [Hlt|]; [|done].
    assert ((r + 1) * (r + 1) ≤ a * a) by nia. nia.
  - destruct (Z_lt_le_dec r a) as [Hlt|]; [|done].
    assert ((r + 1) * (r + 1) ≤ a * a) by nia. nia.
Qed.

Lemma reach_brushed N cx cy radius kx ky :
  0 ≤ radius →
  (- radius ≤ kx - cx ≤ radius ∧ - radius ≤ ky - cy ≤ radius ∧
   reach N cx cy (radius * radius) (kx - cx) (ky - cy) = true)
  ↔ brushed N cx cy radius kx ky.
Proof.
  intros Hr. unfold reach, brushed. rewrite !andb_true_iff. split.
  - intros (_ & _ & H1 & (((H2 & H3) & H4) & H5)). lia.
  - intros (Hx & Hy & Hd).
    split; [by apply (disc_in_square radius (kx - cx) (ky - cy))|].
    split; [apply (disc_in_square radius (ky - cy) (kx - cx)); lia|].
    repeat split; lia.
Qed.

Lemma paint_shape mode N mx my fx fy radius fs :
  FluidSolver.size fs = N → -1 ≤ N → wf fs →
  let fs' := App.paint mode N mx my fx fy radius fs in
  wf fs' ∧
  FluidSolver.size fs' = FluidSolver.size fs ∧
  FluidSolver.dt fs' = FluidSolver.dt fs ∧
  FluidSolver.diff fs' = FluidSolver.diff fs ∧
  FluidSolver.visc fs' = FluidSolver.visc fs ∧
  FluidSolver.s fs' = FluidSolver.s fs ∧
  FluidSolver.Vx0 fs' = FluidSolver.Vx0 fs ∧
  FluidSolver.Vy0 fs' = FluidSolver.Vy0 fs.
Proof.
  intros HN HN' Hwf fs'. subst fs'. unfold App.paint.
  apply (for_range_inv (λ acc,
    wf acc ∧
    FluidSolver.size acc = FluidSolver.size fs ∧
    FluidSolver.dt acc = FluidSolver.dt fs ∧
    FluidSolver.diff acc = FluidSolver.diff fs ∧
    FluidSolver.visc acc = FluidSolver.visc fs ∧
    FluidSolver.s acc = FluidSolver.s fs ∧
    FluidSolver.Vx0 acc = FluidSolver.Vx0 fs ∧
    FluidSolver.Vy0 acc = FluidSolver.Vy0 fs)); [done|].
  intros y acc _ Hacc.
  apply (for_range_inv (λ acc,
    wf acc ∧
    FluidSolver.size acc = FluidSolver.size fs ∧
    FluidSolver.dt acc = FluidSolver.dt fs ∧
    FluidSolver.diff acc = FluidSolver.diff fs ∧
    FluidSolver.visc acc = FluidSolver.visc fs ∧
    FluidSolver.s acc = FluidSolver.s fs ∧
    FluidSolver.Vx0 acc = FluidSolver.Vx0 fs ∧
    FluidSolver.Vy0 acc = FluidSolver.Vy0 fs)); [done|].
  intros x acc' _ (Hwf' & E1 & E2 & E3 & E4 & E5 & E6 & E7).
  unfold App.dab.
  destruct (x * x + y * y <=? radius * radius); [|done].
  destruct (_ && _); [|done].
  destruct (Num.floor _) as [tx|]; [|done].
  destruct (Num.floor _) as [ty|]; [|done].
  destruct mode; (split; [|done]).
  - by apply wf_addDensity, wf_addVelocity.
  - by apply wf_addVelocity.
  - destruct (wf_addVelocity acc' tx ty fx fy Hwf'). split; try done.
    unfold sized. cbn [App.erase FluidSolver.density FluidSolver.size].
    by rewrite length_set.
Qed.

(** The cells of the three buffers after a stroke from an integer centre. *)
Lemma paint_cells mode N cx cy fx fy radius fs kx ky :
  FluidSolver.size fs = N → -1 ≤ N → wf fs → 0 ≤ radius →
  0 ≤ kx ≤ N + 1 → 0 ≤ ky ≤ N + 1 →
  let fs' := App.paint mode N (Num.of_Z cx) (Num.of_Z cy) fx fy radius fs in
  let k := FluidSolver.IX N kx ky in
  (brushed N cx cy radius kx ky →
   get (FluidSolver.Vx fs') k = (get (FluidSolver.Vx fs) k + fx)%num ∧
   get (FluidSolver.Vy fs') k = (get (FluidSolver.Vy fs) k + fy)%num ∧
   get (FluidSolver.density fs') k = tool mode (get (FluidSolver.density fs) k))
  ∧
  (¬ brushed N cx cy radius kx ky →
   get (FluidSolver.Vx fs') k = get (FluidSolver.Vx fs) k ∧
   get (FluidSolver.Vy fs') k = get (FluidSolver.Vy fs) k ∧
   get (FluidSolver.density fs') k = get (FluidSolver.density fs) k).
Proof.
  intros HN HN' [Hs Hd Hx Hy Hx0 Hy0] Hr Hkx Hky fs' k. subst fs' k.
  rewrite paint_integer by done. rewrite HN in *.
  cbn [rebuild FluidSolver.Vx FluidSolver.Vy FluidSolver.density].
  assert (FluidSolver.IX N kx ky
          = FluidSolver.IX N (cx + (kx - cx)) (cy + (ky - cy))) as ->
    by (f_equal; lia).
  pose proof (reach_brushed N cx cy radius kx ky Hr) as Hiff.
  assert (∀ f a, sized N a →
            get (stamp N cx cy (- radius) radius
                   (reach N cx cy (radius * radius)) f a)
                (FluidSolver.IX N (cx + (kx - cx)) (cy + (ky - cy)))
            = if decide (brushed N cx cy radius kx ky)
              then f (get a (FluidSolver.IX N (cx + (kx - cx))
                               (cy + (ky - cy))))
              else get a (FluidSolver.IX N (cx + (kx - cx))
                            (cy + (ky - cy)))) as Hstamp.
  { intros f a Ha.
    rewrite (get_stamp N cx cy (- radius) radius _ f HN'
               (reach_in N cx cy (radius * radius))) by (done || lia).
    repeat case_decide; try done; exfalso; tauto. }
  split; intros Hb.
  - rewrite !Hstamp by done. rewrite !decide_True by done.
    split; [done|]. split; [done|].
    destruct mode; [| done |]; rewrite Hstamp by done;
      by rewrite decide_True.
  - rewrite !Hstamp by done. rewrite !decide_False by done.
    split; [done|]. split; [done|].
    destruct mode; [| done |]; rewrite Hstamp by done;
      by rewrite decide_False.
Qed.

(** ** The force of a stroke *)

Lemma clamped_range d : d ≠ NaN → between (-50) 50 (App.clamped d).
Proof.
  intros Hd. unfold App.clamped. cbv zeta.
  destruct d as [q| | |]; [| by vm_compute | by vm_compute | done].
  change (Fin q * Num.of_Z 5)%num with (Fin (Qred (q * inject_Z 5))).
  set (w := Qred (q * inject_Z 5)).
  unfold Math.min. change (Num.of_Z 50) with (Fin 50). cbv iota.
  destruct (Num.ltb (Fin w) (Fin 50)) eqn:E1.
  - apply ltb_Fin in E1. unfold Math.max, Num.max.
    change (Num.of_Z (-50)) with (Fin (-50)). cbv iota.
    destruct (Num.ltb (Fin (-50)) (Fin w)) eqn:E2.
    + apply ltb_Fin in E2. cbn [between]. lra.
    + by vm_compute.
  - by vm_compute.
Qed.

Lemma clamped_finite d : finite d → finite (App.clamped d).
Proof.
  intros Hd. apply (between_finite (-50) 50), clamped_range.
  by destruct d.
Qed.

(** ** The position of the pointer *)

Lemma finite_div x y : finite x → measurable y → finite (x / y).
Proof.
  destruct x as [a| | |], y as [b| | |]; try done. simpl.
  intros _ Hb. destruct (Qeq_bool b 0) eqn:E; [|done].
  by apply Qeq_bool_iff in E.
Qed.

Lemma getPointerPos_finite canvas clientX clientY :
  on_screen canvas clientX clientY →
  finite (App.getPointerPos canvas clientX clientY).1 ∧
  finite (App.getPointerPos canvas clientX clientY).2.
Proof.
  destruct canvas as [rect|]; [|done].
  intros (Hx & Hy & Hl & Ht & Hw & Hh). unfold App.getPointerPos.
  cbn [fst snd].
  split; (apply finite_mul; [|done]); apply finite_div; try done;
    by apply finite_sub.
Qed.

(** ** A stroke keeps the solver clean *)

Lemma sized_fill_zero N a : sized N a → sized N (fill_zero a).
Proof. unfold sized, fill_zero. by rewrite length_replicate. Qed.

Lemma Forall_zero (P : number → Prop) a : P Num.zero → all_zero a → Forall P a.
Proof. intros HP Ha. eapply Forall_impl; [exact Ha|]. by intros v ->. Qed.

Lemma clean_handleReset fs : clean fs → clean (handleReset fs).
Proof.
  intros [[Hs Hd Hx Hy Hx0 Hy0] Hc Hden Hss Hvx Hvy Hvx0 Hvy0].
  split; cbn [handleReset FluidSolver.size FluidSolver.dt FluidSolver.diff
              FluidSolver.visc FluidSolver.s FluidSolver.density
              FluidSolver.Vx FluidSolver.Vy FluidSolver.Vx0 FluidSolver.Vy0];
    try assumption;
    try (apply Forall_zero; [exact I || (simpl; lra) | apply all_zero_fill_zero]).
  split; cbn [handleReset FluidSolver.size FluidSolver.dt FluidSolver.diff
              FluidSolver.visc FluidSolver.s FluidSolver.density
              FluidSolver.Vx FluidSolver.Vy FluidSolver.Vx0 FluidSolver.Vy0];
    try assumption; by apply sized_fill_zero.
Qed.

Lemma clean_step fs iter r :
  clean fs → within 1 r → clean (FluidSolver.step fs iter r).
Proof.
  intros [Hwf Hc Hden Hss Hvx Hvy Hvx0 Hvy0] Hr.
  destruct (step_shape fs iter r Hwf) as (Hwf' & E1 & E2 & E3 & E4).
  assert (regular fs) as Hreg by (by apply valid_regular).
  destruct (step_regular fs iter r Hreg) as [[_ _ _ _ _ ? ? ? ?] _].
  destruct Hreg as [_ HN Hdt Hdiff Hvisc _ _ _ _].
  destruct (step_nonneg fs iter r Hwf ltac:(lia) Hdt Hdiff Hvisc Hr
              Hden Hss Hvx Hvy Hvx0 Hvy0) as [Hd' Hs'].
  split; try assumption. by rewrite E1, E2, E3, E4.
Qed.

Lemma nonneg_tool mode v : nonneg v → nonneg (tool mode v).
Proof.
  destruct mode, v as [q| | |]; try done; simpl.
  rewrite Qred_correct. intros H. change (inject_Z 150) with 150%Q. lra.
Qed.

Lemma clean_paint mode (q1 q2 : Q) fx fy radius fs :
  clean fs → finite fx → finite fy →
  clean (App.paint mode (FluidSolver.size fs)
           (Num.of_Z (centre (FluidSolver.size fs) q1))
           (Num.of_Z (centre (FluidSolver.size fs) q2)) fx fy radius fs).
Proof.
  intros [Hwf Hc Hden Hss Hvx Hvy Hvx0 Hvy0] Hfx Hfy.
  assert (1 ≤ FluidSolver.size fs) as HN by (destruct Hc; lia).
  destruct (paint_shape mode (FluidSolver.size fs)
              (Num.of_Z (centre (FluidSolver.size fs) q1))
              (Num.of_Z (centre (FluidSolver.size fs) q2))
              fx fy radius fs eq_refl ltac:(lia) Hwf)
    as (Hwf' & E1 & E2 & E3 & E4 & E5 & E6 & E7).
  split; try assumption; rewrite ?E1, ?E2, ?E3, ?E4, ?E5, ?E6, ?E7;
    try assumption;
    rewrite paint_integer by done;
    cbn [rebuild FluidSolver.Vx FluidSolver.Vy FluidSolver.density].
  - destruct Hwf.
    destruct mode; [|done|];
      apply (stamp_Forall (FluidSolver.size fs)); try done; try lia;
      try apply reach_in; apply nonneg_tool.
  - destruct Hwf.
    apply (stamp_Forall (FluidSolver.size fs)); try done; try lia;
      try apply reach_in.
    intros v Hv. by apply finite_add.
  - destruct Hwf.
    apply (stamp_Forall (FluidSolver.size fs)); try done; try lia;
      try apply reach_in.
    intros v Hv. by apply finite_add.
Qed.

Lemma steady_dispatch st e : steady st → event_ok e → steady (App.dispatch st e).
Proof.
  intros [(fs & Hfs & Hclean) Hlast] He. destruct e; cbn [App.dispatch].
  - (* AnimationFrame *)
    unfold App.render. rewrite Hfs. split; [|done].
    cbn [App.solver]. eexists. split; [reflexivity|].
    destruct (App.isPaused st); [done|].
    apply clean_step; [done|]. by vm_compute.
  - (* PointerDown *)
    split; [by exists fs|]. cbn [App.handleStart App.lastPos].
    by apply getPointerPos_finite.
  - (* PointerMove *)
    unfold App.handleMove. rewrite Hfs.
    destruct (App.isDragging st); [|split; [by exists fs|done]].
    destruct (App.lastPos st) as [last|] eqn:El;
      [|split; [by exists fs|by rewrite El]].
    destruct (getPointerPos_finite canvas clientX clientY He) as [Hpx Hpy].
    destruct (App.getPointerPos canvas clientX clientY) as [px py].
    cbn [fst snd] in *.
    destruct px as [qx| | |], py as [qy| | |]; try done.
    split; [|done]. cbn [App.solver]. eexists. split; [reflexivity|].
    rewrite !centre_finite.
    destruct Hlast as [Hl1 Hl2].
    apply clean_paint; [done| |]; apply clamped_finite;
      by apply finite_sub.
  - (* PointerUp *)
    split; [by exists fs|done].
  - (* SelectTool *)
    split; [by exists fs|done].
  - (* SetBrushSize *)
    split; [by exists fs|done].
  - (* ClearCanvas *)
    unfold App.handleReset. rewrite Hfs. split; [|done].
    cbn [App.solver]. eexists. split; [reflexivity|].
    by apply clean_handleReset.
Qed.

Lemma steady_run st events :
  steady st → Forall event_ok events → steady (App.run st events).
Proof.
  unfold App.run. revert st.
  induction events as [|e events IH]; intros st Hst He; [done|].
  apply Forall_cons in He as [He Hes]. simpl.
  apply IH; [|done]. by apply steady_dispatch.
Qed.

Lemma steady_mount : steady (App.mount App.initial).
Proof.
  split; [|done]. eexists. split; [reflexivity|].
  split.
  - apply wf_constructor.
  - by vm_compute.
  - apply Forall_zero; [simpl; lra|]. apply all_zero_new_array.
  - apply Forall_zero; [simpl; lra|]. apply all_zero_new_array.
  - apply Forall_zero; [exact I|]. apply all_zero_new_array.
  - apply Forall_zero; [exact I|]. apply all_zero_new_array.
  - apply Forall_zero; [exact I|]. apply all_zero_new_array.
  - apply Forall_zero; [exact I|]. apply all_zero_new_array.
Qed.

(** ** Pixels *)

Lemma length_set_byte data k v : length (set_byte data k v) = length data.
Proof. unfold set_byte. destruct (k <? 0); [done|]. apply length_insert. Qed.

Lemma lookup_set_byte data k v (i : nat) :
  0 ≤ k → (Z.to_nat k < length data)%nat →
  set_byte data k v !! i = if decide (i = Z.to_nat k) then Some v else data !! i.
Proof.
  intros Hk Hlt. unfold set_byte.
  destruct (Z.ltb_spec k 0) as [?|_]; [lia|].
  case_decide as E.
  - subst i. by apply list_lookup_insert_eq.
  - by apply list_lookup_insert_ne.
Qed.

Lemma ToUint8Clamp_range x : 0 ≤ ToUint8Clamp x ≤ 255.
Proof.
  destruct x as [q| | |]; simpl; try lia.
  destruct (Qle_bool q 0) eqn:E0; [lia|].
  destruct (Qle_bool 255 q) eqn:E1; [lia|].
  assert (0 < q)%Q as H0.
  { destruct (Qlt_le_dec 0 q) as [|Hle]; [done|].
    apply Qle_bool_iff in Hle. congruence. }
  assert (q < 255)%Q as H1.
  { destruct (Qlt_le_dec q 255) as [|Hle]; [done|].
    apply Qle_bool_iff in Hle. congruence. }
  assert (0 ≤ Qfloor q ≤ 254) as Hf.
  { pose proof (Qfloor_le q) as Hle. pose proof (Qlt_floor q) as Hlt.
    rewrite inject_Z_plus in Hlt. change (inject_Z 1) with 1%Q in Hlt.
    split.
    - apply Z.lt_succ_r. rewrite Zlt_Qlt. unfold Z.succ.
      rewrite inject_Z_plus. change (inject_Z 0) with 0%Q.
      change (inject_Z 1) with 1%Q. lra.
    - apply Z.lt_succ_r. rewrite Zlt_Qlt. change (Z.succ 254) with 255.
      change (inject_Z 255) with 255%Q. lra. }
  destruct (_ ?= _)%Q; try lia. destruct (Z.even _); lia.
Qed.

(** The pixel loop writes the four bytes of every pixel. *)
Lemma pixels_spec density data :
  length data = (4 * length density)%nat →
  length (App.pixels density data) = length data ∧
  ∀ i : nat, (i < length density)%nat →
    App.pixels density data !! (4 * i)%nat = Some 255 ∧
    App.pixels density data !! (4 * i + 1)%nat = Some 255 ∧
    App.pixels density data !! (4 * i + 2)%nat = Some 255 ∧
    App.pixels density data !! (4 * i + 3)%nat
      = Some (ToUint8Clamp (get density (Z.of_nat i))).
Proof.
  intros Hlen. unfold App.pixels.
  destruct (decide (length density = 0%nat)) as [E0|Hne].
  { rewrite for_range_empty by lia. split; [done|]. intros; lia. }
  pose proof (for_range_ind
    (λ n acc, length acc = length data ∧
       ∀ i : nat, Z.of_nat i < n →
         acc !! (4 * i)%nat = Some 255 ∧
         acc !! (4 * i + 1)%nat = Some 255 ∧
         acc !! (4 * i + 2)%nat = Some 255 ∧
         acc !! (4 * i + 3)%nat
           = Some (ToUint8Clamp (get density (Z.of_nat i))))) as H.
  cbv beta in H.
  match goal with |- context [for_range 0 ?hi ?body data] =>
    specialize (H 0 hi body data)
  end.
  destruct H as [Hl Hget]; [lia| | |].
  - split; [done|]. intros; lia.
  - intros i acc Hi [Hlacc Hacc]. cbv zeta.
    change SMOKE_COLOR.1.1 with 255. change SMOKE_COLOR.1.2 with 255.
    change SMOKE_COLOR.2 with 255.
    split; [by rewrite !length_set_byte|].
    intros i' Hi'.
    rewrite !lookup_set_byte by (rewrite ?length_set_byte; lia).
    destruct (decide (i' = Z.to_nat i)) as [->|Hne'].
    + rewrite Z2Nat.id by lia.
      repeat split; repeat case_decide; try done; lia.
    + destruct (Hacc i' ltac:(lia)) as (A0 & A1 & A2 & A3).
      repeat split; repeat case_decide; try done; lia.
  - split; [done|]. intros i Hi. apply Hget. lia.
Qed.


(** X21: the force a stroke applies is clamped.  Whatever the displacement
    of the pointer, infinite ones included, the force
    max(-50, min(50, 5 d)) that [handleMove] adds to the velocity is a
    finite number in [-50, 50]; only a NaN displacement gives NaN. *)
Theorem force_is_clamped (d : number) :
  (d ≠ NaN → between (-50) 50 (App.clamped d)) ∧ App.clamped NaN = NaN.
Proof. split; [apply clamped_range|reflexivity]. Qed.

Lemma force_is_clamped_witness :
  between (-50) 50 (App.clamped PInf) ∧
  between (-50) 50 (App.clamped (Fin (-3))).
Proof. split; by apply (proj1 (force_is_clamped _)). Defined.



(** X23: a stroke stays inside the grid.  Whatever the pointer event (any
    position, NaN and infinities included, any brush size, dragging or
    not), on a solver with buffers of the constructor's length
    [handleMove] leaves a solver of the same shape and parameters, never
    writes the work buffer [s], Vx0 or Vy0, never writes a cell of the
    ring of boundary cells of the density, Vx or Vy, and leaves the tool,
    the brush size and the pixel buffer as they were. *)
Theorem stroke_stays_inside (st : App.t) (canvas : option DOMRect.t)
    (clientX clientY : number) (fs : FluidSolver.t) :
  App.solver st = Some fs → wf fs → -1 ≤ FluidSolver.size fs →
  let N := FluidSolver.size fs in
  let st' := App.handleMove st canvas clientX clientY in
  ∃ fs',
    App.solver st' = Some fs' ∧ wf fs' ∧
    FluidSolver.size fs' = N ∧
    FluidSolver.dt fs' = FluidSolver.dt fs ∧
    FluidSolver.diff fs' = FluidSolver.diff fs ∧
    FluidSolver.visc fs' = FluidSolver.visc fs ∧
    FluidSolver.s fs' = FluidSolver.s fs ∧
    FluidSolver.Vx0 fs' = FluidSolver.Vx0 fs ∧
    FluidSolver.Vy0 fs' = FluidSolver.Vy0 fs ∧
    (∀ kx ky, 0 ≤ kx ≤ N + 1 → 0 ≤ ky ≤ N + 1 → on_border N kx ky →
       let k := FluidSolver.IX N kx ky in
       get (FluidSolver.density fs') k = get (FluidSolver.density fs) k ∧
       get (FluidSolver.Vx fs') k = get (FluidSolver.Vx fs) k ∧
       get (FluidSolver.Vy fs') k = get (FluidSolver.Vy fs) k) ∧
    App.mode st' = App.mode st ∧
    App.brushSize st' = App.brushSize st ∧
    App.isPaused st' = App.isPaused st ∧
    App.isDragging st' = App.isDragging st ∧
    App.data st' = App.data st.
Proof.
  intros Hfs Hwf HN N st'. subst N st'. unfold App.handleMove. rewrite Hfs.
  destruct (App.isDragging st) eqn:Edrag;
    [|exists fs; split; [done|]; split; [done|]; by repeat split].
  destruct (App.lastPos st) as [last|];
    [|exists fs; split; [done|]; split; [done|]; by repeat split].
  cbv zeta. cbn [App.solver App.mode App.brushSize App.isPaused
                 App.isDragging App.data].
  eexists. split; [reflexivity|].
  match goal with |- context [App.paint ?m ?n ?mx ?my ?fx ?fy ?r fs] =>
    destruct (paint_shape m n mx my fx fy r fs eq_refl HN Hwf)
      as (Hwf' & E1 & E2 & E3 & E4 & E5 & E6 & E7);
    set (mx' := mx) in *; set (my' := my) in *;
    set (fx' := fx) in *; set (fy' := fy) in *
  end.
  do 8 (split; [assumption|]). split; [|by repeat split].
  intros kx ky Hkx Hky Hb. cbv zeta.
  destruct (Z_lt_le_dec (App.brushSize st) 0) as [Hneg|Hpos].
  { unfold App.paint. by rewrite for_range_empty by lia. }
  destruct (centre_cases (FluidSolver.size fs)
              (App.getPointerPos canvas clientX clientY).1) as [Ex|[zx Ex]];
    [fold mx' in Ex; by rewrite paint_NaN by (by left)|].
  destruct (centre_cases (FluidSolver.size fs)
              (App.getPointerPos canvas clientX clientY).2) as [Ey|[zy Ey]];
    [fold my' in Ey; by rewrite paint_NaN by (by right)|].
  fold mx' in Ex. fold my' in Ey. rewrite Ex, Ey.
  destruct (paint_cells (App.mode st) (FluidSolver.size fs) zx zy fx' fy'
              (App.brushSize st) fs kx ky eq_refl HN Hwf Hpos Hkx Hky)
    as [_ Hout].
  destruct Hout as (H1 & H2 & H3); [|done].
  unfold brushed, on_border in *. lia.
Qed.

Lemma stroke_stays_inside_witness :
  ∃ fs',
    App.solver (App.handleMove (stroke ERASER) None NaN PInf) = Some fs' ∧
    FluidSolver.s fs' = new_array 36.
Proof.
  destruct (stroke_stays_inside (stroke ERASER) None NaN PInf
              (fresh4 (Fin (1 # 10))) eq_refl (wf_constructor _ _ _ _)
              ltac:(simpl; lia))
    as (fs' & E & _ & _ & _ & _ & _ & Hs & _).
  exists fs'. split; [exact E | exact Hs].
Defined.



(** X25: a frame shows the density and nothing else.  When the pixel
    buffer has four bytes per cell of the grid, after [render] (which first
    advances the solver by one tick with the default iteration count and
    fade rate, unless the simulation is paused) pixel i is white with, as
    alpha, the density of cell i clamped to [0, 255] and rounded to the
    nearest integer (NaN shows as 0); every byte of the buffer is
    rewritten, so nothing of the previous frame remains. *)
Theorem frame_shows_the_density (st : App.t) (fs : FluidSolver.t) :
  App.solver st = Some fs → wf fs →
  length (App.data st) = (4 * length (FluidSolver.density fs))%nat →
  let fs' :=
    if App.isPaused st then fs
    else FluidSolver.step fs (SimulationConfig.iterations DEFAULT_CONFIG)
           (SimulationConfig.fadeRate DEFAULT_CONFIG) in
  let data' := App.data (App.render st) in
  App.solver (App.render st) = Some fs' ∧
  length data' = length (App.data st) ∧
  ∀ i : nat, (i < length (FluidSolver.density fs))%nat →
    ∃ alpha,
      alpha = ToUint8Clamp (get (FluidSolver.density fs') (Z.of_nat i)) ∧
      0 ≤ alpha ≤ 255 ∧
      data' !! (4 * i)%nat = Some 255 ∧
      data' !! (4 * i + 1)%nat = Some 255 ∧
      data' !! (4 * i + 2)%nat = Some 255 ∧
      data' !! (4 * i + 3)%nat = Some alpha.
Proof.
  intros Hfs Hwf Hlen fs' data'. subst fs' data'.
  unfold App.render. rewrite Hfs. cbn [App.solver App.data].
  set (fs' := if App.isPaused st then fs else _).
  assert (length (FluidSolver.density fs')
          = length (FluidSolver.density fs)) as Hl.
  { unfold fs'. destruct (App.isPaused st); [done|].
    destruct (step_shape fs
                (SimulationConfig.iterations DEFAULT_CONFIG)
                (SimulationConfig.fadeRate DEFAULT_CONFIG) Hwf)
      as ([_ Hd' _ _ _ _] & E & _).
    destruct Hwf as [_ Hd _ _ _ _]. unfold sized in *. rewrite E in Hd'.
    congruence. }
  destruct (pixels_spec (FluidSolver.density fs') (App.data st)) as [H1 H2];
    [by rewrite Hl|].
  split; [done|]. split; [done|].
  intros i Hi. destruct (H2 i ltac:(lia)) as (A0 & A1 & A2 & A3).
  eexists. split; [reflexivity|]. split; [apply ToUint8Clamp_range|done].
Qed.

Lemma frame_shows_the_density_witness :
  ∃ alpha,
    0 ≤ alpha ≤ 255 ∧
    App.data (App.render (stroke WIND)) !! (4 * 7 + 3)%nat = Some alpha.
Proof.
  destruct (frame_shows_the_density (stroke WIND) (fresh4 (Fin (1 # 10)))
              eq_refl (wf_constructor _ _ _ _) eq_refl) as (_ & _ & H).
  destruct (H 7%nat ltac:(vm_compute; lia))
    as (alpha & _ & Hr & _ & _ & _ & E).
  exists alpha. split; [exact Hr | exact E].
Defined.



(** X27: a pointer over the canvas lands inside the grid.  For a canvas
    rectangle with a finite origin and finite positive sides and a pointer
    inside the rectangle, [getPointerPos] returns finite coordinates
    between 0 and the padded size (130) of the default grid, and the cell
    [handleMove] takes as the centre of the brush is an interior cell of
    that grid. *)
Theorem pointer_lands_in_the_grid (l t w h x y : Q) :
  (0 < w)%Q → (0 < h)%Q →
  (l <= x <= l + w)%Q → (t <= y <= t + h)%Q →
  let rect := {| DOMRect.left := Fin l; DOMRect.top := Fin t;
                 DOMRect.width := Fin w; DOMRect.height := Fin h |} in
  ∃ px py,
    App.getPointerPos (Some rect) (Fin x) (Fin y) = (Fin px, Fin py) ∧
    (0 <= px <= 130)%Q ∧ (0 <= py <= 130)%Q ∧
    1 ≤ centre 128 px ≤ 128 ∧ 1 ≤ centre 128 py ≤ 128.
Proof.
  intros Hw Hh Hx Hy rect. subst rect. unfold App.getPointerPos.
  cbn [DOMRect.left DOMRect.top DOMRect.width DOMRect.height Num.sub
       Num.div Num.mul].
  assert (∀ a o s : Q, (0 < s)%Q → (o <= a <= o + s)%Q →
            ∃ p, (Num.fin (a - o) / Fin s *
                  Num.of_Z (SimulationConfig.resolution DEFAULT_CONFIG + 2))%num
                 = Fin p ∧ (0 <= p <= 130)%Q) as Haxis.
  { intros a o s Hs Ha. unfold Num.fin. cbn [Num.div].
    destruct (Qeq_bool s 0) eqn:E.
    { apply Qeq_bool_iff in E. lra. }
    unfold Num.fin.
    change (Num.of_Z (SimulationConfig.resolution DEFAULT_CONFIG + 2))
      with (Fin 130).
    cbn [Num.mul]. unfold Num.fin. eexists. split; [reflexivity|].
    rewrite !Qred_correct.
    assert (0 <= (a - o) / s <= 1)%Q as [H0 H1].
    { split.
      - apply Qle_shift_div_l; [done|]. lra.
      - apply Qle_shift_div_r; [done|]. lra. }
    lra. }
  destruct (Haxis x l w Hw Hx) as (px & -> & Hpx).
  destruct (Haxis y t h Hh Hy) as (py & -> & Hpy).
  exists px, py. split; [done|]. split; [done|]. split; [done|].
  unfold centre. lia.
Qed.

Lemma pointer_lands_in_the_grid_witness :
  ∃ px py,
    App.getPointerPos
      (Some {| DOMRect.left := Fin 10; DOMRect.top := Fin 20;
               DOMRect.width := Fin 260; DOMRect.height := Fin 130 |})
      (Fin 270) (Fin 20) = (Fin px, Fin py) ∧
    (0 <= px <= 130)%Q ∧ (0 <= py <= 130)%Q.
Proof.
  destruct (pointer_lands_in_the_grid 10 20 260 130 270 20)
    as (px & py & E & Hx & Hy & _); try reflexivity; try (simpl; lra).
  exists px, py. split; [exact E|]. split; [exact Hx | exact Hy].
Defined.

(** * Properties of the analysis service *)

Lemma strip_prefix_app p s :
  GeminiService.strip_prefix p (p +:+ s) = Some s.
Proof.
  induction p as [|c p IH]; [done|]. simpl. by rewrite Ascii.eqb_refl.
Qed.

Lemma skip_word_app w s :
  all_word w →
  match s with
  | String c _ => GeminiService.is_word c = false
  | EmptyString => True
  end →
  GeminiService.skip_word (w +:+ s) = s.
Proof.
  intros Hw Hs. induction w as [|c w IH].
  - simpl. destruct s as [|c s]; [done|]. simpl. by rewrite Hs.
  - destruct Hw as [Hc Hw]. simpl. rewrite Hc. by apply IH.
Qed.

Lemma length_app_string (a b : string) :
  String.length (a +:+ b) = (String.length a + String.length b)%nat.
Proof. induction a as [|c a IH]; [done|]. simpl. by rewrite IH. Qed.

(** X28: the data-URL header is stripped.  For every media subtype made of
    one or more word characters and every payload,
    "data:image/<subtype>;base64,<payload>" is reduced to the payload, the
    form the model is given. *)
Theorem data_url_header_is_stripped (subtype payload : string) :
  subtype ≠ "" → all_word subtype →
  GeminiService.strip_data_url
    ("data:image/" +:+ subtype +:+ ";base64," +:+ payload) = payload.
Proof.
  intros Hne Hw. unfold GeminiService.strip_data_url.
  rewrite strip_prefix_app. cbv zeta.
  rewrite (skip_word_app subtype (";base64," +:+ payload) Hw eq_refl).
  assert ((String.length (";base64," +:+ payload) <?
           String.length (subtype +:+ ";base64," +:+ payload))%nat = true)
    as ->.
  { apply Nat.ltb_lt. rewrite (length_app_string subtype).
    destruct subtype as [|c w]; [done|]. simpl. lia. }
  by rewrite strip_prefix_app.
Qed.

Lemma data_url_header_is_stripped_witness :
  GeminiService.strip_data_url "data:image/png;base64,iVBORw0KGgo="
    = "iVBORw0KGgo=".
Proof.
  apply (data_url_header_is_stripped "png" "iVBORw0KGgo=").
  - discriminate.
  - by vm_compute.
Defined.

